(** * IPC trading system: protocol, shared order book, signal engine

    A shallow embedding of the Python sources

      - [src/utils/protocol.py]      (Message, MessageType),
      - [src/utils/shared_memory.py] (OrderBookSharedMemory),
      - [src/processes/strategy.py]  (Strategy),
      - [src/processes/ordermanager.py] (OrderManager.execute_order),

    together with the behaviour of the CPython primitives these functions
    call ([json.dumps], [json.loads], [struct.pack], [socket.recv],
    [round], [int]).

    Python [float] is IEEE-754 binary64: it is modelled by Rocq's primitive
    floats, whose operations are the hardware ones.  Python [int] is [Z].
    Python [str] is a sequence of Unicode code points ([list N]); where the
    program only builds ASCII identifiers (symbols, order ids) we use
    [string].  Python [bytes] is [list N] with every element below 256.
    Exceptions are explicit: a function that can raise returns [result]. *)

From Stdlib Require Import ZArith NArith Lia Bool List.
From Stdlib Require Import Floats.
From Stdlib Require Import DecimalString DecimalZ DecimalN DecimalPos DecimalFacts.
From stdpp Require Import gmap strings list.

Set Warnings "-inexact-float,-register-all".

(** ** Exceptions and the result type *)

Inductive pyexn :=
| ConnectionError
| JSONDecodeError
| UnicodeDecodeError
| UnicodeEncodeError
| KeyError
| ValueError
| TypeError
| OverflowError
| ZeroDivisionError
| StructError.

Inductive result (A : Type) :=
| Ok (a : A)
| Raise (e : pyexn).
Arguments Ok {A} a.
Arguments Raise {A} e.

Definition rbind {A B} (r : result A) (k : A → result B) : result B :=
  match r with
  | Ok a => k a
  | Raise e => Raise e
  end.

Notation "'let*' x ':=' r 'in' k" := (rbind r (fun x => k))
  (at level 10, x pattern, r at level 100, k at level 200).

(** ** Python numerics on binary64 *)

Module PyFloat.

(** [int(x)] for a float [x]: truncation towards zero; [OverflowError] on an
    infinity and [ValueError] on a NaN. *)
Definition py_int (x : float) : result Z :=
  match Prim2SF x with
  | S754_zero _ => Ok 0%Z
  | S754_infinity _ => Raise OverflowError
  | S754_nan => Raise ValueError
  | S754_finite s m e =>
      let mag := match e with
                 | Zneg k => (Zpos m / 2 ^ Zpos k)%Z
                 | _ => (Zpos m * 2 ^ e)%Z
                 end in
      Ok (if s then (- mag)%Z else mag)
  end.

(** [a / b] on floats: Python raises [ZeroDivisionError] when [b] is a zero. *)
Definition py_truediv (a b : float) : result float :=
  if (b =? 0)%float then Raise ZeroDivisionError else Ok (a / b)%float.

(** Round-half-even of the rational [num / 2^k] to an integer. *)
Definition round_half_even_shift (num : Z) (k : positive) : Z :=
  let den := (2 ^ Zpos k)%Z in
  let q := (num / den)%Z in
  let r := (num mod den)%Z in
  match (2 * r ?= den)%Z with
  | Lt => q
  | Gt => (q + 1)%Z
  | Eq => if Z.even q then q else (q + 1)%Z
  end.

(** The binary64 value nearest to [n / d] for positive integers [n], [d]
    (what [strtod] returns on the decimal string of [n / 10^k]). *)
Definition nearest_quotient (s : bool) (n d : positive) : spec_float :=
  let '(q, e, l) := SFdiv_core_binary prec emax (Zpos n) 0 (Zpos d) 0 in
  binary_round_aux prec emax s q e l.

(** [round(x, 2)]: CPython converts [x] to the correctly rounded decimal
    string with two digits after the point (ties on the exact binary value
    go to even) and converts that string back with [strtod].  Zeros,
    infinities and NaN round to themselves. *)
Definition py_round2 (x : float) : float :=
  match Prim2SF x with
  | S754_finite s m e =>
      let n := match e with
               | Zneg k => round_half_even_shift (Zpos m * 100) k
               | _ => (Zpos m * 2 ^ e * 100)%Z
               end in
      match n with
      | Zpos p => SF2Prim (nearest_quotient s p 100)
      | _ => SF2Prim (S754_zero s)
      end
  | _ => x
  end.

(** [float(n)] for a Python int, as the mixed product [n * x] takes it:
    the nearest binary64, ties to even; [OverflowError] when [n] is beyond
    the finite range. *)
Definition float_of_int (n : Z) : result float :=
  match binary_normalize prec emax n 0 false with
  | S754_infinity _ => Raise OverflowError
  | r => Ok (SF2Prim r)
  end.

End PyFloat.

(** ** [src/utils/config.py] *)

Module Config.
Definition PRICE_CHANGE_THRESHOLD : float := 0.005%float.
Definition SENTIMENT_THRESHOLD : float := 0.3%float.
End Config.

(** ** [src/processes/strategy.py] *)

Module Strategy.
Import PyFloat.

(** [str(n)] for a Python int. *)
Definition str_of_int (n : Z) : string := NilZero.string_of_int (Z.to_int n).

Inductive side := BUY | SELL.

(** The signal dictionary built by [generate_signal]. *)
Record signal := {
  sig_symbol : string;
  sig_action : side;
  sig_price : float;
  sig_price_change : float;
  sig_sentiment : float;
  sig_timestamp : float
}.

(** The order dictionary built by [create_order]; [signal_data] holds the
    provenance pair [(price_change, sentiment)]. *)
Record order := {
  order_id : string;
  ord_symbol : string;
  ord_side : side;
  ord_price : float;
  ord_quantity : Z;
  ord_timestamp : float;
  ord_signal_data : float * float
}.

(** The attributes of a [Strategy] object that its message handlers read or
    write.  [sentiment_scores] is a [defaultdict(float)]: a missing key
    reads as [0.0]. *)
Record state := {
  last_prices : gmap string float;
  sentiment_scores : gmap string float;
  signal_count : Z;
  order_count : Z
}.

(** [Strategy.__init__] *)
Definition init : state :=
  {| last_prices := ∅; sentiment_scores := ∅; signal_count := 0; order_count := 0 |}.

Definition bump_signal_count (self : state) : state :=
  {| last_prices := last_prices self;
     sentiment_scores := sentiment_scores self;
     signal_count := signal_count self + 1;
     order_count := order_count self |}.

Definition bump_order_count (self : state) : state :=
  {| last_prices := last_prices self;
     sentiment_scores := sentiment_scores self;
     signal_count := signal_count self;
     order_count := order_count self + 1 |}.

Definition set_last_price (self : state) (symbol : string) (p : float) : state :=
  {| last_prices := <[symbol := p]> (last_prices self);
     sentiment_scores := sentiment_scores self;
     signal_count := signal_count self;
     order_count := order_count self |}.

Definition set_sentiment (self : state) (symbol : string) (x : float) : state :=
  {| last_prices := last_prices self;
     sentiment_scores := <[symbol := x]> (sentiment_scores self);
     signal_count := signal_count self;
     order_count := order_count self |}.

(** [self.sentiment_scores.get(symbol, 0.0)], which is also what
    [self.sentiment_scores[symbol]] reads on the defaultdict. *)
Definition sentiment_of (self : state) (symbol : string) : float :=
  default 0%float (sentiment_scores self !! symbol).

(** [Strategy.generate_signal]; [now] is the reading of [time.time()] taken
    when a signal dictionary is built. *)
Definition generate_signal (self : state) (symbol : string) (current_price now : float)
  : result (option signal * state) :=
  match last_prices self !! symbol with
  | None => Ok (None, self)
  | Some last_price =>
      let* price_change := py_truediv (current_price - last_price) last_price in
      let sentiment := sentiment_of self symbol in
      if (Config.PRICE_CHANGE_THRESHOLD <? price_change)%float
         && (Config.SENTIMENT_THRESHOLD <? sentiment)%float then
        Ok (Some {| sig_symbol := symbol; sig_action := BUY;
                    sig_price := current_price; sig_price_change := price_change;
                    sig_sentiment := sentiment; sig_timestamp := now |},
            bump_signal_count self)
      else if (price_change <? - Config.PRICE_CHANGE_THRESHOLD)%float
              && (sentiment <? - Config.SENTIMENT_THRESHOLD)%float then
        Ok (Some {| sig_symbol := symbol; sig_action := SELL;
                    sig_price := current_price; sig_price_change := price_change;
                    sig_sentiment := sentiment; sig_timestamp := now |},
            bump_signal_count self)
      else Ok (None, self)
  end.

(** [Strategy.create_order]; [now_id] and [now_ts] are the two readings of
    [time.time()] and [qty] the draw of [random.randint(10, 100)]. *)
Definition create_order (sg : signal) (now_id : float) (qty : Z) (now_ts : float)
  : result order :=
  let* micros := py_int (now_id * 1000000)%float in
  Ok {| order_id := "ORD_" +:+ str_of_int micros;
        ord_symbol := sig_symbol sg;
        ord_side := sig_action sg;
        ord_price := sig_price sg;
        ord_quantity := qty;
        ord_timestamp := now_ts;
        ord_signal_data := (sig_price_change sg, sig_sentiment sg) |}.

(** What one call of [process_market_data] draws from its environment: three
    clock readings, the random quantity, and whether [om_socket.sendall]
    succeeds. *)
Record env := {
  now_signal : float;
  now_id : float;
  rand_qty : Z;
  now_order : float;
  send_ok : bool
}.

(** The fields of a market-data payload that the handler reads:
    [data['symbol']] and [data.get('last_price', 0)].  The payload is taken
    as the gateway builds it: a dictionary with a string symbol and a float
    [last_price] (or none).  What the handler does on another payload (no
    symbol, a price that is no number) is outside this model. *)
Record market_data := {
  md_symbol : string;
  md_last_price : option float
}.

(** The fields of a news payload that the handler reads. *)
Record news := {
  news_symbol : string;
  news_score : float
}.

(** What [process_market_data] did: the signal it generated, if any, and the
    order it handed to [sendall], together with whether the send went
    through. *)
Record emitted := {
  em_signal : option signal;
  em_order : option order;
  em_sent : bool
}.

Definition nothing : emitted :=
  {| em_signal := None; em_order := None; em_sent := false |}.

(** [Strategy.process_market_data].  An exception raised by
    [generate_signal] or [create_order] leaves the handler before the
    price is recorded; the state reached at that point is returned next
    to the exception. *)
Definition process_market_data (self : state) (data : market_data) (ev : env)
  : state * result emitted :=
  let symbol := md_symbol data in
  let current_price := default 0%float (md_last_price data) in
  if (0 <? current_price)%float then
    match generate_signal self symbol current_price (now_signal ev) with
    | Raise e => (self, Raise e)
    | Ok (None, self1) =>
        (set_last_price self1 symbol current_price, Ok nothing)
    | Ok (Some sg, self1) =>
        match create_order sg (now_id ev) (rand_qty ev) (now_order ev) with
        | Raise e => (self1, Raise e)
        | Ok o =>
            let self2 := if send_ok ev then bump_order_count self1 else self1 in
            (set_last_price self2 symbol current_price,
             Ok {| em_signal := Some sg; em_order := Some o; em_sent := send_ok ev |})
        end
    end
  else (self, Ok nothing).

(** [Strategy.process_news] *)
Definition process_news (self : state) (data : news) : state :=
  let symbol := news_symbol data in
  let score := news_score data in
  let alpha := 0.3%float in
  set_sentiment self symbol
    (alpha * score + (1 - alpha) * sentiment_of self symbol)%float.

(** The messages the main loop of [run] dispatches on. *)
Inductive event :=
| MarketData (data : market_data) (ev : env)
| NewsSentiment (data : news).

Definition step (self : state) (e : event) : state :=
  match e with
  | MarketData data ev => fst (process_market_data self data ev)
  | NewsSentiment data => process_news self data
  end.

Definition run (self : state) (events : list event) : state :=
  fold_left step events self.

End Strategy.

(** ** [src/processes/ordermanager.py] *)

Module OrderManager.
Import PyFloat.

Record execution := {
  execution_id : string;
  ex_order_id : string;
  ex_symbol : string;
  ex_side : Strategy.side;
  ex_quantity : Z;
  ex_order_price : float;
  execution_price : float;
  ex_timestamp : float
}.

(** [OrderManager.execute_order]; [slippage] is the draw of
    [random.uniform(-0.001, 0.001)], [now_id] and [now_ts] the two clock
    readings.  The status field is the constant ['FILLED']. *)
Definition execute_order (o : Strategy.order) (slippage now_id now_ts : float)
  : result execution :=
  let execution_price := (Strategy.ord_price o * (1 + slippage))%float in
  let* micros := py_int (now_id * 1000000)%float in
  Ok {| execution_id := "EXEC_" +:+ Strategy.str_of_int micros;
        ex_order_id := Strategy.order_id o;
        ex_symbol := Strategy.ord_symbol o;
        ex_side := Strategy.ord_side o;
        ex_quantity := Strategy.ord_quantity o;
        ex_order_price := Strategy.ord_price o;
        execution_price := py_round2 execution_price;
        ex_timestamp := now_ts |}.

(** The attributes of an [OrderManager] that [process_order] reads or
    writes. *)
Record state := {
  orders : list Strategy.order;
  executed_trades : list execution;
  total_orders : Z;
  total_executed : Z;
  total_volume : float
}.

(** [OrderManager.__init__] *)
Definition init : state :=
  {| orders := []; executed_trades := []; total_orders := 0; total_executed := 0;
     total_volume := 0 |}.

(** [OrderManager.process_order] on a well-formed order: the order record
    has every field the strategy puts into the dictionary, with a float
    price and an integer quantity, so the logging line that opens the
    function finds every key it reads and changes nothing.  What the
    function does on another payload (a missing key, a price that is no
    number) is outside this model.  The order is tracked before it is
    executed, so an exception of the execution leaves it tracked; the
    state reached when the exception was raised is returned next to it.
    [log_trade] writes the execution to the log file and swallows its own
    exceptions: it does not touch the state. *)
Definition process_order (self : state) (o : Strategy.order)
    (slippage now_id now_ts : float) : state * result unit :=
  let self1 :=
    {| orders := orders self ++ [o];
       executed_trades := executed_trades self;
       total_orders := total_orders self + 1;
       total_executed := total_executed self;
       total_volume := total_volume self |} in
  match execute_order o slippage now_id now_ts with
  | Raise e => (self1, Raise e)
  | Ok ex =>
      let self2 :=
        {| orders := orders self1;
           executed_trades := executed_trades self1 ++ [ex];
           total_orders := total_orders self1;
           total_executed := total_executed self1 + 1;
           total_volume := total_volume self1 |} in
      match float_of_int (Strategy.ord_quantity o) with
      | Raise e => (self2, Raise e)
      | Ok q =>
          ({| orders := orders self2;
              executed_trades := executed_trades self2;
              total_orders := total_orders self2;
              total_executed := total_executed self2;
              total_volume := (total_volume self2 + q * execution_price ex)%float |},
           Ok tt)
      end
  end.

(** One ORDER message of [handle_client]: the order and what its execution
    draws (the slippage and two clock readings). *)
Record arrival := {
  arr_order : Strategy.order;
  arr_slippage : float;
  arr_now_id : float;
  arr_now_ts : float
}.

(** The ORDER messages of one [handle_client] loop, in order, no other
    client being served meanwhile: an exception of [process_order] is
    logged and the loop goes on. *)
Definition handle_orders (self : state) (arrivals : list arrival) : state :=
  fold_left (fun st a =>
               fst (process_order st (arr_order a) (arr_slippage a) (arr_now_id a)
                      (arr_now_ts a)))
            arrivals self.

End OrderManager.

(** ** CPython's [json] module on [str], and UTF-8

    A Python [str] is a list of code points; [json.dumps] with its default
    settings ([ensure_ascii=True], separators [", "] and [": "]) and
    [json.loads] are modelled on it.  A finite float is carried as the text
    [float.__repr__] prints for it (sign, integer digits, fraction digits,
    exponent): [repr] and [float] are inverse of each other, so the text
    identifies the float. *)

Module Json.

(** The code points of an ASCII literal. *)
Definition str (s : string) : list N :=
  map Ascii.N_of_ascii (String.list_ascii_of_string s).

Local Abbreviation QUOTE := 34%N (only parsing).
Local Abbreviation BACKSLASH := 92%N (only parsing).
Local Abbreviation COMMA := 44%N (only parsing).
Local Abbreviation COLON := 58%N (only parsing).
Local Abbreviation SPACE := 32%N (only parsing).
Local Abbreviation MINUS := 45%N (only parsing).
Local Abbreviation PLUS := 43%N (only parsing).
Local Abbreviation DOT := 46%N (only parsing).
Local Abbreviation LBRACE := 123%N (only parsing).
Local Abbreviation RBRACE := 125%N (only parsing).
Local Abbreviation LBRACKET := 91%N (only parsing).
Local Abbreviation RBRACKET := 93%N (only parsing).

(** The text of a finite float: [-? int (. frac)? (e [+-] exp)?] with the
    digits kept as numbers [0..9]. *)
Record float_repr := {
  fr_neg : bool;
  fr_int : N;
  fr_frac : option (list N);
  fr_exp : option (bool * list N)
}.

(** The Python values [json] maps to and from text.  A [dict] keeps its
    insertion order and has [str] keys. *)
Inductive json :=
| JNull
| JBool (b : bool)
| JInt (n : Z)
| JFloat (r : float_repr)
| JInfinity (neg : bool)
| JNaN
| JString (s : list N)
| JArray (items : list json)
| JObject (members : list (list N * json)).

(** *** Decimal digits *)

Fixpoint digits_of_uint (u : Decimal.uint) : list N :=
  match u with
  | Decimal.Nil => []
  | Decimal.D0 u => 0 :: digits_of_uint u
  | Decimal.D1 u => 1 :: digits_of_uint u
  | Decimal.D2 u => 2 :: digits_of_uint u
  | Decimal.D3 u => 3 :: digits_of_uint u
  | Decimal.D4 u => 4 :: digits_of_uint u
  | Decimal.D5 u => 5 :: digits_of_uint u
  | Decimal.D6 u => 6 :: digits_of_uint u
  | Decimal.D7 u => 7 :: digits_of_uint u
  | Decimal.D8 u => 8 :: digits_of_uint u
  | Decimal.D9 u => 9 :: digits_of_uint u
  end%N.

Fixpoint uint_of_digits (ds : list N) : Decimal.uint :=
  match ds with
  | [] => Decimal.Nil
  | d :: ds =>
      let u := uint_of_digits ds in
      match d with
      | 0 => Decimal.D0 u | 1 => Decimal.D1 u | 2 => Decimal.D2 u
      | 3 => Decimal.D3 u | 4 => Decimal.D4 u | 5 => Decimal.D5 u
      | 6 => Decimal.D6 u | 7 => Decimal.D7 u | 8 => Decimal.D8 u
      | _ => Decimal.D9 u
      end%N
  end.

(** The decimal digits of a natural number, most significant first. *)
Definition digits_of_N (n : N) : list N := digits_of_uint (N.to_uint n).

(** The number a digit sequence denotes. *)
Definition N_of_digits (ds : list N) : N := N.of_uint (uint_of_digits ds).

Definition digit_chars (ds : list N) : list N := map (N.add 48) ds.

Definition is_digit (c : N) : bool := (48 <=? c)%N && (c <=? 57)%N.

(** The longest run of digit characters at the head of [s], as digits. *)
Fixpoint take_digits (s : list N) : list N * list N :=
  match s with
  | c :: r =>
      if is_digit c then
        let '(ds, rest) := take_digits r in ((c - 48)%N :: ds, rest)
      else ([], s)
  | [] => ([], [])
  end.

(** *** [json.dumps] *)

Definition hex_char (d : N) : N := if (d <? 10)%N then (48 + d)%N else (87 + d)%N.

(** [\uXXXX] with lowercase digits. *)
Definition escape_u (n : N) : list N :=
  [BACKSLASH; 117%N;
   hex_char (n / 4096); hex_char (n / 256 mod 16);
   hex_char (n / 16 mod 16); hex_char (n mod 16)]%N.

(** One character of [encode_basestring_ascii]. *)
Definition escape_char (c : N) : list N :=
  if (c =? QUOTE)%N then [BACKSLASH; QUOTE]
  else if (c =? BACKSLASH)%N then [BACKSLASH; BACKSLASH]
  else if (SPACE <=? c)%N && (c <=? 126)%N then [c]
  else if (c =? 10)%N then [BACKSLASH; 110%N]
  else if (c =? 13)%N then [BACKSLASH; 114%N]
  else if (c =? 9)%N then [BACKSLASH; 116%N]
  else if (c =? 12)%N then [BACKSLASH; 102%N]
  else if (c =? 8)%N then [BACKSLASH; 98%N]
  else if (c <? 65536)%N then escape_u c
  else
    let v := (c - 65536)%N in
    escape_u (55296 + v / 1024 mod 1024) ++ escape_u (56320 + v mod 1024).

Definition encode_string (s : list N) : list N :=
  QUOTE :: concat (map escape_char s) ++ [QUOTE].

Definition encode_int (n : Z) : list N :=
  match n with
  | Zneg p => MINUS :: digit_chars (digits_of_N (Npos p))
  | _ => digit_chars (digits_of_N (Z.to_N n))
  end.

Definition encode_float (r : float_repr) : list N :=
  (if fr_neg r then [MINUS] else [])
  ++ digit_chars (digits_of_N (fr_int r))
  ++ match fr_frac r with
     | Some ds => DOT :: digit_chars ds
     | None => []
     end
  ++ match fr_exp r with
     | Some (neg, ds) => 101%N :: (if neg then MINUS else PLUS) :: digit_chars ds
     | None => []
     end.

(** [sep.join(parts)] *)
Fixpoint join (sep : list N) (parts : list (list N)) : list N :=
  match parts with
  | [] => []
  | [p] => p
  | p :: ps => p ++ sep ++ join sep ps
  end.

(** [JSONEncoder().encode] *)
Fixpoint encode (v : json) : list N :=
  match v with
  | JNull => str "null"
  | JBool true => str "true"
  | JBool false => str "false"
  | JInt n => encode_int n
  | JFloat r => encode_float r
  | JInfinity false => str "Infinity"
  | JInfinity true => str "-Infinity"
  | JNaN => str "NaN"
  | JString s => encode_string s
  | JArray items =>
      LBRACKET :: join [COMMA; SPACE] (map encode items) ++ [RBRACKET]
  | JObject members =>
      LBRACE
      :: join [COMMA; SPACE]
           (map (fun kv => encode_string (fst kv) ++ [COLON; SPACE] ++ encode (snd kv))
              members)
      ++ [RBRACE]
  end.

Definition dumps (v : json) : list N := encode v.

(** *** [json.loads] *)

Definition is_ws (c : N) : bool :=
  (c =? SPACE)%N || (c =? 9)%N || (c =? 10)%N || (c =? 13)%N.

Fixpoint skip_ws (s : list N) : list N :=
  match s with
  | c :: r => if is_ws c then skip_ws r else s
  | [] => []
  end.

Definition hex_val (c : N) : option N :=
  if is_digit c then Some (c - 48)%N
  else if (97 <=? c)%N && (c <=? 102)%N then Some (c - 87)%N
  else if (65 <=? c)%N && (c <=? 70)%N then Some (c - 55)%N
  else None.

Definition hex4 (a b c d : N) : option N :=
  match hex_val a, hex_val b, hex_val c, hex_val d with
  | Some a, Some b, Some c, Some d => Some (((a * 16 + b) * 16 + c) * 16 + d)%N
  | _, _, _, _ => None
  end.

(** The table [BACKSLASH] of the decoder. *)
Definition unescape (e : N) : option N :=
  if (e =? QUOTE)%N then Some QUOTE
  else if (e =? BACKSLASH)%N then Some BACKSLASH
  else if (e =? 47)%N then Some 47%N
  else if (e =? 98)%N then Some 8%N
  else if (e =? 102)%N then Some 12%N
  else if (e =? 110)%N then Some 10%N
  else if (e =? 114)%N then Some 13%N
  else if (e =? 116)%N then Some 9%N
  else None.

Definition is_high_surrogate (u : N) : bool := (55296 <=? u)%N && (u <=? 56319)%N.
Definition is_low_surrogate (u : N) : bool := (56320 <=? u)%N && (u <=? 57343)%N.

(** [scanstring] in strict mode, after the opening quote: the decoded
    string and the text after the closing quote. *)
Fixpoint scan_string (acc : list N) (s : list N) : result (list N * list N) :=
  match s with
  | [] => Raise JSONDecodeError
  | c :: r =>
      if (c =? QUOTE)%N then Ok (rev acc, r)
      else if (c =? BACKSLASH)%N then
        match r with
        | [] => Raise JSONDecodeError
        | e :: r1 =>
            if (e =? 117)%N then
              match r1 with
              | h1 :: h2 :: h3 :: h4 :: r2 =>
                  match hex4 h1 h2 h3 h4 with
                  | None => Raise JSONDecodeError
                  | Some uni =>
                      if is_high_surrogate uni then
                        match r2 with
                        | b :: u :: g1 :: g2 :: g3 :: g4 :: (_ :: _) as r3 =>
                            if (b =? BACKSLASH)%N && (u =? 117)%N then
                              match hex4 g1 g2 g3 g4 with
                              | None => Raise JSONDecodeError
                              | Some uni2 =>
                                  if is_low_surrogate uni2 then
                                    scan_string
                                      ((65536 + ((uni - 55296) * 1024 + (uni2 - 56320)))%N :: acc)
                                      r3
                                  else scan_string (uni :: acc) r2
                              end
                            else scan_string (uni :: acc) r2
                        | _ => scan_string (uni :: acc) r2
                        end
                      else scan_string (uni :: acc) r2
                  end
              | _ => Raise JSONDecodeError
              end
            else
              match unescape e with
              | Some ch => scan_string (ch :: acc) r1
              | None => Raise JSONDecodeError
              end
        end
      else if (c <? SPACE)%N then Raise JSONDecodeError
      else scan_string (c :: acc) r
  end.

(** The three groups of [NUMBER_RE]: an integer part (an optional minus
    sign, then a single 0 or a non-zero digit followed by digits), an
    optional fraction (a dot and at least one digit) and an optional
    exponent (e or E, an optional sign, at least one digit). *)
Definition scan_sign (s : list N) : bool * list N :=
  match s with
  | c :: r => if (c =? MINUS)%N then (true, r) else (false, s)
  | [] => (false, s)
  end.

Definition scan_int_part (s : list N) : option (list N * list N) :=
  match s with
  | c :: r =>
      if (c =? 48)%N then Some ([0%N], r)
      else if is_digit c then Some (take_digits s)
      else None
  | [] => None
  end.

Definition scan_frac (s : list N) : option (list N) * list N :=
  match s with
  | p :: (d :: _) as r =>
      if (p =? DOT)%N && is_digit d then
        (Some (fst (take_digits r)), snd (take_digits r))
      else (None, s)
  | _ => (None, s)
  end.

Definition scan_exp (s : list N) : option (bool * list N) * list N :=
  match s with
  | e :: r =>
      if (e =? 101)%N || (e =? 69)%N then
        let sign := match r with
                    | g :: r' =>
                        if (g =? MINUS)%N then (true, r')
                        else if (g =? PLUS)%N then (false, r')
                        else (false, r)
                    | [] => (false, r)
                    end in
        match take_digits (snd sign) with
        | (nil, _) => (None, s)
        | (eds, rest) => (Some (fst sign, eds), rest)
        end
      else (None, s)
  | [] => (None, s)
  end.

(** [NUMBER_RE.match] and the conversion of its groups: [int] when there is
    neither fraction nor exponent, [float] otherwise.  [None] when the text
    does not start with a number. *)
Definition match_number (s : list N) : option (json * list N) :=
  let neg := fst (scan_sign s) in
  match scan_int_part (snd (scan_sign s)) with
  | None => None
  | Some (ids, s2) =>
      let frac := fst (scan_frac s2) in
      let s3 := snd (scan_frac s2) in
      let exp := fst (scan_exp s3) in
      let s4 := snd (scan_exp s3) in
      match frac, exp with
      | None, None =>
          let v := Z.of_N (N_of_digits ids) in
          Some (JInt (if neg then (- v)%Z else v), s4)
      | _, _ =>
          Some (JFloat {| fr_neg := neg; fr_int := N_of_digits ids;
                          fr_frac := frac; fr_exp := exp |}, s4)
      end
  end.

(** [s.startswith(lit)]: the rest of [s] after [lit]. *)
Fixpoint strip_prefix (lit s : list N) : option (list N) :=
  match lit, s with
  | [], _ => Some s
  | a :: lit', b :: s' => if (a =? b)%N then strip_prefix lit' s' else None
  | _ :: _, [] => None
  end.

(** [pairs.append((key, value))] followed by [dict(pairs)]: a repeated key
    keeps its first position and takes the last value. *)
Fixpoint dict_set (d : list (list N * json)) (k : list N) (v : json)
  : list (list N * json) :=
  match d with
  | [] => [(k, v)]
  | (k', v') :: d' =>
      if decide (k' = k) then (k, v) :: d' else (k', v') :: dict_set d' k v
  end.

Definition dict_of_pairs (pairs : list (list N * json)) : list (list N * json) :=
  fold_left (fun d kv => dict_set d (fst kv) (snd kv)) pairs [].

(** The scanner.  [scan_once] reads one value at the head of the text;
    [scan_array] and [scan_object] are the loops of [JSONArray] and
    [JSONObject], entered before an element, respectively before the
    opening quote of a key.  The recursion is on [fuel]; [None] means the
    fuel ran out. *)
Fixpoint scan_once (fuel : nat) (s : list N) : option (result (json * list N)) :=
  match fuel with
  | O => None
  | S fuel =>
      match s with
      | [] => Some (Raise JSONDecodeError)
      | c :: r =>
          if (c =? QUOTE)%N then
            Some (match scan_string [] r with
                  | Ok (sv, rest) => Ok (JString sv, rest)
                  | Raise e => Raise e
                  end)
          else if (c =? LBRACE)%N then
            match skip_ws r with
            | c1 :: r1 =>
                if (c1 =? QUOTE)%N then scan_object fuel [] r1
                else if (c1 =? RBRACE)%N then Some (Ok (JObject [], r1))
                else Some (Raise JSONDecodeError)
            | [] => Some (Raise JSONDecodeError)
            end
          else if (c =? LBRACKET)%N then
            match skip_ws r with
            | c1 :: r1 =>
                if (c1 =? RBRACKET)%N then Some (Ok (JArray [], r1))
                else scan_array fuel [] (c1 :: r1)
            | [] => Some (Raise JSONDecodeError)
            end
          else
            match (if (c =? 110)%N then strip_prefix (str "null") s else None),
                  (if (c =? 116)%N then strip_prefix (str "true") s else None),
                  (if (c =? 102)%N then strip_prefix (str "false") s else None) with
            | Some rest, _, _ => Some (Ok (JNull, rest))
            | _, Some rest, _ => Some (Ok (JBool true, rest))
            | _, _, Some rest => Some (Ok (JBool false, rest))
            | None, None, None =>
                match match_number s with
                | Some res => Some (Ok res)
                | None =>
                    match (if (c =? 78)%N then strip_prefix (str "NaN") s else None),
                          (if (c =? 73)%N then strip_prefix (str "Infinity") s else None),
                          (if (c =? MINUS)%N then strip_prefix (str "-Infinity") s else None) with
                    | Some rest, _, _ => Some (Ok (JNaN, rest))
                    | _, Some rest, _ => Some (Ok (JInfinity false, rest))
                    | _, _, Some rest => Some (Ok (JInfinity true, rest))
                    | None, None, None => Some (Raise JSONDecodeError)
                    end
                end
            end
      end
  end

with scan_array (fuel : nat) (acc : list json) (s : list N)
  : option (result (json * list N)) :=
  match fuel with
  | O => None
  | S fuel =>
      match scan_once fuel s with
      | None => None
      | Some (Raise e) => Some (Raise e)
      | Some (Ok (v, rest)) =>
          match skip_ws rest with
          | c :: r =>
              if (c =? RBRACKET)%N then Some (Ok (JArray (rev (v :: acc)), r))
              else if (c =? COMMA)%N then scan_array fuel (v :: acc) (skip_ws r)
              else Some (Raise JSONDecodeError)
          | [] => Some (Raise JSONDecodeError)
          end
      end
  end

with scan_object (fuel : nat) (acc : list (list N * json)) (s : list N)
  : option (result (json * list N)) :=
  match fuel with
  | O => None
  | S fuel =>
      match scan_string [] s with
      | Raise e => Some (Raise e)
      | Ok (key, rest) =>
          match skip_ws rest with
          | c :: r =>
              if (c =? COLON)%N then
                match scan_once fuel (skip_ws r) with
                | None => None
                | Some (Raise e) => Some (Raise e)
                | Some (Ok (v, rest1)) =>
                    match skip_ws rest1 with
                    | c1 :: r1 =>
                        if (c1 =? RBRACE)%N then
                          Some (Ok (JObject (dict_of_pairs (rev ((key, v) :: acc))), r1))
                        else if (c1 =? COMMA)%N then
                          match skip_ws r1 with
                          | c2 :: r2 =>
                              if (c2 =? QUOTE)%N then scan_object fuel ((key, v) :: acc) r2
                              else Some (Raise JSONDecodeError)
                          | [] => Some (Raise JSONDecodeError)
                          end
                        else Some (Raise JSONDecodeError)
                    | [] => Some (Raise JSONDecodeError)
                    end
                end
              else Some (Raise JSONDecodeError)
          | [] => Some (Raise JSONDecodeError)
          end
      end
  end.

(** Fuel that no text exhausts (see [JsonFacts.scan_once_fuel]). *)
Definition fuel_for (s : list N) : nat := 2 * length s + 2.

(** [s.startswith('\ufeff')] *)
Definition starts_with_bom (s : list N) : bool :=
  match s with
  | c :: _ => (c =? 65279)%N
  | [] => false
  end.

(** [json.loads] on a [str]: a leading byte-order mark is refused, the value
    may be surrounded by whitespace, and nothing else may follow it. *)
Definition loads (s : list N) : result json :=
  if starts_with_bom s then Raise JSONDecodeError
  else
    let s0 := skip_ws s in
    match scan_once (fuel_for s0) s0 with
    | Some (Ok (v, rest)) =>
        match skip_ws rest with
        | [] => Ok v
        | _ :: _ => Raise JSONDecodeError
        end
    | Some (Raise e) => Raise e
    | None => Raise JSONDecodeError
    end.

(** *** UTF-8 *)

Definition is_surrogate (c : N) : bool := (55296 <=? c)%N && (c <=? 57343)%N.

(** [str.encode('utf-8')] *)
Fixpoint utf8_encode (s : list N) : result (list N) :=
  match s with
  | [] => Ok []
  | c :: r =>
      let* bytes :=
        if (c <? 128)%N then Ok [c]
        else if (c <? 2048)%N then Ok [192 + c / 64; 128 + c mod 64]%N
        else if is_surrogate c then Raise UnicodeEncodeError
        else if (c <? 65536)%N then
          Ok [224 + c / 4096; 128 + c / 64 mod 64; 128 + c mod 64]%N
        else
          Ok [240 + c / 262144; 128 + c / 4096 mod 64;
              128 + c / 64 mod 64; 128 + c mod 64]%N in
      let* rest := utf8_encode r in
      Ok (bytes ++ rest)
  end.

Definition is_cont (b : N) : bool := (128 <=? b)%N && (b <=? 191)%N.

(** [bytes.decode('utf-8')], strict. *)
Fixpoint utf8_decode (bs : list N) : result (list N) :=
  match bs with
  | [] => Ok []
  | b0 :: r =>
      if (b0 <? 128)%N then
        let* rest := utf8_decode r in Ok (b0 :: rest)
      else if (194 <=? b0)%N && (b0 <=? 223)%N then
        match r with
        | b1 :: r1 =>
            if is_cont b1 then
              let* rest := utf8_decode r1 in
              Ok (((b0 - 192) * 64 + (b1 - 128))%N :: rest)
            else Raise UnicodeDecodeError
        | _ => Raise UnicodeDecodeError
        end
      else if (224 <=? b0)%N && (b0 <=? 239)%N then
        match r with
        | b1 :: b2 :: r2 =>
            if is_cont b1 && is_cont b2
               && negb ((b0 =? 224)%N && (b1 <? 160)%N)
               && negb ((b0 =? 237)%N && (160 <=? b1)%N) then
              let* rest := utf8_decode r2 in
              Ok ((((b0 - 224) * 64 + (b1 - 128)) * 64 + (b2 - 128))%N :: rest)
            else Raise UnicodeDecodeError
        | _ => Raise UnicodeDecodeError
        end
      else if (240 <=? b0)%N && (b0 <=? 244)%N then
        match r with
        | b1 :: b2 :: b3 :: r3 =>
            if is_cont b1 && is_cont b2 && is_cont b3
               && negb ((b0 =? 240)%N && (b1 <? 144)%N)
               && negb ((b0 =? 244)%N && (144 <=? b1)%N) then
              let* rest := utf8_decode r3 in
              Ok (((((b0 - 240) * 64 + (b1 - 128)) * 64 + (b2 - 128)) * 64
                   + (b3 - 128))%N :: rest)
            else Raise UnicodeDecodeError
        | _ => Raise UnicodeDecodeError
        end
      else Raise UnicodeDecodeError
  end.

(** *** [float(text)] *)

(** The binary64 value nearest to the decimal a [float_repr] denotes. *)
Definition float_of_repr (r : float_repr) : float :=
  let frac := default [] (fr_frac r) in
  let mant := (Z.of_N (fr_int r) * 10 ^ Z.of_nat (length frac)
               + Z.of_N (N_of_digits frac))%Z in
  let e10 := (match fr_exp r with
              | Some (neg, ds) =>
                  let e := Z.of_N (N_of_digits ds) in if neg then - e else e
              | None => 0
              end - Z.of_nat (length frac))%Z in
  match mant with
  | Zpos m =>
      match e10 with
      | Zneg k => SF2Prim (PyFloat.nearest_quotient (fr_neg r) m (10 ^ k))
      | _ => SF2Prim (binary_normalize prec emax
                        (if fr_neg r then - (Zpos m * 10 ^ e10) else Zpos m * 10 ^ e10)%Z
                        0 false)
      end
  | _ => SF2Prim (S754_zero (fr_neg r))
  end.

(** *** What makes a payload survive the wire *)

Definition is_scalar_value (c : N) : bool :=
  (c <? 1114112)%N && negb (is_surrogate c).

Definition valid_string (s : list N) : bool := forallb is_scalar_value s.

Definition valid_digits (ds : list N) : bool :=
  negb (Nat.eqb (length ds) 0) && forallb (fun d => (d <? 10)%N) ds.

Definition valid_float (r : float_repr) : bool :=
  match fr_frac r, fr_exp r with
  | None, None => false
  | frac, exp =>
      match frac with Some ds => valid_digits ds | None => true end
      && match exp with Some (_, ds) => valid_digits ds | None => true end
  end.

Fixpoint nodup_keys (keys : list (list N)) : bool :=
  match keys with
  | [] => true
  | k :: ks => negb (bool_decide (k ∈ ks)) && nodup_keys ks
  end.

(** A value that [json] can carry faithfully: its strings are sequences of
    Unicode scalar values, its floats are finite [repr] texts or an
    infinity (a NaN is not equal to itself in Python), and no dictionary
    lists a key twice. *)
Fixpoint valid (v : json) : bool :=
  match v with
  | JNull | JBool _ | JInt _ | JInfinity _ => true
  | JNaN => false
  | JFloat r => valid_float r
  | JString s => valid_string s
  | JArray items => forallb valid items
  | JObject members =>
      nodup_keys (map fst members)
      && forallb (fun kv => valid_string (fst kv) && valid (snd kv)) members
  end.

End Json.

(** ** [struct] and sockets *)

Module Wire.

(** [struct.pack('>I', n)]: four bytes, most significant first;
    [struct.error] when [n] does not fit. *)
Definition pack_u32 (n : N) : result (list N) :=
  if (n <? 4294967296)%N then
    Ok [n / 16777216; n / 65536 mod 256; n / 256 mod 256; n mod 256]%N
  else Raise StructError.

(** [struct.unpack('>I', bs)[0]] *)
Definition unpack_u32 (bs : list N) : result N :=
  match bs with
  | [b0; b1; b2; b3] => Ok (((b0 * 256 + b1) * 256 + b2) * 256 + b3)%N
  | _ => Raise StructError
  end.

(** The eight bytes of a 64-bit pattern, most significant first
    ([struct.pack('>d', x)] on the IEEE-754 pattern of [x]). *)
Definition pack_u64 (n : N) : list N :=
  [n / 72057594037927936; n / 281474976710656 mod 256;
   n / 1099511627776 mod 256; n / 4294967296 mod 256;
   n / 16777216 mod 256; n / 65536 mod 256; n / 256 mod 256; n mod 256]%N.

Definition unpack_u64 (bs : list N) : result N :=
  match bs with
  | [b0; b1; b2; b3; b4; b5; b6; b7] =>
      Ok (((((((b0 * 256 + b1) * 256 + b2) * 256 + b3) * 256 + b4) * 256 + b5)
           * 256 + b6) * 256 + b7)%N
  | _ => Raise StructError
  end.

(** The receiving side of a connected stream socket: the segments the
    transport will deliver, in order.  Once they are used up the peer has
    closed the connection. *)
Definition socket := list (list N).

(** [sock.recv(bufsize)]: the next pending bytes, at most [bufsize] of them;
    the empty bytes object when the connection is closed. *)
Definition recv (sock : socket) (bufsize : nat) : list N * socket :=
  match sock with
  | [] => ([], [])
  | chunk :: rest =>
      if (length chunk <=? bufsize)%nat then (chunk, rest)
      else (take bufsize chunk, drop bufsize chunk :: rest)
  end.

(** The receive loop that [read_message] runs twice:

      while len(buf) < need:
          chunk = sock.recv(min(need - len(buf), cap))
          if not chunk: raise ConnectionError
          buf += chunk

    with [cap = 4] for the length prefix, where [4 - len(buf)] never
    exceeds it, and [cap = 4096] for the body.  Recursion is on [fuel];
    [None] means the fuel ran out. *)
Fixpoint recv_loop (fuel : nat) (need cap : nat) (buf : list N) (sock : socket)
  : option (result (list N * socket)) :=
  if (length buf <? need)%nat then
    match fuel with
    | O => None
    | S fuel =>
        let '(chunk, sock') := recv sock (Nat.min (need - length buf) cap) in
        match chunk with
        | [] => Some (Raise ConnectionError)
        | _ :: _ => recv_loop fuel need cap (buf ++ chunk) sock'
        end
    end
  else Some (Ok (buf, sock)).

End Wire.

(** ** [src/utils/protocol.py] *)

Module Protocol.
Import Json Wire.

Inductive MessageType :=
| MARKET_DATA
| NEWS_SENTIMENT
| TRADING_SIGNAL
| ORDER
| TRADE_EXECUTION
| ORDERBOOK_UPDATE
| HEARTBEAT
| SHUTDOWN.

(** [msg_type.value] *)
Definition value (t : MessageType) : Z :=
  match t with
  | MARKET_DATA => 1
  | NEWS_SENTIMENT => 2
  | TRADING_SIGNAL => 3
  | ORDER => 4
  | TRADE_EXECUTION => 5
  | ORDERBOOK_UPDATE => 6
  | HEARTBEAT => 7
  | SHUTDOWN => 8
  end.

Definition members : list MessageType :=
  [MARKET_DATA; NEWS_SENTIMENT; TRADING_SIGNAL; ORDER;
   TRADE_EXECUTION; ORDERBOOK_UPDATE; HEARTBEAT; SHUTDOWN].

(** [x == member.value] for a decoded JSON value [x]: Python compares
    numbers by value, so [True] equals [1] and [2.0] equals [2]. *)
Definition equals_int (x : json) (n : Z) : bool :=
  match x with
  | JInt m => (m =? n)%Z
  | JBool b => ((if b then 1 else 0) =? n)%Z
  | JFloat r => (float_of_repr r =? PrimFloat.of_uint63 (Uint63.of_Z n))%float
  | _ => false
  end.

(** [MessageType(x)]: the member whose value equals [x], else [ValueError]. *)
Definition MessageType_of (x : json) : result MessageType :=
  match filter (fun t => equals_int x (value t) = true) members with
  | t :: _ => Ok t
  | [] => Raise ValueError
  end.

Record Message := {
  msg_type : MessageType;
  data : json
}.

(** [d[key]] for a decoded JSON value [d] and a [str] key. *)
Definition getitem (d : json) (key : list N) : result json :=
  match d with
  | JObject ms =>
      match list_find (fun kv => fst kv = key) ms with
      | Some (_, kv) => Ok (snd kv)
      | None => Raise KeyError
      end
  | _ => Raise TypeError
  end.

(** [Message.serialize] *)
Definition serialize (self : Message) : result (list N) :=
  let msg_dict := JObject [(str "type", JInt (value (msg_type self)));
                           (str "data", data self)] in
  let json_str := dumps msg_dict in
  let* json_bytes := utf8_encode json_str in
  let length := N.of_nat (length json_bytes) in
  let* length_prefix := pack_u32 length in
  Ok (length_prefix ++ json_bytes).

(** [Message.deserialize] *)
Definition deserialize (bytes : list N) : result Message :=
  let* json_str := utf8_decode bytes in
  let* msg_dict := loads json_str in
  let* tag := getitem msg_dict (str "type") in
  let* msg_type := MessageType_of tag in
  let* msg_data := getitem msg_dict (str "data") in
  Ok {| msg_type := msg_type; data := msg_data |}.

(** [Message.read_message]: the message, the number of bytes consumed, and
    the socket after the read.  [None] would mean a receive loop ran out of
    fuel; it never does (see [ProtocolFacts.read_message_fuel]). *)
Definition read_message (sock : socket) : option (result (Message * N * socket)) :=
  match recv_loop 4 4 4 [] sock with
  | None => None
  | Some (Raise e) => Some (Raise e)
  | Some (Ok (length_bytes, sock1)) =>
      match unpack_u32 length_bytes with
      | Raise e => Some (Raise e)
      | Ok length =>
          match recv_loop (N.to_nat length) (N.to_nat length) 4096 [] sock1 with
          | None => None
          | Some (Raise e) => Some (Raise e)
          | Some (Ok (body, sock2)) =>
              Some (let* message := deserialize body in
                    Ok (message, (length + 4)%N, sock2))
          end
      end
  end.

End Protocol.

(** ** [src/utils/shared_memory.py] *)

Module SharedMemory.
Import Json Wire.

Definition HEADER_SIZE : nat := 16.
Definition MEMORY_SIZE : nat := 1024 * 64.

(** A freshly created segment is zero-filled. *)
Definition create : list N := repeat 0%N MEMORY_SIZE.

(** [buf[a:b] = bytes] on a memoryview: the slice is clipped to the buffer
    and must have the length of [bytes], else [ValueError]. *)
Definition slice_assign (buf : list N) (a b : nat) (bytes : list N) : result (list N) :=
  let b' := Nat.min b (length buf) in
  let a' := Nat.min a b' in
  if (length bytes =? b' - a')%nat then Ok (take a' buf ++ bytes ++ drop b' buf)
  else Raise ValueError.

(** [struct.pack('>dII', timestamp, num_bids, num_asks)], the timestamp given
    by its IEEE-754 bit pattern. *)
Definition pack_header (timestamp : N) (num_bids num_asks : nat) : result (list N) :=
  let* nb := pack_u32 (N.of_nat num_bids) in
  let* na := pack_u32 (N.of_nat num_asks) in
  Ok (pack_u64 timestamp ++ nb ++ na).

(** [struct.unpack('>dII', header_bytes)] *)
Definition unpack_header (bs : list N) : result (N * N * N) :=
  if (length bs =? 16)%nat then
    let* ts := unpack_u64 (take 8 bs) in
    let* nb := unpack_u32 (take 4 (drop 8 bs)) in
    let* na := unpack_u32 (drop 12 bs) in
    Ok (ts, nb, na)
  else Raise StructError.

(** [timestamp == 0] on the bit pattern of a double: plus or minus zero. *)
Definition is_zero_double (bits : N) : bool :=
  (bits =? 0)%N || (bits =? 9223372036854775808)%N.

Definition level_list (levels : list (json * json)) : json :=
  JArray (map (fun l => JArray [fst l; snd l]) levels).

(** [OrderBookSharedMemory.write_orderbook] on the segment [buf];
    [timestamp] is the bit pattern of the reading of [time.time()].  The
    segment after the call is returned whether or not the call raised. *)
Definition write_orderbook (buf : list N) (bids asks : list (json * json))
    (timestamp : N) : list N * result unit :=
  let num_bids := length bids in
  let num_asks := length asks in
  let data := JObject [(str "bids", level_list bids); (str "asks", level_list asks)] in
  match utf8_encode (dumps data) with
  | Raise e => (buf, Raise e)
  | Ok json_bytes =>
      if (MEMORY_SIZE - HEADER_SIZE <? length json_bytes)%nat then (buf, Raise ValueError)
      else
        match pack_header timestamp num_bids num_asks with
        | Raise e => (buf, Raise e)
        | Ok header =>
            match slice_assign buf 0 HEADER_SIZE header with
            | Raise e => (buf, Raise e)
            | Ok buf1 =>
                match slice_assign buf1 HEADER_SIZE (HEADER_SIZE + length json_bytes)
                        json_bytes with
                | Raise e => (buf1, Raise e)
                | Ok buf2 => (buf2, Ok tt)
                end
            end
        end
  end.

(** [bytes.index(b'\x00')] as a prefix: the bytes before the first zero, or
    all of them when there is none. *)
Fixpoint until_null (bs : list N) : list N :=
  match bs with
  | [] => []
  | b :: r => if (b =? 0)%N then [] else b :: until_null r
  end.

(** Iterating over a decoded JSON value: a list yields its items, a string
    its characters, a dict its keys; anything else is not iterable. *)
Definition py_iter (v : json) : result (list json) :=
  match v with
  | JArray items => Ok items
  | JString s => Ok (map (fun c => JString [c]) s)
  | JObject ms => Ok (map (fun kv => JString (fst kv)) ms)
  | _ => Raise TypeError
  end.

(** [price, size = item] *)
Definition unpack2 (item : json) : result (json * json) :=
  let* parts := py_iter item in
  match parts with
  | [a; b] => Ok (a, b)
  | _ => Raise ValueError
  end.

(** [[(price, size) for price, size in levels]] *)
Fixpoint unpack_levels (items : list json) : result (list (json * json)) :=
  match items with
  | [] => Ok []
  | item :: rest =>
      let* l := unpack2 item in
      let* ls := unpack_levels rest in
      Ok (l :: ls)
  end.

Record snapshot := {
  timestamp : N;
  bids : list (json * json);
  asks : list (json * json)
}.

(** [OrderBookSharedMemory.read_orderbook] *)
Definition read_orderbook (buf : list N) : result (option snapshot) :=
  let header_bytes := take HEADER_SIZE buf in
  let* header := unpack_header header_bytes in
  let timestamp := fst (fst header) in
  if is_zero_double timestamp then Ok None
  else
    let max_json_size := (MEMORY_SIZE - HEADER_SIZE)%nat in
    let json_bytes := take max_json_size (drop HEADER_SIZE buf) in
    let json_bytes := until_null json_bytes in
    match utf8_decode json_bytes with
    | Raise _ => Ok None
    | Ok text =>
        match loads text with
        | Raise _ => Ok None
        | Ok data =>
            let* b := Protocol.getitem data (str "bids") in
            let* bi := py_iter b in
            let* bids := unpack_levels bi in
            let* a := Protocol.getitem data (str "asks") in
            let* ai := py_iter a in
            let* asks := unpack_levels ai in
            Ok (Some {| timestamp := timestamp; bids := bids; asks := asks |})
        end
    end.

(** [OrderBookSharedMemory.get_best_bid_ask]: [None] when there is no
    snapshot or a side is empty, else the prices of the first bid and the
    first ask. *)
Definition get_best_bid_ask (buf : list N) : result (option (json * json)) :=
  let* orderbook := read_orderbook buf in
  match orderbook with
  | None => Ok None
  | Some ob =>
      match bids ob, asks ob with
      | (best_bid, _) :: _, (best_ask, _) :: _ => Ok (Some (best_bid, best_ask))
      | _, _ => Ok None
      end
  end.

End SharedMemory.

(** * Rounding to binary64 is monotone *)

Module FloatFacts.
Local Open Scope Z_scope.

(** *** Bit lengths *)

Lemma digits2_size (p : positive) : digits2_pos p = Pos.size p.
Proof. induction p as [p IH|p IH|]; cbn; congruence. Qed.

Lemma digits_bounds (p : positive) :
  2 ^ (Zpos (digits2_pos p) - 1) <= Zpos p < 2 ^ Zpos (digits2_pos p).
Proof.
  rewrite digits2_size. split.
  - pose proof (Pos.size_le p) as H.
    apply (Pos2Z.pos_le_pos) in H. rewrite Pos2Z.inj_pow in H.
    replace (Zpos (Pos.size p)) with (Z.succ (Zpos (Pos.size p) - 1)) in H by lia.
    rewrite Z.pow_succ_r in H by lia. change (Zpos p~0) with (2 * Zpos p) in H. lia.
  - pose proof (Pos.size_gt p) as H.
    apply (Pos2Z.pos_lt_pos) in H. rewrite Pos2Z.inj_pow in H. exact H.
Qed.

(** The bit length is determined by the binade. *)
Lemma digits_unique (p : positive) (d : Z) :
  2 ^ (d - 1) <= Zpos p < 2 ^ d → Zpos (digits2_pos p) = d.
Proof.
  intros [Hlo Hhi]. pose proof (digits_bounds p) as [Hlo' Hhi'].
  assert (0 < d) as Hd.
  { destruct (Z.ltb_spec 0 d); [assumption|].
    assert (2 ^ d <= 2 ^ 0) by (destruct (Z.ltb_spec d 0);
      [rewrite Z.pow_neg_r by lia; cbn; lia|apply Z.pow_le_mono_r; lia]).
    cbn in *. lia. }
  destruct (Z.lt_trichotomy (Zpos (digits2_pos p)) d) as [Hlt|[Heq|Hgt]]; [|exact Heq|].
  - assert (2 ^ Zpos (digits2_pos p) <= 2 ^ (d - 1)) by (apply Z.pow_le_mono_r; lia). lia.
  - assert (2 ^ d <= 2 ^ (Zpos (digits2_pos p) - 1)) by (apply Z.pow_le_mono_r; lia). lia.
Qed.

Lemma pos_iter_xO (m d : positive) : Zpos (Pos.iter xO m d) = Zpos m * 2 ^ Zpos d.
Proof.
  induction d as [|d IH] using Pos.peano_ind.
  - cbn [Pos.iter]. change (Zpos m~0) with (2 * Zpos m). change (2 ^ 1) with 2. lia.
  - rewrite Pos.iter_succ. change (Zpos (Pos.iter xO m d)~0) with (2 * Zpos (Pos.iter xO m d)).
    rewrite IH, Pos2Z.inj_succ, Z.pow_succ_r by lia. lia.
Qed.

(** *** Shifting right with a round bit and a sticky bit *)

Lemma shr_1_spec (m : Z) (r s : bool) :
  0 <= m →
  shr_1 {| shr_m := m; shr_r := r; shr_s := s |}
  = {| shr_m := Z.div2 m; shr_r := Z.odd m; shr_s := r || s |}.
Proof. destruct m as [|[p|p|]|p]; intros Hm; try reflexivity; lia. Qed.

Lemma iter_pos_nat {A} (f : A → A) (p : positive) (x : A) :
  SpecFloat.iter_pos f p x = Nat.iter (Pos.to_nat p) f x.
Proof.
  revert x. induction p as [p IH|p IH|]; intros x; cbn [SpecFloat.iter_pos].
  - rewrite !IH, Pos2Nat.inj_xI.
    replace (S (2 * Pos.to_nat p))%nat with (Pos.to_nat p + (Pos.to_nat p + 1))%nat by lia.
    rewrite !Nat.iter_add. reflexivity.
  - rewrite !IH, Pos2Nat.inj_xO.
    replace (2 * Pos.to_nat p)%nat with (Pos.to_nat p + Pos.to_nat p)%nat by lia.
    rewrite Nat.iter_add. reflexivity.
  - reflexivity.
Qed.

(** The record after [k] shifts of [m]. *)
Definition shifted (m : Z) (k : nat) : shr_record :=
  match k with
  | O => {| shr_m := m; shr_r := false; shr_s := false |}
  | S j => {| shr_m := m / 2 ^ Z.of_nat k;
              shr_r := Z.odd (m / 2 ^ Z.of_nat j);
              shr_s := negb (m mod 2 ^ Z.of_nat j =? 0) |}
  end.

Lemma shifted_step (m : Z) (k : nat) :
  0 <= m → shr_1 (shifted m k) = shifted m (S k).
Proof.
  intros Hm. destruct k as [|j].
  - cbn [shifted]. rewrite shr_1_spec by exact Hm.
    change (Z.of_nat 1) with 1. change (Z.of_nat 0) with 0.
    rewrite Z.pow_1_r, Z.pow_0_r, Z.div_1_r, Z.mod_1_r, Z.div2_div. reflexivity.
  - cbn [shifted]. set (a := Z.of_nat j).
    assert (0 <= a) as Ha by (unfold a; lia).
    replace (Z.of_nat (S (S j))) with (a + 1 + 1) by (unfold a; lia).
    replace (Z.of_nat (S j)) with (a + 1) by (unfold a; lia).
    assert (0 < 2 ^ a) as Hpa by (apply Z.pow_pos_nonneg; lia).
    assert (0 < 2 ^ (a + 1)) as Hpa1 by (apply Z.pow_pos_nonneg; lia).
    rewrite shr_1_spec by (apply Z.div_pos; lia).
    f_equal.
    + rewrite Z.div2_div, Z.div_div by lia.
      rewrite (Z.pow_add_r 2 (a + 1) 1) by lia. reflexivity.
    + (* the sticky bit *)
      rewrite (Z.pow_add_r 2 a 1) by lia. change (2 ^ 1) with 2.
      rewrite Z.rem_mul_r by lia.
      assert (0 <= m mod 2 ^ a < 2 ^ a) as Hr by (apply Z.mod_pos_bound; lia).
      rewrite Zodd_mod.
      assert (0 <= (m / 2 ^ a) mod 2 < 2) as Hb by (apply Z.mod_pos_bound; lia).
      destruct (Z.eqb_spec ((m / 2 ^ a) mod 2) 1) as [H1|H1];
        destruct (Z.eqb_spec (m mod 2 ^ a) 0) as [H0|H0];
        destruct (Z.eqb_spec (m mod 2 ^ a + 2 ^ a * ((m / 2 ^ a) mod 2)) 0) as [H2|H2];
        cbn; try reflexivity; nia.
Qed.

Lemma iter_shr_1 (m : Z) (k : nat) :
  0 <= m → Nat.iter k shr_1 (shifted m 0) = shifted m k.
Proof.
  intros Hm. induction k as [|k IH]; [reflexivity|].
  cbn [Nat.iter nat_rect]. rewrite <- shifted_step by exact Hm. f_equal. exact IH.
Qed.

(** *** Rounding an integer quotient to nearest, ties to even *)

(** [m / 2^k] rounded to the nearest integer. *)
Definition rne (m k : Z) : Z :=
  let q := m / 2 ^ k in
  match 2 * (m mod 2 ^ k) ?= 2 ^ k with
  | Lt => q
  | Eq => if Z.even q then q else q + 1
  | Gt => q + 1
  end.

Lemma rne_0 (m : Z) : rne m 0 = m.
Proof. unfold rne. rewrite Z.pow_0_r, Z.mod_1_r, Z.div_1_r. reflexivity. Qed.

Lemma round_shifted (m : Z) (k : nat) :
  0 <= m →
  round_nearest_even (shr_m (shifted m k)) (loc_of_shr_record (shifted m k))
  = rne m (Z.of_nat k).
Proof.
  intros Hm. destruct k as [|j]; [symmetry; apply rne_0|].
  cbn [shifted shr_m]. unfold rne. set (a := Z.of_nat j).
  assert (0 <= a) as Ha by (unfold a; lia).
  replace (Z.of_nat (S j)) with (a + 1) by (unfold a; lia).
  assert (0 < 2 ^ a) as Hpa by (apply Z.pow_pos_nonneg; lia).
  rewrite (Z.pow_add_r 2 a 1) by lia. change (2 ^ 1) with 2.
  rewrite Z.rem_mul_r by lia.
  assert (0 <= m mod 2 ^ a < 2 ^ a) as Hr by (apply Z.mod_pos_bound; lia).
  rewrite Zodd_mod.
  assert (0 <= (m / 2 ^ a) mod 2 < 2) as Hb by (apply Z.mod_pos_bound; lia).
  destruct (Z.eqb_spec ((m / 2 ^ a) mod 2) 1) as [H1|H1];
    destruct (Z.eqb_spec (m mod 2 ^ a) 0) as [H0|H0];
    cbn [negb loc_of_shr_record round_nearest_even];
    destruct (Z.compare_spec (2 * (m mod 2 ^ a + 2 ^ a * ((m / 2 ^ a) mod 2))) (2 ^ a * 2));
    try reflexivity; nia.
Qed.

Lemma rne_bounds (m k : Z) :
  0 <= k → m / 2 ^ k <= rne m k <= m / 2 ^ k + 1.
Proof.
  intros Hk. unfold rne.
  destruct (Z.compare_spec (2 * (m mod 2 ^ k)) (2 ^ k)); [destruct (Z.even _)| |]; lia.
Qed.

Lemma rne_exact (a k : Z) : 0 <= k → rne (a * 2 ^ k) k = a.
Proof.
  intros Hk. assert (0 < 2 ^ k) by (apply Z.pow_pos_nonneg; lia).
  unfold rne. rewrite Z.mod_mul, Z.div_mul by lia.
  destruct (Z.compare_spec (2 * 0) (2 ^ k)); [lia|reflexivity|lia].
Qed.

Lemma rne_mono (m1 m2 k : Z) : 0 <= k → m1 <= m2 → rne m1 k <= rne m2 k.
Proof.
  intros Hk Hm. assert (0 < 2 ^ k) as Hp by (apply Z.pow_pos_nonneg; lia).
  pose proof (Z.div_le_mono m1 m2 (2 ^ k) Hp Hm) as Hq.
  pose proof (rne_bounds m1 k Hk) as [_ Hu]. pose proof (rne_bounds m2 k Hk) as [Hl _].
  destruct (Z.eq_dec (m1 / 2 ^ k) (m2 / 2 ^ k)) as [Heq|Hne]; [|lia].
  assert (m1 mod 2 ^ k <= m2 mod 2 ^ k) as Hr.
  { pose proof (Z.div_mod m1 (2 ^ k) ltac:(lia)). pose proof (Z.div_mod m2 (2 ^ k) ltac:(lia)).
    rewrite Heq in *. lia. }
  unfold rne. rewrite Heq.
  destruct (Z.compare_spec (2 * (m1 mod 2 ^ k)) (2 ^ k));
    destruct (Z.compare_spec (2 * (m2 mod 2 ^ k)) (2 ^ k));
    destruct (Z.even (m2 / 2 ^ k)); lia.
Qed.

(** Scaling numerator and denominator by the same power of two. *)
Lemma rne_scale (m k j : Z) : 0 <= k → 0 <= j → rne (m * 2 ^ j) (k + j) = rne m k.
Proof.
  intros Hk Hj. assert (0 < 2 ^ k) by (apply Z.pow_pos_nonneg; lia).
  assert (0 < 2 ^ j) by (apply Z.pow_pos_nonneg; lia).
  unfold rne. rewrite Z.pow_add_r by lia.
  rewrite Z.div_mul_cancel_r by lia. rewrite Zmult_mod_distr_r.
  replace (2 * (m mod 2 ^ k * 2 ^ j)) with (2 * (m mod 2 ^ k) * 2 ^ j) by lia.
  rewrite <- Zmult_compare_compat_r by lia. reflexivity.
Qed.

Lemma rne_le (m k a : Z) : 0 <= k → m <= a * 2 ^ k → rne m k <= a.
Proof. intros Hk H. rewrite <- (rne_exact a k Hk). by apply rne_mono. Qed.

Lemma rne_ge (m k a : Z) : 0 <= k → a * 2 ^ k <= m → a <= rne m k.
Proof. intros Hk H. rewrite <- (rne_exact a k Hk). by apply rne_mono. Qed.

(** *** The rounding step of the binary64 operations *)

Local Abbreviation prec := FloatOps.prec (only parsing).
Local Abbreviation emax := FloatOps.emax (only parsing).

Definition fexp64 (e : Z) : Z := Z.max (e - 53) (-1074).

Lemma fexp_fexp64 (e : Z) : SpecFloat.fexp prec emax e = fexp64 e.
Proof. reflexivity. Qed.

Lemma shr_shifted (m e n : Z) :
  0 <= m →
  shr (shifted m 0) e n = (shifted m (Z.to_nat n), e + Z.max 0 n).
Proof.
  intros Hm. destruct n as [|p|p]; cbn [shr Z.to_nat].
  - rewrite Z.add_0_r. reflexivity.
  - rewrite iter_pos_nat, iter_shr_1 by exact Hm. f_equal; lia.
  - f_equal; lia.
Qed.

Lemma shr_m_shifted (m : Z) (k : nat) : shr_m (shifted m k) = m / 2 ^ Z.of_nat k.
Proof. destruct k; [cbn; by rewrite Z.div_1_r|reflexivity]. Qed.

(** Mantissa and exponent after the two shifts of [binary_round_aux]. *)
Definition round_aux (m e : Z) : Z * Z :=
  let n1 := Z.max 0 (fexp64 (Zdigits2 m + e) - e) in
  let q := rne m n1 in
  let e1 := e + n1 in
  let n2 := Z.max 0 (fexp64 (Zdigits2 q + e1) - e1) in
  (q / 2 ^ n2, e1 + n2).

Definition pack (s : bool) (qe : Z * Z) : spec_float :=
  match fst qe with
  | Z0 => S754_zero s
  | Zpos m => if snd qe <=? 971 then S754_finite s m (snd qe) else S754_infinity s
  | Zneg _ => S754_nan
  end.

Lemma binary_round_aux_spec (s : bool) (m e : Z) :
  0 <= m → binary_round_aux prec emax s m e loc_Exact = pack s (round_aux m e).
Proof.
  intros Hm. unfold binary_round_aux, shr_fexp, round_aux.
  rewrite !fexp_fexp64.
  change (shr_record_of_loc m loc_Exact) with (shifted m 0).
  rewrite shr_shifted by exact Hm. rewrite round_shifted by exact Hm.
  set (n1 := fexp64 (Zdigits2 m + e) - e).
  replace (Z.of_nat (Z.to_nat n1)) with (Z.max 0 n1) by lia.
  set (q := rne m (Z.max 0 n1)).
  assert (0 <= q) as Hq.
  { unfold q. pose proof (rne_bounds m (Z.max 0 n1) ltac:(lia)) as [Hl _].
    assert (0 <= m / 2 ^ Z.max 0 n1) by (apply Z.div_pos; [lia|apply Z.pow_pos_nonneg; lia]).
    lia. }
  rewrite fexp_fexp64.
  change (shr_record_of_loc q loc_Exact) with (shifted q 0).
  rewrite shr_shifted by exact Hq. rewrite shr_m_shifted.
  set (n2 := fexp64 (Zdigits2 q + (e + Z.max 0 n1)) - (e + Z.max 0 n1)).
  replace (Z.of_nat (Z.to_nat n2)) with (Z.max 0 n2) by lia.
  unfold pack. cbn [fst snd]. reflexivity.
Qed.

Lemma Zdigits2_bounds (m : Z) :
  0 < m → 2 ^ (Zdigits2 m - 1) <= m < 2 ^ Zdigits2 m.
Proof. destruct m as [|p|p]; intros Hm; try lia. apply digits_bounds. Qed.

Lemma Zdigits2_unique (m d : Z) : 2 ^ (d - 1) <= m < 2 ^ d → 0 < m → Zdigits2 m = d.
Proof. destruct m as [|p|p]; intros Hb Hm; try lia. by apply digits_unique. Qed.

Lemma pow2_pos (a : Z) : 0 <= a → 0 < 2 ^ a.
Proof. intros. apply Z.pow_pos_nonneg; lia. Qed.

Lemma pow2_le (a b : Z) : 0 <= a <= b → 2 ^ a <= 2 ^ b.
Proof. intros. apply Z.pow_le_mono_r; lia. Qed.

Lemma pow2_lt (a b : Z) : 0 <= a < b → 2 ^ a < 2 ^ b.
Proof. intros. apply Z.pow_lt_mono_r; lia. Qed.

Lemma pow2_add (a b : Z) : 0 <= a → 0 <= b → 2 ^ (a + b) = 2 ^ a * 2 ^ b.
Proof. intros. apply Z.pow_add_r; lia. Qed.

(** A mantissa and an exponent in canonical form: at most 53 bits, the
    exponent at least -1074, and 53 bits exactly above the least exponent. *)
Definition canon (q e : Z) : Prop :=
  0 <= q < 2 ^ 53 ∧ -1074 <= e ∧ (-1074 < e → 2 ^ 52 <= q).

(** The outcome of the rounding step for a positive mantissa whose
    exponent is not above the target exponent. *)
Lemma round_aux_spec (m e : Z) :
  0 < m →
  let E := fexp64 (Zdigits2 m + e) in
  e <= E →
  ∃ q' E', round_aux m e = (q', E')
           ∧ canon q' E'
           ∧ E <= E'
           ∧ q' * 2 ^ (E' - E) = rne m (E - e).
Proof.
  intros Hm E He. pose proof (Zdigits2_bounds m Hm) as [Hlo Hhi].
  set (d := Zdigits2 m) in *.
  assert (0 < d) as Hd.
  { destruct m as [|p|p]; try lia. unfold d. cbn. lia. }
  assert (-1074 <= E ∧ d + e - 53 <= E ∧ (-1074 < E → E = d + e - 53)) as (HE1 & HE2 & HE3)
    by (unfold E, fexp64; lia).
  set (q := rne m (E - e)).
  assert (0 <= q <= 2 ^ 53) as Hq.
  { split.
    - apply (rne_ge m (E - e) 0); lia.
    - apply (Z.le_trans _ (2 ^ Z.max 0 (d + e - E))); [|apply pow2_le; lia].
      apply rne_le; [lia|]. rewrite <- pow2_add by lia.
      apply (Z.le_trans _ (2 ^ d)); [lia|apply pow2_le; lia]. }
  assert (-1074 < E → 2 ^ 52 <= q) as Hnormal.
  { intros Hn. apply rne_ge; [lia|]. rewrite <- pow2_add by lia.
    replace (52 + (E - e)) with (d - 1) by lia. exact Hlo. }
  unfold round_aux. fold d. fold E.
  replace (Z.max 0 (E - e)) with (E - e) by lia. fold q.
  replace (e + (E - e)) with E by lia.
  destruct (Z.eq_dec q (2 ^ 53)) as [Hcarry|Hnocarry].
  - exists (2 ^ 52), (E + 1).
    assert (Zdigits2 q = 54) as -> by (apply Zdigits2_unique; rewrite Hcarry; cbn; lia).
    replace (Z.max 0 (fexp64 (54 + E) - E)) with 1 by (unfold fexp64; lia).
    rewrite Hcarry. split; [reflexivity|]. split; [unfold canon; cbn; lia|].
    split; [lia|]. replace (E + 1 - E) with 1 by lia. reflexivity.
  - exists q, E.
    assert (Z.max 0 (fexp64 (Zdigits2 q + E) - E) = 0) as ->.
    { destruct (Z.eq_dec q 0) as [->|Hq0]; [cbn; unfold fexp64; lia|].
      pose proof (Zdigits2_bounds q ltac:(lia)) as [Hql _].
      assert (Zdigits2 q <= 53).
      { destruct (Z.le_gt_cases (Zdigits2 q) 53) as [|Hgt]; [assumption|].
        assert (2 ^ 53 <= 2 ^ (Zdigits2 q - 1)) by (apply pow2_le; lia). lia. }
      unfold fexp64. lia. }
    rewrite Z.pow_0_r, Z.div_1_r, Z.add_0_r, Z.sub_diag, Z.pow_0_r, Z.mul_1_r.
    split; [reflexivity|]. split; [unfold canon; lia|]. split; [lia|reflexivity].
Qed.

Lemma rne_fexp_bounds (m e : Z) :
  0 < m →
  let d := Zdigits2 m in
  let E := fexp64 (d + e) in
  e <= E →
  0 <= rne m (E - e) <= 2 ^ Z.max 0 (d + e - E)
  ∧ (-1074 < E → 2 ^ 52 <= rne m (E - e)).
Proof.
  intros Hm d E He. pose proof (Zdigits2_bounds m Hm) as [Hlo Hhi]. fold d in Hlo, Hhi.
  assert (0 < d) as Hd.
  { destruct m as [|p|p]; try lia. unfold d. cbn. lia. }
  assert (-1074 <= E ∧ d + e - 53 <= E ∧ (-1074 < E → E = d + e - 53)) as (HE1 & HE2 & HE3)
    by (unfold E, fexp64; lia).
  split; [split|].
  - apply (rne_ge m (E - e) 0); lia.
  - apply rne_le; [lia|]. rewrite <- pow2_add by lia.
    apply (Z.le_trans _ (2 ^ d)); [lia|apply pow2_le; lia].
  - intros Hn. apply rne_ge; [lia|]. rewrite <- pow2_add by lia.
    replace (52 + (E - e)) with (d - 1) by lia. exact Hlo.
Qed.

(** The rounding step is monotone in the value [m * 2^e]. *)
Lemma rne_fexp_mono (K m1 e1 m2 e2 : Z) :
  0 < m1 → 0 < m2 → - K <= e1 → - K <= e2 →
  let E1 := fexp64 (Zdigits2 m1 + e1) in
  let E2 := fexp64 (Zdigits2 m2 + e2) in
  e1 <= E1 → e2 <= E2 →
  m1 * 2 ^ (e1 + K) <= m2 * 2 ^ (e2 + K) →
  rne m1 (E1 - e1) * 2 ^ (E1 + K) <= rne m2 (E2 - e2) * 2 ^ (E2 + K).
Proof.
  intros Hm1 Hm2 HK1 HK2 E1 E2 He1 He2 Hle.
  pose proof (Zdigits2_bounds m1 Hm1) as [Hlo1 Hhi1].
  pose proof (Zdigits2_bounds m2 Hm2) as [Hlo2 Hhi2].
  pose proof (rne_fexp_bounds m1 e1 Hm1 He1) as [[Hr1l Hr1u] Hr1n].
  pose proof (rne_fexp_bounds m2 e2 Hm2 He2) as [[Hr2l Hr2u] Hr2n].
  fold E1 in Hr1l, Hr1u, Hr1n. fold E2 in Hr2l, Hr2u, Hr2n.
  set (d1 := Zdigits2 m1) in *. set (d2 := Zdigits2 m2) in *.
  assert (0 < d1) as Hd1 by (destruct m1 as [|p|p]; try lia; unfold d1; cbn; lia).
  assert (0 < d2) as Hd2 by (destruct m2 as [|p|p]; try lia; unfold d2; cbn; lia).
  assert (-1074 <= E1 ∧ d1 + e1 - 53 <= E1 ∧ (-1074 < E1 → E1 = d1 + e1 - 53))
    as (HE1a & HE1b & HE1c) by (unfold E1, fexp64; lia).
  assert (-1074 <= E2 ∧ d2 + e2 - 53 <= E2 ∧ (-1074 < E2 → E2 = d2 + e2 - 53))
    as (HE2a & HE2b & HE2c) by (unfold E2, fexp64; lia).
  set (r1 := rne m1 (E1 - e1)) in *. set (r2 := rne m2 (E2 - e2)) in *.
  destruct (Z.lt_trichotomy E1 E2) as [Hlt|[Heq|Hgt]].
  - (* different binades: a power of two lies between the two results *)
    specialize (Hr2n ltac:(lia)). specialize (HE2c ltac:(lia)).
    apply (Z.le_trans _ (2 ^ Z.max 0 (d1 + e1 - E1) * 2 ^ (E1 + K))).
    { apply Z.mul_le_mono_nonneg_r; [apply Z.lt_le_incl, pow2_pos; lia|exact Hr1u]. }
    apply (Z.le_trans _ (2 ^ 52 * 2 ^ (E2 + K))).
    2:{ apply Z.mul_le_mono_nonneg_r; [apply Z.lt_le_incl, pow2_pos; lia|exact Hr2n]. }
    rewrite <- !pow2_add by lia. apply pow2_le. lia.
  - (* the same target exponent: the integer rounding is monotone *)
    rewrite <- Heq. apply Z.mul_le_mono_nonneg_r; [apply Z.lt_le_incl, pow2_pos; lia|].
    set (mn := Z.min e1 e2).
    unfold r1, r2. rewrite <- Heq.
    rewrite <- (rne_scale m1 (E1 - e1) (e1 - mn)) by lia.
    rewrite <- (rne_scale m2 (E1 - e2) (e2 - mn)) by lia.
    replace (E1 - e1 + (e1 - mn)) with (E1 - mn) by lia.
    replace (E1 - e2 + (e2 - mn)) with (E1 - mn) by lia.
    apply rne_mono; [lia|].
    apply (Z.mul_le_mono_pos_r _ _ (2 ^ (mn + K))); [apply pow2_pos; lia|].
    rewrite <- !Z.mul_assoc, <- !pow2_add by lia.
    replace (e1 - mn + (mn + K)) with (e1 + K) by lia.
    replace (e2 - mn + (mn + K)) with (e2 + K) by lia. exact Hle.
  - (* impossible: the larger value would have the smaller magnitude *)
    specialize (HE1c ltac:(lia)).
    assert (2 ^ (d2 + e2 + K) <= 2 ^ (d1 - 1 + (e1 + K))) as Hp by (apply pow2_le; lia).
    rewrite (pow2_add (d1 - 1) (e1 + K)) in Hp by lia.
    assert (m2 * 2 ^ (e2 + K) < 2 ^ d2 * 2 ^ (e2 + K)) as Hm2u
      by (apply Z.mul_lt_mono_pos_r; [apply pow2_pos; lia|exact Hhi2]).
    rewrite <- (pow2_add d2 (e2 + K)) in Hm2u by lia.
    assert (2 ^ (d1 - 1) * 2 ^ (e1 + K) <= m1 * 2 ^ (e1 + K)) as Hm1l
      by (apply Z.mul_le_mono_nonneg_r; [apply Z.lt_le_incl, pow2_pos; lia|exact Hlo1]).
    replace (d2 + (e2 + K)) with (d2 + e2 + K) in Hm2u by lia. lia.
Qed.

(** *** Comparing canonical results *)

Local Abbreviation SFleb := (SpecFloat.SFleb) (only parsing).

Lemma canon_order (K q1 E1 q2 E2 : Z) :
  1074 <= K → canon q1 E1 → canon q2 E2 → 0 < q1 →
  q1 * 2 ^ (E1 + K) <= q2 * 2 ^ (E2 + K) →
  0 < q2 ∧ (E1 < E2 ∨ (E1 = E2 ∧ q1 <= q2)).
Proof.
  intros HK ([Hq1l Hq1u] & HE1 & Hn1) ([Hq2l Hq2u] & HE2 & Hn2) Hpos Hle.
  assert (0 < 2 ^ (E1 + K)) as Hp1 by (apply pow2_pos; lia).
  assert (0 < 2 ^ (E2 + K)) as Hp2 by (apply pow2_pos; lia).
  assert (0 < q2) as Hq2 by nia.
  split; [exact Hq2|].
  destruct (Z.lt_trichotomy E1 E2) as [Hlt|[Heq|Hgt]]; [by left| |].
  - right. split; [exact Heq|]. subst E2. nia.
  - exfalso. specialize (Hn1 ltac:(lia)).
    assert (2 ^ (53 + (E2 + K)) <= 2 ^ (52 + (E1 + K))) as Hp by (apply pow2_le; lia).
    rewrite (pow2_add 53), (pow2_add 52) in Hp by lia.
    assert (q2 * 2 ^ (E2 + K) < 2 ^ 53 * 2 ^ (E2 + K)) by (apply Z.mul_lt_mono_pos_r; lia).
    assert (2 ^ 52 * 2 ^ (E1 + K) <= q1 * 2 ^ (E1 + K))
      by (apply Z.mul_le_mono_nonneg_r; lia).
    lia.
Qed.

Lemma pack_leb (K q1 E1 q2 E2 : Z) :
  1074 <= K → canon q1 E1 → canon q2 E2 →
  q1 * 2 ^ (E1 + K) <= q2 * 2 ^ (E2 + K) →
  SFleb (pack false (q1, E1)) (pack false (q2, E2)) = true
  ∧ SFleb (pack true (q2, E2)) (pack true (q1, E1)) = true.
Proof.
  intros HK Hc1 Hc2 Hle. pose proof Hc1 as ([Hq1l Hq1u] & _). pose proof Hc2 as ([Hq2l Hq2u] & _).
  unfold pack. cbn [fst snd].
  destruct q1 as [|p1|p1]; [|
    destruct (canon_order K (Zpos p1) E1 q2 E2 HK Hc1 Hc2 ltac:(lia) Hle) as [Hq2 Hord]|lia].
  - destruct q2 as [|p2|p2]; [done| |lia]. destruct (E2 <=? 971); done.
  - destruct q2 as [|p2|p2]; try lia.
    destruct (Z.leb_spec E1 971) as [H1|H1]; destruct (Z.leb_spec E2 971) as [H2|H2];
      try done; try lia.
    unfold SpecFloat.SFleb, SFcompare.
    destruct Hord as [Hlt|[-> Hq]].
    + rewrite (proj2 (Z.compare_lt_iff E1 E2) Hlt), (proj2 (Z.compare_gt_iff E2 E1) Hlt). done.
    + rewrite Z.compare_refl.
      change (Pos.compare_cont Eq p1 p2) with (Pos.compare p1 p2).
      change (Pos.compare_cont Eq p2 p1) with (Pos.compare p2 p1).
      rewrite (Pos.compare_antisym p1 p2).
      destruct (Pos.compare_spec p1 p2); try done; lia.
Qed.

(** *** [binary_round] and [binary_normalize] *)

(** The alignment [binary_round] makes before the rounding step. *)
Definition aligned (m e : Z) : Z * Z :=
  let E := fexp64 (Zdigits2 m + e) in
  if E <? e then (m * 2 ^ (e - E), E) else (m, e).

Lemma Zdigits2_shift (m j : Z) : 0 < m → 0 <= j → Zdigits2 (m * 2 ^ j) = Zdigits2 m + j.
Proof.
  intros Hm Hj. pose proof (Zdigits2_bounds m Hm) as [Hlo Hhi].
  assert (0 < Zdigits2 m) by (destruct m as [|p|p]; try lia; cbn; lia).
  assert (0 < 2 ^ j) by (apply pow2_pos; lia).
  apply Zdigits2_unique; [|nia].
  replace (Zdigits2 m + j - 1) with (Zdigits2 m - 1 + j) by lia.
  rewrite !pow2_add by lia. nia.
Qed.

Lemma aligned_spec (K m e : Z) :
  0 < m → 1074 <= K → - K <= e →
  ∃ m' e', aligned m e = (m', e')
           ∧ 0 < m' ∧ - K <= e' ∧ e' <= fexp64 (Zdigits2 m' + e')
           ∧ m' * 2 ^ (e' + K) = m * 2 ^ (e + K).
Proof.
  intros Hm HK He. unfold aligned. set (E := fexp64 (Zdigits2 m + e)).
  assert (-1074 <= E) by (unfold E, fexp64; lia).
  destruct (Z.ltb_spec E e) as [Hlt|Hge].
  - exists (m * 2 ^ (e - E)), E.
    assert (0 < 2 ^ (e - E)) by (apply pow2_pos; lia).
    split; [reflexivity|]. split; [nia|]. split; [lia|]. split.
    + rewrite Zdigits2_shift by lia.
      replace (Zdigits2 m + (e - E) + E) with (Zdigits2 m + e) by lia. fold E. lia.
    + rewrite <- Z.mul_assoc, <- pow2_add by lia. do 2 f_equal. lia.
  - exists m, e. fold E. repeat split; try lia.
Qed.

Lemma binary_round_spec (s : bool) (m : positive) (e : Z) :
  binary_round prec emax s m e
  = pack s (round_aux (fst (aligned (Zpos m) e)) (snd (aligned (Zpos m) e))).
Proof.
  unfold binary_round, shl_align, aligned. rewrite fexp_fexp64.
  change (Zpos (digits2_pos m)) with (Zdigits2 (Zpos m)).
  set (E := fexp64 (Zdigits2 (Zpos m) + e)).
  destruct (Z.ltb_spec E e) as [Hlt|Hge].
  - destruct (E - e) as [|d|d] eqn:Hd; try lia.
    rewrite binary_round_aux_spec by lia. cbn [fst snd].
    rewrite pos_iter_xO. replace (e - E) with (Zpos d) by lia. reflexivity.
  - destruct (E - e) as [|d|d] eqn:Hd; try lia;
      rewrite binary_round_aux_spec by lia; reflexivity.
Qed.

(** The value of the rounded result, in units of [2^-K]. *)
Definition rval (K m e : Z) : Z :=
  let m' := fst (aligned m e) in
  let e' := snd (aligned m e) in
  let E := fexp64 (Zdigits2 m' + e') in
  rne m' (E - e') * 2 ^ (E + K).

Lemma binary_round_canon (K : Z) (s : bool) (m : positive) (e : Z) :
  1074 <= K → - K <= e →
  ∃ q E, binary_round prec emax s m e = pack s (q, E)
         ∧ canon q E
         ∧ q * 2 ^ (E + K) = rval K (Zpos m) e.
Proof.
  intros HK He. rewrite binary_round_spec. unfold rval.
  destruct (aligned_spec K (Zpos m) e ltac:(lia) HK He)
    as (m' & e' & -> & Hm' & He' & Hal & _).
  cbn [fst snd].
  destruct (round_aux_spec m' e' Hm' Hal) as (q & E & -> & Hcanon & HE & Hq).
  exists q, E. split; [reflexivity|]. split; [exact Hcanon|].
  set (E0 := fexp64 (Zdigits2 m' + e')) in *.
  assert (-1074 <= E0) by (unfold E0, fexp64; lia).
  rewrite <- Hq, <- Z.mul_assoc, <- pow2_add by lia. do 2 f_equal. lia.
Qed.

Lemma rval_mono (K m1 e1 m2 e2 : Z) :
  1074 <= K → 0 < m1 → 0 < m2 → - K <= e1 → - K <= e2 →
  m1 * 2 ^ (e1 + K) <= m2 * 2 ^ (e2 + K) →
  rval K m1 e1 <= rval K m2 e2.
Proof.
  intros HK Hm1 Hm2 He1 He2 Hle. unfold rval.
  destruct (aligned_spec K m1 e1 Hm1 HK He1) as (m1' & e1' & -> & Hm1' & He1' & Hal1 & Hv1).
  destruct (aligned_spec K m2 e2 Hm2 HK He2) as (m2' & e2' & -> & Hm2' & He2' & Hal2 & Hv2).
  cbn [fst snd]. apply rne_fexp_mono; try assumption. rewrite Hv1, Hv2. exact Hle.
Qed.

Lemma rval_nonneg (K m e : Z) : 1074 <= K → 0 < m → - K <= e → 0 <= rval K m e.
Proof.
  intros HK Hm He. unfold rval.
  destruct (aligned_spec K m e Hm HK He) as (m' & e' & -> & Hm' & He' & Hal & _).
  cbn [fst snd]. pose proof (rne_fexp_bounds m' e' Hm' Hal) as [[Hl _] _].
  set (E0 := fexp64 (Zdigits2 m' + e')) in *.
  assert (-1074 <= E0) by (unfold E0, fexp64; lia).
  apply Z.mul_nonneg_nonneg; [exact Hl|apply Z.lt_le_incl, pow2_pos; lia].
Qed.

(** [pack] of a canonical pair against a zero. *)
Lemma pack_sign_leb (q1 E1 q2 E2 : Z) :
  canon q1 E1 → canon q2 E2 →
  SFleb (pack true (q1, E1)) (pack false (q2, E2)) = true
  ∧ SFleb (pack true (q1, E1)) (S754_zero false) = true
  ∧ SFleb (S754_zero false) (pack false (q2, E2)) = true.
Proof.
  intros ([Hq1 _] & _) ([Hq2 _] & _). unfold pack. cbn [fst snd].
  destruct q1 as [|p1|p1]; try lia; destruct q2 as [|p2|p2]; try lia;
    try destruct (E1 <=? 971); try destruct (E2 <=? 971); done.
Qed.

(** *** Rounding an exact value is monotone *)

Theorem binary_normalize_mono (K z1 e1 z2 e2 : Z) :
  1074 <= K → - K <= e1 → - K <= e2 →
  z1 * 2 ^ (e1 + K) <= z2 * 2 ^ (e2 + K) →
  SFleb (binary_normalize prec emax z1 e1 false) (binary_normalize prec emax z2 e2 false)
  = true.
Proof.
  intros HK He1 He2 Hle.
  assert (0 < 2 ^ (e1 + K)) as Hp1 by (apply pow2_pos; lia).
  assert (0 < 2 ^ (e2 + K)) as Hp2 by (apply pow2_pos; lia).
  destruct z1 as [|m1|m1]; destruct z2 as [|m2|m2]; cbn [binary_normalize]; try nia.
  - reflexivity.
  - destruct (binary_round_canon K false m2 e2 HK He2) as (q2 & E2 & -> & Hc2 & _).
    apply (pack_sign_leb 0 (-1074) q2 E2); [unfold canon; cbn; lia|exact Hc2].
  - destruct (binary_round_canon K false m1 e1 HK He1) as (q1 & E1 & -> & Hc1 & Hv1).
    destruct (binary_round_canon K false m2 e2 HK He2) as (q2 & E2 & -> & Hc2 & Hv2).
    apply (pack_leb K q1 E1 q2 E2 HK Hc1 Hc2). rewrite Hv1, Hv2.
    apply rval_mono; try lia.
  - destruct (binary_round_canon K true m1 e1 HK He1) as (q1 & E1 & -> & Hc1 & _).
    apply (pack_sign_leb q1 E1 0 (-1074)); [exact Hc1|unfold canon; cbn; lia].
  - destruct (binary_round_canon K true m1 e1 HK He1) as (q1 & E1 & -> & Hc1 & _).
    destruct (binary_round_canon K false m2 e2 HK He2) as (q2 & E2 & -> & Hc2 & _).
    apply (pack_sign_leb q1 E1 q2 E2 Hc1 Hc2).
  - destruct (binary_round_canon K true m1 e1 HK He1) as (q1 & E1 & -> & Hc1 & Hv1).
    destruct (binary_round_canon K true m2 e2 HK He2) as (q2 & E2 & -> & Hc2 & Hv2).
    apply (pack_leb K q2 E2 q1 E1 HK Hc2 Hc1). rewrite Hv1, Hv2.
    apply rval_mono; try lia.
Qed.

(** *** Values of binary64 numbers *)

(** The value of a zero or a finite number in units of [2^-K]. *)
Definition ival (K : Z) (x : spec_float) : Z :=
  match x with
  | S754_finite s m e => cond_Zopp s (Zpos m) * 2 ^ (e + K)
  | _ => 0
  end.

Definition is_fin (x : spec_float) : bool :=
  match x with
  | S754_zero _ | S754_finite _ _ _ => true
  | _ => false
  end.

(** The two zeros compare alike. *)
Definition unsign0 (x : spec_float) : spec_float :=
  match x with
  | S754_zero _ => S754_zero false
  | _ => x
  end.

Lemma SFleb_unsign0 (x y : spec_float) : SFleb x y = SFleb (unsign0 x) (unsign0 y).
Proof. destruct x, y; reflexivity. Qed.

Lemma valid_canon (s : bool) (m : positive) (e : Z) :
  SpecFloat.valid_binary prec emax (S754_finite s m e) = true →
  canon (Zpos m) e ∧ e <= 971 ∧ fexp64 (Zdigits2 (Zpos m) + e) = e.
Proof.
  cbn [SpecFloat.valid_binary]. unfold bounded, canonical_mantissa. rewrite fexp_fexp64.
  intros H. apply andb_true_iff in H as [Hc Hb].
  apply Z.eqb_eq in Hc. apply Z.leb_le in Hb. change (FloatOps.emax - FloatOps.prec) with 971 in Hb.
  change (Zpos (digits2_pos m)) with (Zdigits2 (Zpos m)) in Hc.
  pose proof (Zdigits2_bounds (Zpos m) ltac:(lia)) as [Hlo Hhi].
  set (d := Zdigits2 (Zpos m)) in *.
  assert (0 < d) by (unfold d; cbn; lia).
  assert (d <= 53) as Hd by (unfold fexp64 in Hc; lia).
  split; [|split; [exact Hb|exact Hc]]. unfold canon. split; [|split].
  - split; [lia|]. apply (Z.lt_le_trans _ (2 ^ d)); [exact Hhi|apply pow2_le; lia].
  - unfold fexp64 in Hc. lia.
  - intros Hn. assert (d = 53) as Hd53 by (unfold fexp64 in Hc; lia).
    rewrite Hd53 in Hlo. exact Hlo.
Qed.

(** Rounding a representable number returns it. *)
Lemma binary_round_valid (s : bool) (m : positive) (e : Z) :
  SpecFloat.valid_binary prec emax (S754_finite s m e) = true →
  binary_round prec emax s m e = S754_finite s m e.
Proof.
  intros Hv. apply valid_canon in Hv as (_ & Hb & Hc).
  rewrite binary_round_spec. unfold aligned. rewrite Hc, Z.ltb_irrefl. cbn [fst snd].
  unfold round_aux. rewrite Hc, Z.sub_diag. cbn [Z.max]. rewrite rne_0, Z.add_0_r, Hc.
  rewrite Z.sub_diag. cbn [Z.max]. rewrite Z.pow_0_r, Z.div_1_r, Z.add_0_r.
  unfold pack. cbn [fst snd]. apply Z.leb_le in Hb. rewrite Hb. reflexivity.
Qed.

(** Comparison of representable numbers is comparison of their values. *)
Lemma SFleb_ival (K : Z) (x y : spec_float) :
  1074 <= K →
  SpecFloat.valid_binary prec emax x = true → SpecFloat.valid_binary prec emax y = true →
  is_fin x = true → is_fin y = true →
  SFleb x y = true → ival K x <= ival K y.
Proof.
  intros HK Hvx Hvy Hfx Hfy.
  destruct x as [sx|sx| |sx mx ex]; try discriminate Hfx;
    destruct y as [sy|sy| |sy my ey]; try discriminate Hfy; cbn [ival].
  - lia.
  - apply valid_canon in Hvy as ((_ & Hey & _) & _).
    assert (0 < 2 ^ (ey + K)) by (apply pow2_pos; lia).
    destruct sy; cbn; [discriminate|nia].
  - apply valid_canon in Hvx as ((_ & Hex & _) & _).
    assert (0 < 2 ^ (ex + K)) by (apply pow2_pos; lia).
    destruct sx; cbn; [nia|discriminate].
  - apply valid_canon in Hvx as (Hcx & _). apply valid_canon in Hvy as (Hcy & _).
    pose proof Hcx as (_ & Hex & _). pose proof Hcy as (_ & Hey & _).
    assert (0 < 2 ^ (ex + K)) by (apply pow2_pos; lia).
    assert (0 < 2 ^ (ey + K)) by (apply pow2_pos; lia).
    assert (∀ (m1 : positive) e1 (m2 : positive) e2,
              canon (Zpos m1) e1 → canon (Zpos m2) e2 →
              match (e1 ?= e2) with
              | Lt => True
              | Eq => (m1 <= m2)%positive
              | Gt => False
              end →
              Zpos m1 * 2 ^ (e1 + K) <= Zpos m2 * 2 ^ (e2 + K)) as Hmag.
    { intros m1 e1 m2 e2 ([_ Hu1] & He1 & _) (_ & He2 & Hn2) Hcmp.
      destruct (Z.compare_spec e1 e2) as [->|Hlt|Hgt]; [| |contradiction].
      - apply Z.mul_le_mono_nonneg_r; [apply Z.lt_le_incl, pow2_pos; lia|lia].
      - specialize (Hn2 ltac:(lia)).
        apply (Z.le_trans _ (2 ^ 53 * 2 ^ (e1 + K)));
          [apply Z.mul_le_mono_nonneg_r; [apply Z.lt_le_incl, pow2_pos; lia|lia]|].
        apply (Z.le_trans _ (2 ^ 52 * 2 ^ (e2 + K)));
          [|apply Z.mul_le_mono_nonneg_r; [apply Z.lt_le_incl, pow2_pos; lia|lia]].
        rewrite <- !pow2_add by lia. apply pow2_le. lia. }
    unfold SpecFloat.SFleb, SFcompare.
    change (Pos.compare_cont Eq mx my) with (Pos.compare mx my).
    destruct sx, sy; cbn [cond_Zopp]; intros Hleb.
    + (* both negative *)
      assert (Zpos my * 2 ^ (ey + K) <= Zpos mx * 2 ^ (ex + K)); [|lia].
      apply Hmag; [exact Hcy|exact Hcx|].
      rewrite (Z.compare_antisym ex ey).
      destruct (ex ?= ey); cbn [CompOpp] in *; try done.
      destruct (Pos.compare_spec mx my); cbn [CompOpp] in *; try done; lia.
    + nia.
    + discriminate Hleb.
    + apply Hmag; [exact Hcx|exact Hcy|].
      destruct (ex ?= ey); try done.
      destruct (Pos.compare_spec mx my); try done; lia.
Qed.

(** *** Products and sums are roundings of the exact result *)

Lemma cond_Zopp_mul (s t : bool) (a b : Z) :
  cond_Zopp s a * cond_Zopp t b = cond_Zopp (xorb s t) (a * b).
Proof. destruct s, t; cbn; lia. Qed.

Lemma binary_normalize_signed (s : bool) (m : positive) (e : Z) :
  binary_normalize prec emax (cond_Zopp s (Zpos m)) e false = binary_round prec emax s m e.
Proof. destruct s; reflexivity. Qed.

Lemma Zdigits2_mul (m1 m2 : Z) :
  0 < m1 → 0 < m2 → Zdigits2 m1 + Zdigits2 m2 - 1 <= Zdigits2 (m1 * m2).
Proof.
  intros H1 H2.
  pose proof (Zdigits2_bounds m1 H1) as [Hl1 _]. pose proof (Zdigits2_bounds m2 H2) as [Hl2 _].
  pose proof (Zdigits2_bounds (m1 * m2) ltac:(nia)) as [_ Hu].
  assert (0 < Zdigits2 m1) by (destruct m1 as [|p|p]; try lia; cbn; lia).
  assert (0 < Zdigits2 m2) by (destruct m2 as [|p|p]; try lia; cbn; lia).
  assert (0 < m1 * m2) as H12 by nia.
  assert (0 < Zdigits2 (m1 * m2)) by (destruct (m1 * m2) as [|p|p]; try lia; cbn; lia).
  destruct (Z.le_gt_cases (Zdigits2 m1 + Zdigits2 m2 - 1) (Zdigits2 (m1 * m2))) as [|Hgt];
    [assumption|exfalso].
  assert (2 ^ Zdigits2 (m1 * m2) <= 2 ^ (Zdigits2 m1 - 1 + (Zdigits2 m2 - 1)))
    as Hp by (apply pow2_le; lia).
  rewrite pow2_add in Hp by lia.
  assert (0 < 2 ^ (Zdigits2 m1 - 1)) by (apply pow2_pos; lia).
  assert (0 < 2 ^ (Zdigits2 m2 - 1)) by (apply pow2_pos; lia).
  nia.
Qed.

Lemma SFmul_exact (x y : spec_float) :
  SpecFloat.valid_binary prec emax x = true → SpecFloat.valid_binary prec emax y = true →
  is_fin x = true → is_fin y = true →
  ∃ z e, -2148 <= e
         ∧ z * 2 ^ (e + 2148) = ival 1074 x * ival 1074 y
         ∧ unsign0 (SFmul prec emax x y) = unsign0 (binary_normalize prec emax z e false).
Proof.
  intros Hvx Hvy Hfx Hfy.
  destruct x as [sx|sx| |sx mx ex]; try discriminate Hfx;
    destruct y as [sy|sy| |sy my ey]; try discriminate Hfy;
    try (exists 0, 0; cbn [ival]; split; [lia|]; split; [lia|reflexivity]).
  apply valid_canon in Hvx as ((_ & Hex & _) & _ & Hcx).
  apply valid_canon in Hvy as ((_ & Hey & _) & _ & Hcy).
  exists (cond_Zopp (xorb sx sy) (Zpos (mx * my))), (ex + ey).
  split; [lia|]. split.
  - cbn [ival].
    replace (ex + ey + 2148) with (ex + 1074 + (ey + 1074)) by lia.
    rewrite pow2_add by lia. rewrite Pos2Z.inj_mul.
    destruct sx, sy; cbn [cond_Zopp xorb]; ring.
  - f_equal. rewrite binary_normalize_signed. cbn [SFmul].
    rewrite binary_round_aux_spec by lia. rewrite binary_round_spec.
    unfold aligned.
    pose proof (Zdigits2_mul (Zpos mx) (Zpos my) ltac:(lia) ltac:(lia)) as Hd.
    rewrite <- Pos2Z.inj_mul in Hd.
    assert (0 < Zdigits2 (Zpos mx)) by (cbn; lia).
    assert (0 < Zdigits2 (Zpos my)) by (cbn; lia).
    destruct (Z.ltb_spec (fexp64 (Zdigits2 (Zpos (mx * my)) + (ex + ey))) (ex + ey)) as [Hlt|_];
      [|reflexivity].
    unfold fexp64 in Hcx, Hcy, Hlt. lia.
Qed.

Lemma shl_align_fst (m : positive) (e e' : Z) :
  e' <= e → Zpos (fst (shl_align m e e')) = Zpos m * 2 ^ (e - e').
Proof.
  intros He. unfold shl_align. destruct (e' - e) as [|d|d] eqn:Hd; try lia; cbn [fst].
  - replace (e - e') with 0 by lia. lia.
  - rewrite pos_iter_xO. do 2 f_equal. lia.
Qed.

Lemma SFadd_exact (x y : spec_float) :
  SpecFloat.valid_binary prec emax x = true → SpecFloat.valid_binary prec emax y = true →
  is_fin x = true → is_fin y = true →
  ∃ z e, -1074 <= e
         ∧ z * 2 ^ (e + 1074) = ival 1074 x + ival 1074 y
         ∧ unsign0 (SFadd prec emax x y) = unsign0 (binary_normalize prec emax z e false).
Proof.
  intros Hvx Hvy Hfx Hfy.
  destruct x as [sx|sx| |sx mx ex]; try discriminate Hfx;
    destruct y as [sy|sy| |sy my ey]; try discriminate Hfy.
  - exists 0, 0. cbn [ival]. split; [lia|]. split; [lia|]. by destruct sx, sy.
  - pose proof Hvy as ((_ & Hey & _) & _)%valid_canon.
    exists (cond_Zopp sy (Zpos my)), ey. split; [lia|]. split; [cbn [ival]; lia|].
    rewrite binary_normalize_signed, binary_round_valid by exact Hvy. reflexivity.
  - pose proof Hvx as ((_ & Hex & _) & _)%valid_canon.
    exists (cond_Zopp sx (Zpos mx)), ex. split; [lia|]. split; [cbn [ival]; lia|].
    rewrite binary_normalize_signed, binary_round_valid by exact Hvx. reflexivity.
  - pose proof Hvx as ((_ & Hex & _) & _)%valid_canon.
    pose proof Hvy as ((_ & Hey & _) & _)%valid_canon.
    eexists _, (Z.min ex ey). split; [lia|]. split; [|reflexivity].
    rewrite !shl_align_fst by lia. cbn [ival].
    rewrite Z.mul_add_distr_r.
    assert (∀ s m e, Z.min ex ey <= e →
              cond_Zopp s (m * 2 ^ (e - Z.min ex ey)) * 2 ^ (Z.min ex ey + 1074)
              = cond_Zopp s m * 2 ^ (e + 1074)) as Hs.
    { intros s m e He.
      replace (e + 1074) with (e - Z.min ex ey + (Z.min ex ey + 1074)) by lia.
      rewrite (pow2_add (e - Z.min ex ey) (Z.min ex ey + 1074)) by lia.
      destruct s; cbn [cond_Zopp]; ring. }
    rewrite !Hs by lia. reflexivity.
Qed.

(** *** Primitive floats *)

(** A float that is a zero or a finite number. *)
Definition finite (x : float) : Prop := is_fin (Prim2SF x) = true.

(** Its value in units of [2^-1074]: every finite binary64 number is a
    whole number of these. *)
Definition fval (x : float) : Z := ival 1074 (Prim2SF x).

Lemma leb_fval (x y : float) :
  finite x → finite y → (x <=? y)%float = true → fval x <= fval y.
Proof.
  intros Hx Hy. rewrite FloatAxioms.leb_spec.
  apply (SFleb_ival 1074); try assumption; try lia; apply FloatAxioms.Prim2SF_valid.
Qed.

(** A float between two finite floats is finite. *)
Lemma finite_between (a x b : float) :
  finite a → finite b → (a <=? x)%float = true → (x <=? b)%float = true → finite x.
Proof.
  unfold finite. rewrite !FloatAxioms.leb_spec.
  destruct (Prim2SF a) as [sa|sa| |sa ma ea]; try discriminate;
    destruct (Prim2SF b) as [sb|sb| |sb mb eb]; try discriminate;
    destruct (Prim2SF x) as [sx|[|]| |sx mx ex]; try done; cbn; try done;
    destruct sa; try done; destruct sb; done.
Qed.

(** Addition is monotone in the exact sum of the operands. *)
Theorem add_mono (a b c d : float) :
  finite a → finite b → finite c → finite d →
  fval a + fval b <= fval c + fval d →
  (a + b <=? c + d)%float = true.
Proof.
  intros Ha Hb Hc Hd Hle.
  rewrite FloatAxioms.leb_spec, !FloatAxioms.add_spec. unfold FloatAxioms.SF64add.
  destruct (SFadd_exact (Prim2SF a) (Prim2SF b)) as (z1 & e1 & He1 & Hz1 & Hr1);
    try assumption; try apply FloatAxioms.Prim2SF_valid.
  destruct (SFadd_exact (Prim2SF c) (Prim2SF d)) as (z2 & e2 & He2 & Hz2 & Hr2);
    try assumption; try apply FloatAxioms.Prim2SF_valid.
  rewrite SFleb_unsign0, Hr1, Hr2, <- SFleb_unsign0.
  apply (binary_normalize_mono 1074); try lia. rewrite Hz1, Hz2. exact Hle.
Qed.

(** Multiplication is monotone in the exact product of the operands. *)
Theorem mul_mono (a b c d : float) :
  finite a → finite b → finite c → finite d →
  fval a * fval b <= fval c * fval d →
  (a * b <=? c * d)%float = true.
Proof.
  intros Ha Hb Hc Hd Hle.
  rewrite FloatAxioms.leb_spec, !FloatAxioms.mul_spec. unfold FloatAxioms.SF64mul.
  destruct (SFmul_exact (Prim2SF a) (Prim2SF b)) as (z1 & e1 & He1 & Hz1 & Hr1);
    try assumption; try apply FloatAxioms.Prim2SF_valid.
  destruct (SFmul_exact (Prim2SF c) (Prim2SF d)) as (z2 & e2 & He2 & Hz2 & Hr2);
    try assumption; try apply FloatAxioms.Prim2SF_valid.
  rewrite SFleb_unsign0, Hr1, Hr2, <- SFleb_unsign0.
  apply (binary_normalize_mono 2148); try lia. rewrite Hz1, Hz2. exact Hle.
Qed.

End FloatFacts.

(** * Facts about the signal engine *)

Module StrategyFacts.
Import PyFloat Strategy.

(** *** Comparisons on binary64 *)

Lemma ltb_zero_not_eqb_zero (p : float) :
  (0 <? p)%float = true → (p =? 0)%float = false.
Proof.
  rewrite FloatAxioms.ltb_spec, FloatAxioms.eqb_spec.
  change (Prim2SF 0) with (S754_zero false).
  destruct (Prim2SF p) as [s|s| |s m e]; try destruct s; cbn; congruence.
Qed.

Lemma ltb_above_not_below (c x : float) (m : positive) (e : Z) :
  Prim2SF c = S754_finite false m e →
  (c <? x)%float = true → (x <? - c)%float = false.
Proof.
  intros Hc. rewrite !FloatAxioms.ltb_spec, FloatAxioms.opp_spec, Hc.
  destruct (Prim2SF x) as [s|s| |s m' e']; try destruct s; cbn; congruence.
Qed.

Lemma ltb_irrefl (x : float) : (x <? x)%float = false.
Proof.
  rewrite FloatAxioms.ltb_spec. unfold SFltb, SFcompare.
  destruct (Prim2SF x) as [s|s| |s m e]; try destruct s; try reflexivity;
    rewrite Z.compare_refl, Pos.compare_cont_refl; reflexivity.
Qed.

(** *** The state invariant: every recorded price is positive *)

Definition prices_positive (self : state) : Prop :=
  ∀ sym p, last_prices self !! sym = Some p → (0 <? p)%float = true.

Lemma generate_signal_last_prices self symbol price now sg self' :
  generate_signal self symbol price now = Ok (sg, self') →
  last_prices self' = last_prices self ∧ sentiment_scores self' = sentiment_scores self.
Proof.
  unfold generate_signal.
  destruct (last_prices self !! symbol) as [lp|]; [|intros [= _ <-]; done].
  destruct (py_truediv _ _) as [pc|]; cbn; [|done].
  repeat case_match; intros [= _ <-]; done.
Qed.

Lemma process_market_data_last_prices self data ev :
  let self' := fst (process_market_data self data ev) in
  last_prices self' = last_prices self
  ∨ ∃ p, md_last_price data = Some p ∧ (0 <? p)%float = true
         ∧ last_prices self' = <[md_symbol data := p]> (last_prices self).
Proof.
  unfold process_market_data.
  destruct (0 <? default 0 (md_last_price data))%float eqn:Hpos; [|left; done].
  destruct (md_last_price data) as [p|] eqn:Hp; [|discriminate Hpos].
  cbn [default from_option id] in *.
  destruct (generate_signal _ _ _ _) as [[[sg|] self1]|] eqn:Hg; [| |left; done].
  - apply generate_signal_last_prices in Hg as [Hl _].
    destruct (create_order _ _ _ _); cbn; [|left; done].
    right. exists p. repeat split; try done.
    destruct (send_ok ev); cbn; by rewrite Hl.
  - apply generate_signal_last_prices in Hg as [Hl _].
    right. exists p. cbn. by rewrite Hl.
Qed.

Lemma step_prices_positive self e :
  prices_positive self → prices_positive (step self e).
Proof.
  intros Hinv. destruct e as [data ev|data]; cbn.
  - destruct (process_market_data_last_prices self data ev) as [Heq|(p & _ & Hpos & Heq)];
      intros sym q; rewrite Heq; [apply Hinv|].
    destruct (decide (md_symbol data = sym)) as [->|Hne].
    + rewrite lookup_insert_eq. by intros [= <-].
    + rewrite lookup_insert_ne by done. apply Hinv.
  - exact Hinv.
Qed.

Lemma run_prices_positive events self :
  prices_positive self → prices_positive (run self events).
Proof.
  revert self. induction events as [|e events IH]; intros self Hinv; [done|].
  apply IH, step_prices_positive, Hinv.
Qed.

Lemma init_prices_positive : prices_positive init.
Proof. intros sym p. cbn. by rewrite lookup_empty. Qed.

(** *** Market data: the gate *)

Definition fired (em : emitted) : option side := sig_action <$> em_signal em.

Definition clock_ok (ev : env) : Prop :=
  ∃ n, py_int (now_id ev * 1000000)%float = Ok n.

(** C5.  On a MarketData event with [last_price > 0], in any state the
    engine can reach: for a symbol with a recorded previous price the
    handler fires BUY exactly when [(price - prev) / prev > 0.005] and
    [sentiment > 0.3], SELL exactly when the change is [< -0.005] and the
    sentiment [< -0.3], nothing otherwise (the four comparisons are the
    strict float comparisons, so a value equal to a threshold never
    fires); for a symbol seen for the first time nothing fires; and in all
    these cases the recorded price of the symbol becomes [price]. *)
Theorem signal_gating (events : list event) (symbol : string) (price : float) (ev : env) :
  (0 <? price)%float = true →
  clock_ok ev →
  let self := run init events in
  let data := {| md_symbol := symbol; md_last_price := Some price |} in
  ∃ self' em,
    process_market_data self data ev = (self', Ok em)
    ∧ last_prices self' !! symbol = Some price
    ∧ match last_prices self !! symbol with
      | None => fired em = None
      | Some prev =>
          let change := ((price - prev) / prev)%float in
          let sentiment := sentiment_of self symbol in
          (fired em = Some BUY ↔
             (0.005 <? change)%float = true ∧ (0.3 <? sentiment)%float = true)
          ∧ (fired em = Some SELL ↔
             (change <? -0.005)%float = true ∧ (sentiment <? -0.3)%float = true)
          ∧ (fired em = None ↔
             ¬ ((0.005 <? change)%float = true ∧ (0.3 <? sentiment)%float = true)
             ∧ ¬ ((change <? -0.005)%float = true ∧ (sentiment <? -0.3)%float = true))
          ∧ (change = 0.005%float ∨ change = (-0.005)%float
             ∨ sentiment = 0.3%float ∨ sentiment = (-0.3)%float → fired em = None)
      end.
Proof.
  intros Hpos [n Hn] self data.
  pose proof (run_prices_positive events init init_prices_positive) as Hinv.
  fold self in Hinv. clearbody self. subst data.
  unfold process_market_data, generate_signal, fired.
  cbn [md_symbol md_last_price default from_option id].
  rewrite Hpos.
  destruct (last_prices self !! symbol) as [prev|] eqn:Hprev.
  2:{ eexists _, _. split; [reflexivity|]. split; [|reflexivity].
      cbn. apply lookup_insert_eq. }
  apply Hinv in Hprev. unfold py_truediv.
  rewrite (ltb_zero_not_eqb_zero _ Hprev). cbn [rbind].
  change Config.PRICE_CHANGE_THRESHOLD with 0.005%float.
  change Config.SENTIMENT_THRESHOLD with 0.3%float.
  change (PrimFloat.opp 0.005%float) with (-0.005)%float.
  change (PrimFloat.opp 0.3%float) with (-0.3)%float.
  remember ((price - prev) / prev)%float as change eqn:Hchange.
  remember (sentiment_of self symbol) as sentiment eqn:Hsent.
  cbn zeta.
  assert (Hex1 : (0.005 <? change)%float = true → (change <? -0.005)%float = false)
    by (apply (ltb_above_not_below 0.005 change 5764607523034235 (-60)); reflexivity).
  assert (Hex2 : (0.3 <? sentiment)%float = true → (sentiment <? -0.3)%float = false)
    by (apply (ltb_above_not_below 0.3 sentiment 5404319552844595 (-54)); reflexivity).
  unfold create_order. rewrite Hn. cbn [rbind].
  clear Hchange Hsent.
  destruct (0.005 <? change)%float eqn:E1, (0.3 <? sentiment)%float eqn:E2,
           (change <? -0.005)%float eqn:E3, (sentiment <? -0.3)%float eqn:E4;
    try (specialize (Hex1 eq_refl); discriminate Hex1);
    try (specialize (Hex2 eq_refl); discriminate Hex2);
    cbn [andb];
    (eexists _, _; split; [reflexivity|]; split;
     [destruct (send_ok ev); cbn; apply lookup_insert_eq|]);
    cbn; clear Hex1 Hex2;
    (split; [|split; [|split]]);
    try (split; [intros ?|intros [? ?]]; congruence);
    try (split; [intros _; split; reflexivity|reflexivity]);
    try (split; [intros _; split; intros [? ?]; congruence|reflexivity]);
    try (split; [discriminate|intros [? ?]; tauto]);
    try (intros _; reflexivity);
    intros [->|[->|[->| ->]]]; vm_compute in E1, E2, E3, E4; congruence.
Qed.

Definition sample_env : env :=
  {| now_signal := 1700000000.25; now_id := 1700000000.5; rand_qty := 42;
     now_order := 1700000000.75; send_ok := true |}.

Definition sample_history : list event :=
  [ MarketData {| md_symbol := "AAPL"; md_last_price := Some 100%float |} sample_env;
    NewsSentiment {| news_symbol := "AAPL"; news_score := 1%float |};
    NewsSentiment {| news_symbol := "AAPL"; news_score := 1%float |} ].

Lemma signal_gating_witness :
  ∃ self' em,
    process_market_data (run init sample_history)
      {| md_symbol := "AAPL"; md_last_price := Some 100.6%float |} sample_env
    = (self', Ok em)
    ∧ last_prices self' !! "AAPL" = Some 100.6%float
    ∧ fired em = Some BUY.
Proof.
  destruct (signal_gating sample_history "AAPL" 100.6%float sample_env)
    as (self' & em & Hrun & Hprice & Hgate).
  - reflexivity.
  - exists 1700000000500000%Z. reflexivity.
  - exists self', em. split; [exact Hrun|]. split; [exact Hprice|].
    vm_compute in Hgate. apply Hgate. split; reflexivity.
Defined.

(** *** News: the exponential moving average *)

(** C6.  A NewsSentiment event sets the sentiment of its symbol to
    [0.3 * score + 0.7 * previous], the previous value being [0.0] for a
    symbol never seen; it changes no other sentiment, no recorded price and
    neither counter (it produces no signal and no order: [process_news]
    has no socket and returns nothing).  From the initial state two
    scores of [1.0] give [0.3] and then [0.51]. *)
Theorem sentiment_ema (self : state) (symbol : string) (score : float) :
  let self' := process_news self {| news_symbol := symbol; news_score := score |} in
  sentiment_scores self' !! symbol
    = Some (0.3 * score + 0.7 * sentiment_of self symbol)%float
  ∧ (∀ other, other ≠ symbol →
       sentiment_scores self' !! other = sentiment_scores self !! other)
  ∧ last_prices self' = last_prices self
  ∧ signal_count self' = signal_count self
  ∧ order_count self' = order_count self
  ∧ sentiment_of init symbol = 0%float
  ∧ (let s1 := process_news init {| news_symbol := symbol; news_score := 1 |} in
     let s2 := process_news s1 {| news_symbol := symbol; news_score := 1 |} in
     sentiment_of s1 symbol = 0.3%float ∧ sentiment_of s2 symbol = 0.51%float).
Proof.
  cbn zeta. unfold process_news, set_sentiment, sentiment_of. cbn.
  change (1 - 0.3)%float with 0.7%float.
  repeat split.
  - apply lookup_insert_eq.
  - intros other Hne. by apply lookup_insert_ne.
  - by rewrite !lookup_insert_eq.
  - by rewrite !lookup_insert_eq.
Qed.

(** *** Order identifiers *)

Lemma str_of_int_inj (a b : Z) : str_of_int a = str_of_int b → a = b.
Proof.
  unfold str_of_int. intros Heq.
  assert (Hnn : ∀ z, Z.to_int z ≠ Decimal.Pos Decimal.Nil ∧ Z.to_int z ≠ Decimal.Neg Decimal.Nil).
  { intros [|p|p]; cbn; split; try discriminate;
      intros [= H]; by apply Unsigned.to_uint_nonnil in H. }
  pose proof (NilZero.isi (Z.to_int a) (proj1 (Hnn a)) (proj2 (Hnn a))) as Ha.
  pose proof (NilZero.isi (Z.to_int b) (proj1 (Hnn b)) (proj2 (Hnn b))) as Hb.
  rewrite Heq, Hb in Ha. injection Ha as Ha. symmetry. by apply DecimalZ.to_int_inj.
Qed.

Lemma append_inj_r (p a b : string) : p +:+ a = p +:+ b → a = b.
Proof. induction p as [|c p IH]; cbn; [done|]. intros [= H]. by apply IH. Qed.

(** C9, as the code has it.  The identifier of an order is the text
    [ORD_] followed by the integer [int(t * 1000000)], where [t] is the
    clock reading and the product is the binary64 one: two orders carry the
    same identifier exactly when that integer is the same at the two
    calls.  Nothing else of the order enters the identifier. *)
Theorem order_id_by_microsecond (sg1 sg2 : signal) (t1 t2 u1 u2 : float) (q1 q2 k1 k2 : Z) :
  py_int (t1 * 1000000)%float = Ok k1 →
  py_int (t2 * 1000000)%float = Ok k2 →
  ∃ o1 o2,
    create_order sg1 t1 q1 u1 = Ok o1
    ∧ create_order sg2 t2 q2 u2 = Ok o2
    ∧ (order_id o1 = order_id o2 ↔ k1 = k2).
Proof.
  intros H1 H2. unfold create_order. rewrite H1, H2. cbn [rbind].
  eexists _, _. split; [reflexivity|]. split; [reflexivity|]. cbn [order_id].
  split.
  - intros Heq. by apply str_of_int_inj, (append_inj_r "ORD_").
  - by intros ->.
Qed.

Definition sample_signal (sym : string) (a : side) (p : float) : signal :=
  {| sig_symbol := sym; sig_action := a; sig_price := p;
     sig_price_change := 0.006; sig_sentiment := 0.5;
     sig_timestamp := 1700000000 |}.

Lemma order_id_by_microsecond_witness :
  ∃ o1 o2,
    create_order (sample_signal "AAPL" BUY 100.6) 1.5 10 1.5 = Ok o1
    ∧ create_order (sample_signal "MSFT" SELL 99) 2.5 20 2.5 = Ok o2
    ∧ (order_id o1 = order_id o2 ↔ 1500000%Z = 2500000%Z).
Proof.
  apply (order_id_by_microsecond _ _ 1.5 2.5 1.5 2.5 10 20 1500000 2500000);
    reflexivity.
Defined.

(** C9, as stated, fails: two different orders (another symbol, side, price
    and quantity) created at the clock readings [1.0000001] and
    [1.0000002] carry the same identifier. *)
Lemma order_id_collision :
  ∃ o1 o2,
    create_order (sample_signal "AAPL" BUY 100.6) 1.0000001 10 1.0000001 = Ok o1
    ∧ create_order (sample_signal "MSFT" SELL 99) 1.0000002 20 1.0000002 = Ok o2
    ∧ o1 ≠ o2
    ∧ order_id o1 = order_id o2.
Proof.
  eexists _, _. split; [reflexivity|]. split; [reflexivity|].
  split; [discriminate|reflexivity].
Qed.

(** *** What the handlers leave alone *)

(** Market data never touches the sentiment map, whether the handler
    returns or raises. *)
Theorem market_data_keeps_sentiment (self : state) (data : market_data) (ev : env) :
  sentiment_scores (fst (process_market_data self data ev)) = sentiment_scores self.
Proof.
  unfold process_market_data.
  destruct (0 <? default 0 (md_last_price data))%float; [|reflexivity].
  destruct (generate_signal _ _ _ _) as [[[sg|] self1]|] eqn:Hg; [| |reflexivity].
  - apply generate_signal_last_prices in Hg as [_ Hs].
    destruct (create_order _ _ _ _); cbn [fst]; [|exact Hs].
    destruct (send_ok ev); exact Hs.
  - apply generate_signal_last_prices in Hg as [_ Hs]. exact Hs.
Qed.

(** News changes the sentiment of its own symbol and nothing else: the
    other symbols, the recorded prices and the two counters stay. *)
Theorem news_changes_one_sentiment (self : state) (data : news) (sym : string) :
  (sym ≠ news_symbol data →
   sentiment_of (process_news self data) sym = sentiment_of self sym)
  ∧ last_prices (process_news self data) = last_prices self
  ∧ signal_count (process_news self data) = signal_count self
  ∧ order_count (process_news self data) = order_count self.
Proof.
  split; [|done]. intros Hne. unfold sentiment_of, process_news, set_sentiment.
  cbn [sentiment_scores]. rewrite lookup_insert_ne by done. reflexivity.
Qed.

Lemma news_changes_one_sentiment_witness :
  sentiment_of (process_news init {| news_symbol := "AAPL"; news_score := 1 |}) "MSFT"
  = 0%float.
Proof.
  destruct (news_changes_one_sentiment init {| news_symbol := "AAPL"; news_score := 1 |}
              "MSFT") as [H _].
  rewrite H; [reflexivity|discriminate].
Defined.

(** *** The counters *)

Definition counters_ok (self : state) : Prop :=
  (0 ≤ order_count self ≤ signal_count self)%Z.

Lemma generate_signal_counters self symbol price now sg self' :
  generate_signal self symbol price now = Ok (sg, self') →
  order_count self' = order_count self
  ∧ signal_count self' = (signal_count self + match sg with Some _ => 1 | None => 0 end)%Z.
Proof.
  unfold generate_signal.
  destruct (last_prices self !! symbol) as [lp|];
    [|intros Heq; inversion Heq; subst; cbn; lia].
  destruct (py_truediv _ _) as [pc|]; cbn [rbind]; [|done].
  repeat case_match; intros Heq; inversion Heq; subst; cbn; lia.
Qed.

Lemma step_counters_ok (self : state) (e : event) :
  counters_ok self → counters_ok (step self e).
Proof.
  unfold counters_ok. intros Hinv. destruct e as [data ev|data]; cbn [step]; [|exact Hinv].
  unfold process_market_data.
  destruct (0 <? default 0 (md_last_price data))%float; [|exact Hinv].
  destruct (generate_signal _ _ _ _) as [[[sg|] self1]|] eqn:Hg; [| |exact Hinv];
    apply generate_signal_counters in Hg as [Ho Hs].
  - destruct (create_order _ _ _ _); cbn [fst]; [|lia].
    destruct (send_ok ev); cbn; lia.
  - cbn. lia.
Qed.

(** However the events fall, the engine never counts more orders than
    signals: an order is counted only after a signal was, in the same
    call, and only when [sendall] went through. *)
Theorem orders_never_exceed_signals (events : list event) :
  (0 ≤ order_count (run init events) ≤ signal_count (run init events))%Z.
Proof.
  assert (∀ self, counters_ok self → counters_ok (run self events)) as Hrun.
  { induction events as [|e events IH]; intros self Hinv; [exact Hinv|].
    apply IH, step_counters_ok, Hinv. }
  apply Hrun. unfold counters_ok. cbn. lia.
Qed.

(** *** No division by zero *)



(** *** The sentiment stays in the unit interval *)

Definition in_unit (x : float) : Prop :=
  (-1 <=? x)%float = true ∧ (x <=? 1)%float = true.

Lemma in_unit_finite (x : float) : in_unit x → FloatFacts.finite x.
Proof.
  intros [Hlo Hhi]. by apply (FloatFacts.finite_between (-1) x 1).
Qed.

(** Scaling by a weight [w >= 0] keeps [-w <= w * x <= w] for [x] in the
    unit interval: the products [w * -1] and [w * 1] are exact. *)
Lemma scale_in_unit (w x : float) :
  FloatFacts.finite w → (0 <=? w)%float = true → in_unit x →
  (w * -1 <=? w * x)%float = true ∧ (w * x <=? w * 1)%float = true.
Proof.
  intros Hw Hpos Hx. pose proof (in_unit_finite x Hx) as Hfx. destruct Hx as [Hlo Hhi].
  assert (0 <= FloatFacts.fval w)%Z as Hw0.
  { by apply (FloatFacts.leb_fval 0 w). }
  apply FloatFacts.leb_fval in Hlo; [|done|done].
  apply FloatFacts.leb_fval in Hhi; [|done|done].
  split; apply FloatFacts.mul_mono; try done; by apply Z.mul_le_mono_nonneg_l.
Qed.

(** The update of [process_news] keeps the unit interval. *)
Lemma ema_in_unit (score old : float) :
  in_unit score → in_unit old → in_unit (0.3 * score + (1 - 0.3) * old)%float.
Proof.
  intros Hs Ho. change (1 - 0.3)%float with 0.7%float.
  destruct (scale_in_unit 0.3 score) as [Hal Hau]; [done|done|exact Hs|].
  destruct (scale_in_unit 0.7 old) as [Hbl Hbu]; [done|done|exact Ho|].
  change (0.3 * -1)%float with (-0.3)%float in Hal.
  change (0.3 * 1)%float with 0.3%float in Hau.
  change (0.7 * -1)%float with (-0.7)%float in Hbl.
  change (0.7 * 1)%float with 0.7%float in Hbu.
  assert (FloatFacts.finite (0.3 * score)%float) as Hfa
    by (by apply (FloatFacts.finite_between (-0.3) _ 0.3)).
  assert (FloatFacts.finite (0.7 * old)%float) as Hfb
    by (by apply (FloatFacts.finite_between (-0.7) _ 0.7)).
  apply FloatFacts.leb_fval in Hal, Hau, Hbl, Hbu; try done.
  split.
  - change (-1)%float with (-0.3 + -0.7)%float.
    apply FloatFacts.add_mono; try done. lia.
  - change 1%float with (0.3 + 0.7)%float.
    apply FloatFacts.add_mono; try done. lia.
Qed.

Definition sentiments_in_unit (self : state) : Prop :=
  ∀ sym x, sentiment_scores self !! sym = Some x → in_unit x.

Lemma sentiment_of_in_unit (self : state) (sym : string) :
  sentiments_in_unit self → in_unit (sentiment_of self sym).
Proof.
  intros Hinv. unfold sentiment_of.
  destruct (sentiment_scores self !! sym) as [x|] eqn:Hx; [by apply (Hinv sym)|].
  split; reflexivity.
Qed.

Definition score_in_unit (e : event) : Prop :=
  match e with
  | NewsSentiment data => in_unit (news_score data)
  | MarketData _ _ => True
  end.

Lemma step_sentiments_in_unit (self : state) (e : event) :
  score_in_unit e → sentiments_in_unit self → sentiments_in_unit (step self e).
Proof.
  intros He Hinv. destruct e as [data ev|data]; cbn [step].
  - intros sym x.
    assert (sentiment_scores (fst (process_market_data self data ev))
            = sentiment_scores self) as ->; [|apply Hinv].
    unfold process_market_data.
    destruct (0 <? default 0 (md_last_price data))%float; [|reflexivity].
    destruct (generate_signal _ _ _ _) as [[[sg|] self1]|] eqn:Hg; [| |reflexivity];
      apply generate_signal_last_prices in Hg as [_ Hs]; [|exact Hs].
    destruct (create_order _ _ _ _); cbn [fst]; [|exact Hs].
    destruct (send_ok ev); exact Hs.
  - intros sym x. unfold process_news, set_sentiment. cbn [sentiment_scores].
    destruct (decide (news_symbol data = sym)) as [->|Hne].
    + rewrite lookup_insert_eq. intros [= <-].
      apply ema_in_unit; [exact He|by apply sentiment_of_in_unit].
    + rewrite lookup_insert_ne by done. apply Hinv.
Qed.

(** C10.  If every NewsSentiment score processed so far lies in [-1, 1],
    every sentiment value the engine holds lies in [-1, 1]: the map starts
    empty (a symbol never seen reads as [0.0]), the update
    [0.3 * score + 0.7 * old] in binary64 keeps the interval, and market
    data leaves the map alone. *)
Theorem sentiment_in_unit (events : list event) (symbol : string) :
  Forall score_in_unit events →
  in_unit (sentiment_of (run init events) symbol)
  ∧ sentiment_of init symbol = 0%float
  ∧ ∀ x, sentiment_scores (run init events) !! symbol = Some x → in_unit x.
Proof.
  intros Hall.
  assert (sentiments_in_unit (run init events)) as Hinv.
  { assert (∀ self, sentiments_in_unit self → sentiments_in_unit (run self events)) as Hrun.
    { induction Hall as [|e events He _ IH]; intros self Hself; [exact Hself|].
      apply IH, step_sentiments_in_unit; assumption. }
    apply Hrun. intros sym x. cbn. by rewrite lookup_empty. }
  split; [by apply sentiment_of_in_unit|]. split; [reflexivity|]. apply Hinv.
Qed.

Lemma sentiment_in_unit_witness :
  in_unit (sentiment_of (run init sample_history) "AAPL").
Proof.
  destruct (sentiment_in_unit sample_history "AAPL") as [H _]; [|exact H].
  repeat (apply List.Forall_cons; [first [exact I|split; reflexivity]|]).
  apply List.Forall_nil.
Defined.

End StrategyFacts.

(** * Facts about the execution simulator *)

Module OrderManagerFacts.
Import PyFloat Strategy OrderManager.



(** *** The order book of the manager *)

Definition tallied (self : state) : Prop :=
  total_orders self = Z.of_nat (length (orders self))
  ∧ total_executed self = Z.of_nat (length (executed_trades self))
  ∧ length (executed_trades self) ≤ length (orders self).

Lemma process_order_tallied (self : state) (o : order) (slippage now_id now_ts : float) :
  tallied self → tallied (fst (process_order self o slippage now_id now_ts)).
Proof.
  unfold tallied. intros (Ho & He & Hle). unfold process_order.
  destruct (execute_order o slippage now_id now_ts) as [ex|e];
    [destruct (float_of_int (ord_quantity o)) as [q|e]|];
    cbn [fst orders executed_trades total_orders total_executed];
    rewrite ?length_app; cbn [length]; lia.
Qed.

(** For one client that sends well-formed orders (every field of the
    order dictionary present, a float price, an integer quantity), handled
    one after another: the two counters are the lengths of the two lists,
    the orders are tracked in arrival order, and no more trades are
    executed than orders were received, also when an execution raises
    ([OverflowError] or [ValueError] from a non-finite clock reading,
    [OverflowError] from a quantity beyond the float range). *)
Theorem handle_orders_tallied (arrivals : list arrival) :
  let self := handle_orders init arrivals in
  total_orders self = Z.of_nat (length arrivals)
  ∧ orders self = map arr_order arrivals
  ∧ total_executed self = Z.of_nat (length (executed_trades self))
  ∧ (total_executed self ≤ total_orders self)%Z.
Proof.
  assert (∀ self, tallied self →
            tallied (handle_orders self arrivals)
            ∧ orders (handle_orders self arrivals) = orders self ++ map arr_order arrivals)
    as Hrun.
  { induction arrivals as [|a arrivals IH]; intros self Hinv.
    - split; [exact Hinv|]. cbn. by rewrite app_nil_r.
    - cbn [handle_orders fold_left].
      destruct (IH _ (process_order_tallied self (arr_order a) (arr_slippage a)
                        (arr_now_id a) (arr_now_ts a) Hinv)) as [Ht Ho].
      split; [exact Ht|]. unfold handle_orders in Ho. rewrite Ho. cbn [map].
      change (arr_order a :: map arr_order arrivals)
        with ([arr_order a] ++ map arr_order arrivals).
      rewrite app_assoc. f_equal.
      unfold process_order.
      destruct (execute_order _ _ _ _) as [ex|e];
        [destruct (float_of_int _) as [q|e]|]; reflexivity. }
  destruct (Hrun init) as [(Ho & He & Hle) Hlist].
  { unfold tallied. cbn. lia. }
  cbn zeta. cbn [init orders app] in Hlist. rewrite Hlist in Ho, Hle.
  rewrite length_map in Ho, Hle. repeat split; [exact Ho|exact Hlist|exact He|lia].
Qed.





(** *** The execution price *)



End OrderManagerFacts.

(** * Facts about the JSON codec *)

Module JsonFacts.
Import Json.

(** *** Digits *)

Lemma uint_of_digits_of_uint (u : Decimal.uint) :
  uint_of_digits (digits_of_uint u) = u.
Proof. induction u; cbn; congruence. Qed.

Lemma digits_of_uint_lt (u : Decimal.uint) :
  Forall (fun d => (d < 10)%N) (digits_of_uint u).
Proof. induction u; cbn; constructor; (lia || assumption). Qed.

Lemma N_of_digits_of_N (n : N) : N_of_digits (digits_of_N n) = n.
Proof.
  unfold N_of_digits, digits_of_N.
  rewrite uint_of_digits_of_uint. apply DecimalN.Unsigned.of_to.
Qed.

Lemma nzhead_not_D0 (u v : Decimal.uint) : Decimal.nzhead u ≠ Decimal.D0 v.
Proof. induction u; cbn; try discriminate. exact IHu. Qed.

(** [str(n)] has no leading zero: it is ["0"] or starts with a digit
    [1..9]. *)
Lemma digits_of_N_head (n : N) :
  (n = 0%N ∧ digits_of_N n = [0%N])
  ∨ ∃ d ds, digits_of_N n = d :: ds ∧ (1 <= d < 10)%N.
Proof.
  destruct n as [|p]; [left; done|right].
  unfold digits_of_N.
  pose proof (DecimalN.Unsigned.to_of (N.to_uint (Npos p))) as Hnorm.
  rewrite DecimalN.Unsigned.of_to in Hnorm.
  pose proof (DecimalPos.Unsigned.to_uint_nonnil p) as Hnil.
  pose proof (DecimalPos.Unsigned.to_uint_nonzero p) as Hzero.
  change (N.to_uint (N.pos p)) with (Pos.to_uint p) in *.
  destruct (Pos.to_uint p) as [|u|u|u|u|u|u|u|u|u|u]; cbn [digits_of_uint];
    try (eexists _, _; split; [reflexivity|lia]).
  - done.
  - exfalso. unfold Decimal.unorm in Hnorm. cbn [Decimal.nzhead] in Hnorm.
    destruct (Decimal.nzhead u) eqn:Hnz; try discriminate Hnorm.
    + injection Hnorm as Hu. subst u. by apply Hzero.
    + exact (nzhead_not_D0 _ _ Hnz).
Qed.

(** The text after a value in [dumps] output: nothing, or a character that
    cannot continue a number. *)
Definition delimited (rest : list N) : Prop :=
  match rest with
  | [] => True
  | c :: _ => c = 44%N ∨ c = 93%N ∨ c = 125%N
  end.

Definition no_digit_head (rest : list N) : Prop :=
  match rest with
  | [] => True
  | c :: _ => is_digit c = false
  end.

Lemma delimited_no_digit rest : delimited rest → no_digit_head rest.
Proof.
  destruct rest as [|c r]; [done|]. cbn. unfold is_digit.
  intros [->|[->| ->]]; reflexivity.
Qed.

Lemma is_digit_char (d : N) : (d < 10)%N → is_digit (48 + d) = true.
Proof. intros Hd. unfold is_digit. apply andb_true_iff; split; apply N.leb_le; lia. Qed.

Lemma take_digits_chars (ds rest : list N) :
  Forall (fun d => (d < 10)%N) ds → no_digit_head rest →
  take_digits (digit_chars ds ++ rest) = (ds, rest).
Proof.
  intros Hds Hrest. induction Hds as [|d ds Hd _ IH]; cbn [digit_chars map app take_digits].
  - destruct rest as [|c r]; [done|]. cbn [no_digit_head] in Hrest.
    cbn [take_digits]. by rewrite Hrest.
  - rewrite (is_digit_char d Hd). fold (digit_chars ds). rewrite IH.
    f_equal. f_equal. lia.
Qed.

(** *** Numbers *)

Definition frac_text (frac : option (list N)) : list N :=
  match frac with
  | Some ds => 46%N :: digit_chars ds
  | None => []
  end.

Definition exp_text (exp : option (bool * list N)) : list N :=
  match exp with
  | Some (neg, ds) => 101%N :: (if neg then 45%N else 43%N) :: digit_chars ds
  | None => []
  end.

Definition digits_ok (ds : list N) : Prop :=
  ds ≠ [] ∧ Forall (fun d => (d < 10)%N) ds.

Lemma valid_digits_ok ds : valid_digits ds = true → digits_ok ds.
Proof.
  unfold valid_digits. rewrite andb_true_iff. intros [Hne Hall]. split.
  - intros ->. discriminate Hne.
  - apply Forall_forall. intros d Hd. rewrite forallb_forall in Hall.
    apply N.ltb_lt, Hall. by apply list_elem_of_In.
Qed.

Lemma scan_int_part_digits (i : N) (rest : list N) :
  no_digit_head rest →
  ∃ ids, scan_int_part (digit_chars (digits_of_N i) ++ rest) = Some (ids, rest)
         ∧ N_of_digits ids = i.
Proof.
  intros Hrest.
  destruct (digits_of_N_head i) as [[-> Hz]|(d & ds & Hd & Hrange)].
  - exists [0%N]. rewrite Hz. done.
  - exists (d :: ds). pose proof (N_of_digits_of_N i) as Hval.
    pose proof (digits_of_uint_lt (N.to_uint i)) as Hlt.
    fold (digits_of_N i) in Hlt. rewrite Hd in Hval, Hlt |- *.
    split; [|exact Hval].
    pose proof (take_digits_chars (d :: ds) rest Hlt Hrest) as Htd.
    cbn [digit_chars map app] in Htd |- *. unfold scan_int_part.
    destruct (N.eqb_spec (48 + d) 48) as [?|_]; [lia|].
    rewrite is_digit_char by lia. by rewrite Htd.
Qed.

Lemma scan_frac_text (frac : option (list N)) (rest : list N) :
  match frac with Some ds => digits_ok ds | None => True end →
  match rest with [] => True | c :: _ => c ≠ 46%N ∧ is_digit c = false end →
  scan_frac (frac_text frac ++ rest) = (frac, rest).
Proof.
  intros Hfrac Hrest. destruct frac as [ds|]; cbn [frac_text app].
  - destruct Hfrac as [Hne Hlt]. destruct ds as [|d ds]; [done|].
    assert (Hnd : no_digit_head rest) by (destruct rest; [done|]; apply Hrest).
    pose proof (take_digits_chars (d :: ds) rest Hlt Hnd) as Htd.
    cbn [digit_chars map app] in Htd |- *. unfold scan_frac.
    inversion Hlt; subst. rewrite is_digit_char by done.
    cbn [N.eqb Pos.eqb andb]. by rewrite Htd.
  - unfold scan_frac. destruct rest as [|p [|d r]]; try done.
    destruct Hrest as [Hp _]. by destruct (N.eqb_spec p 46).
Qed.

Lemma scan_exp_text (exp : option (bool * list N)) (rest : list N) :
  match exp with Some (_, ds) => digits_ok ds | None => True end →
  delimited rest →
  scan_exp (exp_text exp ++ rest) = (exp, rest).
Proof.
  intros Hexp Hrest. destruct exp as [[neg ds]|]; cbn [exp_text app].
  - destruct Hexp as [Hne Hlt].
    pose proof (take_digits_chars ds rest Hlt (delimited_no_digit _ Hrest)) as Htd.
    unfold scan_exp. cbn [N.eqb Pos.eqb orb].
    destruct neg; cbn [N.eqb Pos.eqb fst snd]; rewrite Htd;
      destruct ds; done.
  - unfold scan_exp. destruct rest as [|c r]; [done|].
    cbn in Hrest. by destruct Hrest as [->|[->| ->]].
Qed.

Lemma scan_sign_digits (neg : bool) (ds rest : list N) :
  (match ds with d :: _ => (d < 10)%N | [] => False end) →
  scan_sign ((if neg then [45%N] else []) ++ digit_chars ds ++ rest)
  = (neg, digit_chars ds ++ rest).
Proof.
  destruct neg; [done|]. destruct ds as [|d ds]; [done|]. intros Hd.
  cbn [app digit_chars map]. unfold scan_sign.
  by destruct (N.eqb_spec (48 + d) 45) as [?|_]; [lia|].
Qed.

Lemma digits_of_N_first (i : N) :
  match digits_of_N i with d :: _ => (d < 10)%N | [] => False end.
Proof.
  destruct (digits_of_N_head i) as [[_ ->]|(d & ds & -> & ?)]; lia.
Qed.

Lemma frac_exp_head (frac : option (list N)) (exp : option (bool * list N)) rest :
  match frac with Some ds => digits_ok ds | None => True end →
  delimited rest →
  no_digit_head (frac_text frac ++ exp_text exp ++ rest).
Proof.
  intros Hfrac Hrest. destruct frac as [ds|]; [done|].
  destruct exp as [[neg ds]|]; [done|]. by apply delimited_no_digit.
Qed.

Lemma exp_head (exp : option (bool * list N)) rest :
  delimited rest →
  match exp_text exp ++ rest with
  | [] => True
  | c :: _ => c ≠ 46%N ∧ is_digit c = false
  end.
Proof.
  intros Hrest. destruct exp as [[neg ds]|]; [done|]. cbn.
  destruct rest as [|c r]; [done|]. cbn in Hrest.
  by destruct Hrest as [->|[->| ->]].
Qed.

(** The scanner on the text of a number, whatever follows it in [dumps]
    output. *)
Lemma match_number_text (neg : bool) (i : N) frac exp (rest : list N) :
  match frac with Some ds => digits_ok ds | None => True end →
  match exp with Some (_, ds) => digits_ok ds | None => True end →
  delimited rest →
  match_number ((if neg then [45%N] else []) ++ digit_chars (digits_of_N i)
                ++ frac_text frac ++ exp_text exp ++ rest)
  = Some (match frac, exp with
          | None, None => JInt (if neg then - Z.of_N i else Z.of_N i)
          | _, _ => JFloat {| fr_neg := neg; fr_int := i;
                              fr_frac := frac; fr_exp := exp |}
          end, rest).
Proof.
  intros Hfrac Hexp Hrest. unfold match_number.
  rewrite scan_sign_digits by apply digits_of_N_first. cbn [fst snd].
  destruct (scan_int_part_digits i (frac_text frac ++ exp_text exp ++ rest))
    as (ids & -> & Hval); [by apply frac_exp_head|].
  rewrite scan_frac_text by (done || by apply exp_head). cbn [fst snd].
  rewrite scan_exp_text by done. cbn [fst snd]. rewrite Hval.
  by destruct frac, exp.
Qed.

Lemma match_number_int (n : Z) (rest : list N) :
  delimited rest → match_number (encode_int n ++ rest) = Some (JInt n, rest).
Proof.
  intros Hrest. destruct n as [|p|p].
  - exact (match_number_text false 0 None None rest I I Hrest).
  - exact (match_number_text false (Npos p) None None rest I I Hrest).
  - exact (match_number_text true (Npos p) None None rest I I Hrest).
Qed.

Lemma encode_float_text (r : float_repr) (rest : list N) :
  encode_float r ++ rest
  = (if fr_neg r then [45%N] else []) ++ digit_chars (digits_of_N (fr_int r))
    ++ frac_text (fr_frac r) ++ exp_text (fr_exp r) ++ rest.
Proof.
  unfold encode_float, frac_text, exp_text. rewrite <- !app_assoc.
  by destruct (fr_frac r), (fr_exp r) as [[? ?]|].
Qed.

Lemma match_number_float (r : float_repr) (rest : list N) :
  valid_float r = true → delimited rest →
  match_number (encode_float r ++ rest) = Some (JFloat r, rest).
Proof.
  intros Hvalid Hrest. rewrite encode_float_text.
  destruct r as [neg i frac exp]. unfold valid_float in Hvalid. cbn [fr_neg fr_int fr_frac fr_exp] in *.
  rewrite match_number_text; try done.
  - by destruct frac, exp.
  - destruct frac as [ds|]; [|done]. apply valid_digits_ok.
    destruct exp as [[? ?]|]; by apply andb_true_iff in Hvalid as [? ?].
  - destruct exp as [[? ds]|]; [|done]. apply valid_digits_ok.
    destruct frac; by apply andb_true_iff in Hvalid as [? ?].
Qed.


(** *** Strings *)

Ltac Zify.zify_post_hook ::= Z.to_euclidean_division_equations.

Lemma hex_val_hex_char (d : N) : (d < 16)%N → hex_val (hex_char d) = Some d.
Proof.
  intros Hd. unfold hex_char, hex_val, is_digit.
  destruct (N.ltb_spec d 10).
  - replace ((48 <=? 48 + d)%N && (48 + d <=? 57)%N) with true
      by (symmetry; apply andb_true_iff; split; apply N.leb_le; lia).
    f_equal. lia.
  - replace ((48 <=? 87 + d)%N && (87 + d <=? 57)%N) with false
      by (symmetry; apply andb_false_iff; right; apply N.leb_gt; lia).
    replace ((97 <=? 87 + d)%N && (87 + d <=? 102)%N) with true
      by (symmetry; apply andb_true_iff; split; apply N.leb_le; lia).
    f_equal. lia.
Qed.

Lemma hex4_escape (n : N) :
  (n < 65536)%N →
  hex4 (hex_char (n / 4096)) (hex_char (n / 256 mod 16))
       (hex_char (n / 16 mod 16)) (hex_char (n mod 16)) = Some n.
Proof.
  intros Hn. unfold hex4.
  rewrite !hex_val_hex_char by lia. f_equal. lia.
Qed.

Lemma is_scalar_value_spec (c : N) :
  is_scalar_value c = true ↔ (c < 1114112)%N ∧ ¬ (55296 <= c <= 57343)%N.
Proof.
  unfold is_scalar_value, is_surrogate.
  rewrite andb_true_iff, negb_true_iff, andb_false_iff, N.ltb_lt, !N.leb_gt. lia.
Qed.

(** One character: what the encoder writes for it is read back as it. *)
Lemma scan_string_escape_char (c : N) (acc tail : list N) :
  is_scalar_value c = true → tail ≠ [] →
  scan_string acc (escape_char c ++ tail) = scan_string (c :: acc) tail.
Proof.
  intros Hc Htail. apply is_scalar_value_spec in Hc as [Hmax Hsur].
  unfold escape_char.
  destruct (N.eqb_spec c 34) as [->|H34]; [done|].
  destruct (N.eqb_spec c 92) as [->|H92]; [done|].
  destruct ((32 <=? c)%N && (c <=? 126)%N) eqn:Hprint.
  { apply andb_true_iff in Hprint as [Hlo Hhi].
    apply N.leb_le in Hlo, Hhi. cbn [app scan_string].
    destruct (N.eqb_spec c 34); [done|]. destruct (N.eqb_spec c 92); [done|].
    destruct (N.ltb_spec c 32); [lia|done]. }
  destruct (N.eqb_spec c 10) as [->|H10]; [done|].
  destruct (N.eqb_spec c 13) as [->|H13]; [done|].
  destruct (N.eqb_spec c 9) as [->|H9]; [done|].
  destruct (N.eqb_spec c 12) as [->|H12]; [done|].
  destruct (N.eqb_spec c 8) as [->|H8]; [done|].
  destruct (N.ltb_spec c 65536) as [Hbmp|Hsup].
  - unfold escape_u. cbn [app scan_string N.eqb Pos.eqb].
    rewrite hex4_escape by done.
    replace (is_high_surrogate c) with false; [done|].
    symmetry. unfold is_high_surrogate. apply andb_false_iff.
    rewrite !N.leb_gt. lia.
  - set (v := (c - 65536)%N).
    set (hi := (55296 + v / 1024 mod 1024)%N).
    set (lo := (56320 + v mod 1024)%N).
    assert (Hhi : is_high_surrogate hi = true).
    { unfold is_high_surrogate, hi. apply andb_true_iff.
      rewrite !N.leb_le. subst v. lia. }
    assert (Hlo : is_low_surrogate lo = true).
    { unfold is_low_surrogate, lo. apply andb_true_iff.
      rewrite !N.leb_le. subst v. lia. }
    destruct tail as [|t tail]; [done|].
    unfold escape_u. cbn [app scan_string N.eqb Pos.eqb andb].
    rewrite hex4_escape by (subst hi v; lia). rewrite Hhi.
    rewrite hex4_escape by (subst lo v; lia). rewrite Hlo.
    replace (65536 + ((hi - 55296) * 1024 + (lo - 56320)))%N with c
      by (subst hi lo v; lia).
    reflexivity.
Qed.

Lemma scan_string_encoded (s acc rest : list N) :
  valid_string s = true →
  scan_string acc (concat (map escape_char s) ++ 34%N :: rest)
  = Ok (rev acc ++ s, rest).
Proof.
  revert acc. induction s as [|c s IH]; intros acc Hs.
  - cbn. by rewrite app_nil_r.
  - cbn in Hs. apply andb_true_iff in Hs as [Hc Hs].
    cbn [map concat]. rewrite <- app_assoc.
    rewrite scan_string_escape_char; [|done|by destruct (concat _)].
    rewrite IH by done. cbn [rev]. by rewrite <- app_assoc.
Qed.


(** *** Dictionaries *)

Lemma dict_set_fresh (d : list (list N * json)) (k : list N) (v : json) :
  k ∉ map fst d → dict_set d k v = d ++ [(k, v)].
Proof.
  induction d as [|[k' v'] d IH]; cbn; [done|]. intros Hk.
  apply not_elem_of_cons in Hk as [Hne Hk].
  destruct (decide (k' = k)); [congruence|]. by rewrite IH.
Qed.

Lemma nodup_keys_NoDup (ks : list (list N)) : nodup_keys ks = true ↔ NoDup ks.
Proof.
  induction ks as [|k ks IH]; cbn.
  - split; [constructor|done].
  - rewrite andb_true_iff, negb_true_iff, bool_decide_eq_false, IH, NoDup_cons. done.
Qed.

Lemma fold_dict_set (ms d : list (list N * json)) :
  NoDup (map fst (d ++ ms)) →
  fold_left (fun d kv => dict_set d (fst kv) (snd kv)) ms d = d ++ ms.
Proof.
  revert d. induction ms as [|[k v] ms IH]; intros d Hnd; cbn.
  - by rewrite app_nil_r.
  - rewrite dict_set_fresh.
    + rewrite IH; rewrite <- app_assoc; [done|]. exact Hnd.
    + rewrite map_app in Hnd. apply NoDup_app in Hnd as (_ & Hdis & _).
      intros Hin. apply (Hdis k Hin). cbn. left.
Qed.

Lemma dict_of_pairs_nodup (ms : list (list N * json)) :
  nodup_keys (map fst ms) = true → dict_of_pairs ms = ms.
Proof.
  intros Hnd. apply nodup_keys_NoDup in Hnd.
  unfold dict_of_pairs. by rewrite fold_dict_set.
Qed.

(** *** The first character of an encoded value *)

Definition head_char (c : N) : Prop :=
  c = 110%N ∨ c = 116%N ∨ c = 102%N ∨ c = 45%N ∨ c = 73%N ∨ c = 78%N
  ∨ c = 34%N ∨ c = 91%N ∨ c = 123%N ∨ (48 <= c <= 57)%N.

Definition starts_value (s : list N) : Prop :=
  match s with
  | c :: _ => head_char c
  | [] => False
  end.

Lemma digit_chars_starts (i : N) (rest : list N) :
  starts_value (digit_chars (digits_of_N i) ++ rest).
Proof.
  pose proof (digits_of_N_first i) as Hd.
  destruct (digits_of_N i) as [|d ds]; [done|]. cbn. unfold head_char. lia.
Qed.

Lemma encode_starts (v : json) (rest : list N) : starts_value (encode v ++ rest).
Proof.
  destruct v as [|[|]|n|r|[|]| |s|items|ms]; cbn; unfold head_char; try tauto.
  - destruct n as [|p|p].
    + apply (digit_chars_starts 0).
    + apply (digit_chars_starts (Npos p)).
    + cbn. unfold head_char. tauto.
  - rewrite encode_float_text. destruct (fr_neg r).
    + cbn. unfold head_char. tauto.
    + apply digit_chars_starts.
Qed.

Lemma skip_ws_starts (s : list N) : starts_value s → skip_ws s = s.
Proof.
  destruct s as [|c r]; [done|]. cbn. unfold head_char, is_ws. intros Hc.
  destruct (N.eqb_spec c 32); [lia|]. destruct (N.eqb_spec c 9); [lia|].
  destruct (N.eqb_spec c 10); [lia|]. destruct (N.eqb_spec c 13); [lia|]. done.
Qed.

Lemma skip_ws_delimited (s : list N) : delimited s → skip_ws s = s.
Proof. destruct s as [|c r]; [done|]. cbn. by intros [->|[->| ->]]. Qed.

(** *** The scanner on encoded values *)

Fixpoint size (v : json) : nat :=
  match v with
  | JArray items => S (list_sum (map (fun x => S (size x)) items))
  | JObject ms => S (list_sum (map (fun kv => S (size (snd kv))) ms))
  | _ => 1
  end.

Definition json_ind' (P : json → Prop)
    (Hnull : P JNull) (Hbool : ∀ b, P (JBool b)) (Hint : ∀ n, P (JInt n))
    (Hfloat : ∀ r, P (JFloat r)) (Hinf : ∀ neg, P (JInfinity neg)) (Hnan : P JNaN)
    (Hstr : ∀ s, P (JString s))
    (Harr : ∀ items, Forall P items → P (JArray items))
    (Hobj : ∀ ms, Forall (fun kv => P (snd kv)) ms → P (JObject ms)) :
  ∀ v, P v :=
  fix go (v : json) : P v :=
    match v with
    | JNull => Hnull
    | JBool b => Hbool b
    | JInt n => Hint n
    | JFloat r => Hfloat r
    | JInfinity neg => Hinf neg
    | JNaN => Hnan
    | JString s => Hstr s
    | JArray items =>
        Harr items
          ((fix all (l : list json) : Forall P l :=
              match l with
              | [] => @List.Forall_nil _ P
              | x :: l' => @List.Forall_cons _ P x l' (go x) (all l')
              end) items)
    | JObject ms =>
        Hobj ms
          ((fix all (l : list (list N * json)) : Forall (fun kv => P (snd kv)) l :=
              match l with
              | [] => @List.Forall_nil _ _
              | kv :: l' => @List.Forall_cons _ (fun kv => P (snd kv)) kv l' (go (snd kv)) (all l')
              end) ms)
    end.

(** A text that starts a number is handed to [match_number]. *)
Lemma scan_once_number (fuel : nat) (c : N) (r : list N) res :
  c = 45%N ∨ (48 <= c <= 57)%N →
  match_number (c :: r) = Some res →
  scan_once (S fuel) (c :: r) = Some (Ok res).
Proof.
  intros Hc Hm. cbn [scan_once].
  destruct (N.eqb_spec c 34); [lia|]. destruct (N.eqb_spec c 123); [lia|].
  destruct (N.eqb_spec c 91); [lia|]. destruct (N.eqb_spec c 110); [lia|].
  destruct (N.eqb_spec c 116); [lia|]. destruct (N.eqb_spec c 102); [lia|].
  by rewrite Hm.
Qed.

Lemma scan_once_number_text (fuel : nat) (s : list N) res :
  (match s with c :: _ => c = 45%N ∨ (48 <= c <= 57)%N | [] => False end) →
  match_number s = Some res →
  scan_once (S fuel) s = Some (Ok res).
Proof. destruct s as [|c r]; [done|]. apply scan_once_number. Qed.

Definition reads_back (v : json) : Prop :=
  ∀ fuel rest, size v ≤ fuel → delimited rest →
    scan_once fuel (encode v ++ rest) = Some (Ok (v, rest)).

Local Abbreviation SEP := [44%N; 32%N] (only parsing).

Lemma join_cons2 (sep p q : list N) (ps : list (list N)) :
  join sep (p :: q :: ps) = p ++ sep ++ join sep (q :: ps).
Proof. reflexivity. Qed.

Lemma join_cons_starts (x : json) (items : list json) (rest : list N) :
  starts_value (join SEP (map encode (x :: items)) ++ rest).
Proof.
  destruct items as [|y items]; cbn [map join].
  - apply encode_starts.
  - rewrite <- app_assoc. apply encode_starts.
Qed.

Lemma scan_array_encoded (items : list json) :
  Forall reads_back items → items ≠ [] →
  ∀ fuel acc rest,
    list_sum (map (fun x => S (size x)) items) ≤ fuel →
    scan_array fuel acc (join SEP (map encode items) ++ 93%N :: rest)
    = Some (Ok (JArray (rev acc ++ items), rest)).
Proof.
  induction 1 as [|x items Hx _ IH]; [done|]. intros _ fuel acc rest Hfuel.
  cbn [map list_sum fold_right] in Hfuel. destruct fuel as [|fuel]; [lia|].
  cbn [scan_array]. destruct items as [|y items].
  - cbn [map join]. rewrite Hx; [|cbn in Hfuel; lia|cbn; tauto].
    done.
  - cbn [map]. rewrite join_cons2, <- !app_assoc. cbn [app].
    rewrite Hx; [|lia|cbn; tauto].
    cbn [skip_ws is_ws N.eqb Pos.eqb orb].
    change (encode y :: map encode items) with (map encode (y :: items)).
    rewrite skip_ws_starts by apply (join_cons_starts y items).
    rewrite (IH ltac:(done) fuel (x :: acc) rest) by (cbn [map list_sum fold_right] in *; lia).
    cbn [rev]. by rewrite <- app_assoc.
Qed.


Definition member_text (kv : list N * json) : list N :=
  encode_string (fst kv) ++ [58%N; 32%N] ++ encode (snd kv).

(** The text of the members of an object after the opening quote of the
    first key. *)
Fixpoint members_tail (kv : list N * json) (ms : list (list N * json)) : list N :=
  concat (map escape_char (fst kv)) ++ 34%N :: 58%N :: 32%N :: encode (snd kv)
  ++ match ms with
     | [] => []
     | kv' :: ms' => 44%N :: 32%N :: 34%N :: members_tail kv' ms'
     end.

Lemma members_tail_cons (kv kv' : list N * json) (ms : list (list N * json)) :
  members_tail kv (kv' :: ms)
  = concat (map escape_char (fst kv)) ++ 34%N :: 58%N :: 32%N :: encode (snd kv)
    ++ 44%N :: 32%N :: 34%N :: members_tail kv' ms.
Proof. reflexivity. Qed.

Lemma members_tail_nil (kv : list N * json) :
  members_tail kv []
  = concat (map escape_char (fst kv)) ++ 34%N :: 58%N :: 32%N :: encode (snd kv).
Proof. cbn. by rewrite app_nil_r. Qed.

Lemma member_text_eq (kv : list N * json) (tail : list N) :
  member_text kv ++ tail
  = 34%N :: concat (map escape_char (fst kv)) ++ 34%N :: 58%N :: 32%N :: encode (snd kv) ++ tail.
Proof.
  unfold member_text, encode_string. cbn [app]. rewrite <- !app_assoc. done.
Qed.

Lemma join_members (kv : list N * json) (ms : list (list N * json)) :
  join SEP (map member_text (kv :: ms)) = 34%N :: members_tail kv ms.
Proof.
  revert kv. induction ms as [|kv' ms IH]; intros kv.
  - rewrite members_tail_nil. cbn [map join].
    rewrite <- (app_nil_r (member_text kv)), member_text_eq. by rewrite app_nil_r.
  - cbn [map]. rewrite join_cons2. change (member_text kv' :: map member_text ms)
      with (map member_text (kv' :: ms)). rewrite IH.
    rewrite member_text_eq, members_tail_cons. done.
Qed.

Lemma scan_object_encoded (ms : list (list N * json)) :
  Forall (fun kv => reads_back (snd kv)) ms →
  ∀ kv fuel acc rest,
    reads_back (snd kv) →
    Forall (fun kv => valid_string (fst kv) = true) (kv :: ms) →
    list_sum (map (fun kv => S (size (snd kv))) (kv :: ms)) ≤ fuel →
    scan_object fuel acc (members_tail kv ms ++ 125%N :: rest)
    = Some (Ok (JObject (dict_of_pairs (rev acc ++ kv :: ms)), rest)).
Proof.
  induction 1 as [|kv' ms Hkv' _ IH]; intros kv fuel acc rest Hkv Hkeys Hfuel;
    cbn [map list_sum fold_right] in Hfuel; (destruct fuel as [|fuel]; [lia|]);
    apply Forall_cons in Hkeys as [Hk Hkeys]; cbn [scan_object].
  - rewrite members_tail_nil, <- app_assoc. cbn [app].
    rewrite scan_string_encoded by done. cbn [rev app].
    cbn [skip_ws is_ws N.eqb Pos.eqb orb].
    rewrite skip_ws_starts by apply encode_starts.
    rewrite Hkv; [|lia|cbn; tauto]. cbn. by destruct kv.
  - rewrite members_tail_cons, <- app_assoc. cbn [app].
    rewrite scan_string_encoded by done. cbn [rev app].
    cbn [skip_ws is_ws N.eqb Pos.eqb orb].
    rewrite <- app_assoc. cbn [app].
    rewrite skip_ws_starts by apply encode_starts.
    rewrite Hkv; [|lia|cbn; tauto].
    cbn [skip_ws is_ws N.eqb Pos.eqb orb].
    rewrite (IH kv' fuel ((fst kv, snd kv) :: acc) rest Hkv' Hkeys)
      by (cbn [map list_sum fold_right] in *; lia).
    cbn [rev]. rewrite <- app_assoc. by destruct kv.
Qed.

Lemma valid_object_parts (ms : list (list N * json)) :
  valid (JObject ms) = true →
  nodup_keys (map fst ms) = true
  ∧ Forall (fun kv => valid_string (fst kv) = true) ms
  ∧ Forall (fun kv => valid (snd kv) = true) ms.
Proof.
  cbn [valid]. rewrite andb_true_iff, forallb_forall. intros [Hnd Hall].
  split; [done|]. split; apply Forall_forall; intros kv Hin;
    apply list_elem_of_In, Hall, andb_true_iff in Hin; tauto.
Qed.

Lemma digits_start_number (i : N) (rest : list N) :
  match digit_chars (digits_of_N i) ++ rest with
  | [] => False
  | c :: _ => c = 45%N ∨ (48 <= c <= 57)%N
  end.
Proof.
  pose proof (digits_of_N_first i) as Hd.
  destruct (digits_of_N i) as [|d ds]; [done|]. cbn. lia.
Qed.

(** Every valid value is read back from its encoding, whatever delimiter
    follows, with fuel no less than its size. *)
Lemma scan_once_encode (v : json) : valid v = true → reads_back v.
Proof.
  induction v as [|b|n|r|neg| |s|items IH|ms IH] using json_ind';
    intros Hvalid fuel rest Hfuel Hrest;
    (destruct fuel as [|fuel]; [cbn in Hfuel; lia|]).
  - done.
  - by destruct b.
  - apply scan_once_number_text; [|by apply match_number_int].
    cbn [encode]. destruct n as [|p|p]; [| |cbn; tauto].
    + apply (digits_start_number 0).
    + apply (digits_start_number (Npos p)).
  - apply scan_once_number_text; [|by apply match_number_float].
    cbn [encode]. rewrite encode_float_text. destruct (fr_neg r); [cbn; tauto|].
    apply digits_start_number.
  - by destruct neg.
  - done.
  - cbn [encode encode_string scan_once app N.eqb Pos.eqb]. rewrite <- app_assoc.
    change ([34%N] ++ rest) with (34%N :: rest).
    by rewrite scan_string_encoded.
  - cbn [valid] in Hvalid. cbn [encode app scan_once N.eqb Pos.eqb].
    destruct items as [|x items]; [done|].
    rewrite <- app_assoc. cbn [app].
    rewrite skip_ws_starts by apply (join_cons_starts x items).
    pose proof (join_cons_starts x items (93%N :: rest)) as Hstart.
    destruct (join SEP (map encode (x :: items)) ++ 93%N :: rest) as [|c1 r1] eqn:Htext;
      [done|].
    assert (Hc1 : (c1 =? 93)%N = false).
    { cbn in Hstart. unfold head_char in Hstart. apply N.eqb_neq. lia. }
    rewrite Hc1, <- Htext.
    rewrite (scan_array_encoded (x :: items)); [done| |done|].
    + apply Forall_forall. intros y Hy. rewrite Forall_forall in IH.
      apply IH; [done|]. rewrite forallb_forall in Hvalid.
      by apply Hvalid, list_elem_of_In.
    + cbn [size] in Hfuel. lia.
  - apply valid_object_parts in Hvalid as (Hnd & Hkeys & Hvals).
    cbn [encode app scan_once N.eqb Pos.eqb].
    destruct ms as [|kv ms]; [done|].
    fold (member_text). change (fun kv => encode_string (fst kv) ++ [58%N; 32%N] ++ encode (snd kv))
      with member_text.
    rewrite join_members. cbn [app skip_ws is_ws N.eqb Pos.eqb orb].
    apply Forall_cons in IH as [IHkv IHms]. apply Forall_cons in Hvals as [Hv Hvals].
    rewrite <- app_assoc. change ([125%N] ++ rest) with (125%N :: rest).
    rewrite (scan_object_encoded ms); try done.
    + cbn [rev app]. by rewrite dict_of_pairs_nodup.
    + apply Forall_forall. intros y Hy. rewrite Forall_forall in IHms, Hvals.
      by apply IHms, Hvals.
    + by apply IHkv.
    + cbn [size] in Hfuel. lia.
Qed.


(** *** Fuel *)

Lemma starts_value_length (s : list N) : starts_value s → 1 ≤ length s.
Proof. destruct s; [done|]. cbn. lia. Qed.

Lemma encode_length_pos (v : json) : 1 ≤ length (encode v).
Proof.
  pose proof (encode_starts v []) as Hs. rewrite app_nil_r in Hs.
  by apply starts_value_length.
Qed.

Lemma join_length_bound {A} (f : A → nat) (g : A → list N) (l : list A) :
  Forall (fun x => f x ≤ 2 * length (g x) ∧ 1 ≤ length (g x)) l →
  list_sum (map (fun x => S (f x)) l) ≤ 2 * length (join SEP (map g l)) + 1.
Proof.
  induction 1 as [|x l [Hx Hpos] _ IH]; [cbn; lia|].
  destruct l as [|y l].
  - cbn. lia.
  - cbn [map]. rewrite join_cons2. cbn [map list_sum fold_right] in IH |- *.
    rewrite !length_app. cbn [length]. lia.
Qed.

Lemma size_le_length (v : json) : size v ≤ 2 * length (encode v).
Proof.
  induction v as [|b|n|r|neg| |s|items IH|ms IH] using json_ind'.
  - pose proof (encode_length_pos JNull). cbn [size]. lia.
  - pose proof (encode_length_pos (JBool b)). cbn [size]. lia.
  - pose proof (encode_length_pos (JInt n)). cbn [size]. lia.
  - pose proof (encode_length_pos (JFloat r)). cbn [size]. lia.
  - pose proof (encode_length_pos (JInfinity neg)). cbn [size]. lia.
  - pose proof (encode_length_pos JNaN). cbn [size]. lia.
  - pose proof (encode_length_pos (JString s)). cbn [size]. lia.
  - cbn [size encode]. cbn [length]. rewrite length_app. cbn [length].
    pose proof (join_length_bound size encode items) as Hb.
    assert (Hall : Forall (fun x => size x ≤ 2 * length (encode x) ∧ 1 ≤ length (encode x)) items).
    { eapply Forall_impl; [exact IH|]. intros x Hx. split; [done|apply encode_length_pos]. }
    specialize (Hb Hall). lia.
  - cbn [size encode]. cbn [length]. rewrite length_app. cbn [length].
    pose proof (join_length_bound (fun kv => size (snd kv))
                  (fun kv => encode_string (fst kv) ++ [58%N; 32%N] ++ encode (snd kv)) ms) as Hb.
    assert (Hall : Forall (fun kv : list N * json =>
                     size (snd kv) ≤ 2 * length (encode_string (fst kv) ++ [58%N; 32%N] ++ encode (snd kv))
                     ∧ 1 ≤ length (encode_string (fst kv) ++ [58%N; 32%N] ++ encode (snd kv))) ms).
    { eapply Forall_impl; [exact IH|]. intros kv Hkv. cbn beta in Hkv.
      rewrite !length_app. cbn [length]. lia. }
    specialize (Hb Hall). lia.
Qed.

(** *** [loads] after [dumps] *)

Theorem loads_dumps (v : json) : valid v = true → loads (dumps v) = Ok v.
Proof.
  intros Hvalid. unfold loads, dumps.
  pose proof (encode_starts v []) as Hstart. rewrite app_nil_r in Hstart.
  replace (starts_with_bom (encode v)) with false.
  2:{ destruct (encode v) as [|c r]; [done|]. cbn in Hstart |- *.
      unfold head_char in Hstart. symmetry. apply N.eqb_neq. lia. }
  rewrite (skip_ws_starts _ Hstart).
  pose proof (scan_once_encode v Hvalid (fuel_for (encode v)) []) as Hscan.
  rewrite app_nil_r in Hscan. rewrite Hscan; [done| |done].
  unfold fuel_for. pose proof (size_le_length v). lia.
Qed.

(** *** [dumps] writes ASCII without NUL, which UTF-8 leaves alone *)

Definition ascii (s : list N) : Prop := Forall (fun c => (c < 128)%N) s.

(** ASCII characters other than NUL. *)
Definition plain (s : list N) : Prop := Forall (fun c => (0 < c < 128)%N) s.

Lemma plain_ascii (s : list N) : plain s → ascii s.
Proof. intros H. eapply Forall_impl; [exact H|]. cbn. intros c Hc. lia. Qed.

Lemma plain_app (s t : list N) : plain s → plain t → plain (s ++ t).
Proof. apply Forall_app_2. Qed.

Lemma plain_str (s : string) :
  forallb (fun c => (0 <? c)%N && (c <? 128)%N) (str s) = true → plain (str s).
Proof.
  intros H. apply Forall_forall. intros c Hc. rewrite forallb_forall in H.
  specialize (H c ltac:(by apply list_elem_of_In)).
  apply andb_true_iff in H as [H0 H1]. apply N.ltb_lt in H0, H1. lia.
Qed.

Lemma plain_digit_chars (ds : list N) :
  Forall (fun d => (d < 10)%N) ds → plain (digit_chars ds).
Proof.
  intros H. apply Forall_fmap. eapply Forall_impl; [exact H|]. cbn. intros. lia.
Qed.

Lemma plain_digits_of_N (n : N) : plain (digit_chars (digits_of_N n)).
Proof. apply plain_digit_chars, digits_of_uint_lt. Qed.

Lemma hex_char_plain (d : N) : (d < 16)%N → (0 < hex_char d < 128)%N.
Proof. unfold hex_char. destruct (N.ltb_spec d 10); lia. Qed.

Lemma plain_escape_u (n : N) : (n < 65536)%N → plain (escape_u n).
Proof.
  intros Hn. unfold escape_u.
  repeat (apply Forall_cons; split; [first [lia|apply hex_char_plain; lia]|]).
  constructor.
Qed.

Lemma plain_escape_char (c : N) : plain (escape_char c).
Proof.
  unfold escape_char.
  repeat match goal with
         | |- context [if ?b then _ else _] => destruct b eqn:?
         end;
    try (unfold plain; repeat (apply Forall_cons; split; [lia|]); by apply Forall_nil).
  - apply andb_true_iff in Heqb1 as [Hlo Hhi]. apply N.leb_le in Hlo, Hhi.
    unfold plain. repeat (apply Forall_cons; split; [lia|]). by apply Forall_nil.
  - apply plain_escape_u. by apply N.ltb_lt.
  - apply plain_app; apply plain_escape_u; lia.
Qed.

Lemma plain_encode_string (s : list N) : plain (encode_string s).
Proof.
  unfold encode_string. apply Forall_cons. split; [lia|].
  apply plain_app; [|by repeat constructor].
  induction s as [|c s IH]; cbn; [constructor|].
  apply plain_app; [apply plain_escape_char|exact IH].
Qed.

Lemma plain_join (parts : list (list N)) :
  Forall plain parts → plain (join SEP parts).
Proof.
  induction 1 as [|p ps Hp _ IH]; [constructor|].
  destruct ps as [|q ps]; [exact Hp|]. rewrite join_cons2.
  apply plain_app; [exact Hp|]. apply plain_app; [|exact IH].
  repeat (apply Forall_cons; split; [lia|]). constructor.
Qed.

Lemma plain_encode (v : json) : valid v = true → plain (encode v).
Proof.
  induction v as [|b|n|r|neg| |s|items IH|ms IH] using json_ind'; intros Hvalid.
  - by apply plain_str.
  - destruct b; by apply plain_str.
  - destruct n as [|p|p]; cbn [encode encode_int].
    + apply plain_digits_of_N.
    + apply plain_digits_of_N.
    + apply Forall_cons. split; [lia|]. apply plain_digits_of_N.
  - cbn [encode]. rewrite <- (app_nil_r (encode_float r)), encode_float_text.
    destruct r as [neg i frac exp]. unfold valid in Hvalid. unfold valid_float in Hvalid.
    cbn [fr_neg fr_int fr_frac fr_exp] in *.
    apply plain_app; [destruct neg; repeat constructor; lia|].
    apply plain_app; [apply plain_digits_of_N|].
    apply plain_app; [|apply plain_app; [|constructor]].
    + destruct frac as [ds|]; [|constructor]. cbn.
      apply Forall_cons. split; [lia|]. apply plain_digit_chars.
      apply (valid_digits_ok ds).
      destruct exp as [[? ?]|]; by apply andb_true_iff in Hvalid as [? ?].
    + destruct exp as [[eneg ds]|]; [|constructor]. cbn.
      apply Forall_cons. split; [lia|]. apply Forall_cons.
      split; [destruct eneg; lia|]. apply plain_digit_chars.
      apply (valid_digits_ok ds).
      destruct frac; by apply andb_true_iff in Hvalid as [? ?].
  - destruct neg; by apply plain_str.
  - by apply plain_str.
  - apply plain_encode_string.
  - cbn [encode]. apply Forall_cons. split; [lia|].
    apply plain_app; [|repeat constructor; lia].
    apply plain_join, Forall_fmap. cbn [valid] in Hvalid.
    rewrite forallb_forall in Hvalid. rewrite Forall_forall in IH |- *.
    intros x Hx. apply IH; [done|]. by apply Hvalid, list_elem_of_In.
  - apply valid_object_parts in Hvalid as (_ & _ & Hvals).
    cbn [encode]. apply Forall_cons. split; [lia|].
    apply plain_app; [|repeat constructor; lia].
    apply plain_join, Forall_fmap. rewrite Forall_forall in IH, Hvals |- *.
    intros kv Hkv. cbn beta. apply plain_app; [apply plain_encode_string|].
    apply plain_app; [unfold plain; repeat (apply Forall_cons; split; [lia|]); by apply Forall_nil|].
    by apply IH, Hvals.
Qed.

Lemma ascii_encode (v : json) : valid v = true → ascii (encode v).
Proof. intros Hv. by apply plain_ascii, plain_encode. Qed.

Lemma utf8_encode_ascii (s : list N) : ascii s → utf8_encode s = Ok s.
Proof.
  induction 1 as [|c s Hc _ IH]; [done|]. cbn [utf8_encode].
  apply N.ltb_lt in Hc. rewrite Hc. cbn. by rewrite IH.
Qed.

Lemma utf8_decode_ascii (s : list N) : ascii s → utf8_decode s = Ok s.
Proof.
  induction 1 as [|c s Hc _ IH]; [done|]. cbn [utf8_decode].
  apply N.ltb_lt in Hc. rewrite Hc. by rewrite IH.
Qed.


(** *** Text after a value *)

(** After an object the scanner stops, whatever follows. *)
Lemma scan_once_object (ms : list (list N * json)) (fuel : nat) (rest : list N) :
  valid (JObject ms) = true → ms ≠ [] → size (JObject ms) ≤ fuel →
  scan_once fuel (encode (JObject ms) ++ rest) = Some (Ok (JObject ms, rest)).
Proof.
  intros Hvalid Hms Hfuel. destruct fuel as [|fuel]; [cbn in Hfuel; lia|].
  pose proof Hvalid as Hparts. apply valid_object_parts in Hparts as (Hnd & Hkeys & Hvals).
  cbn [encode app scan_once N.eqb Pos.eqb].
  destruct ms as [|kv ms]; [done|].
  change (fun kv => encode_string (fst kv) ++ [58%N; 32%N] ++ encode (snd kv))
    with member_text.
  rewrite join_members. cbn [app skip_ws is_ws N.eqb Pos.eqb orb].
  apply Forall_cons in Hvals as [Hv Hvals].
  rewrite <- app_assoc. change ([125%N] ++ rest) with (125%N :: rest).
  rewrite (scan_object_encoded ms); try done.
  - cbn [rev app]. by rewrite dict_of_pairs_nodup.
  - eapply Forall_impl; [exact Hvals|]. intros y Hy. by apply scan_once_encode.
  - by apply scan_once_encode.
  - cbn [size] in Hfuel. lia.
Qed.

Lemma skip_ws_last (s : list N) (c : N) : is_ws c = false → skip_ws (s ++ [c]) ≠ [].
Proof.
  intros Hc. induction s as [|d s IH]; cbn [app skip_ws].
  - rewrite Hc. discriminate.
  - destruct (is_ws d); [exact IH|discriminate].
Qed.

(** [loads] refuses an object followed by more than whitespace. *)
Lemma loads_extra_data (ms : list (list N * json)) (rest : list N) :
  valid (JObject ms) = true → ms ≠ [] → skip_ws rest ≠ [] →
  loads (dumps (JObject ms) ++ rest) = Raise JSONDecodeError.
Proof.
  intros Hvalid Hms Hrest. unfold loads, dumps.
  pose proof (encode_starts (JObject ms) rest) as Hstart.
  replace (starts_with_bom (encode (JObject ms) ++ rest)) with false.
  2:{ destruct (encode (JObject ms) ++ rest) as [|c r]; [done|]. cbn in Hstart |- *.
      unfold head_char in Hstart. symmetry. apply N.eqb_neq. lia. }
  rewrite (skip_ws_starts _ Hstart).
  rewrite scan_once_object; [|exact Hvalid|exact Hms|].
  - destruct (skip_ws rest); [done|reflexivity].
  - unfold fuel_for. pose proof (size_le_length (JObject ms)). rewrite length_app. lia.
Qed.

End JsonFacts.

(** * Facts about the wire protocol *)

Module ProtocolFacts.
Import Json Wire Protocol JsonFacts.

(** *** Length prefix *)

Lemma unpack_pack_u32 (n : N) (bs : list N) :
  pack_u32 n = Ok bs → unpack_u32 bs = Ok n ∧ length bs = 4.
Proof.
  unfold pack_u32. destruct (N.ltb_spec n 4294967296); [|done].
  intros [= <-]. split; [|done]. cbn. f_equal. lia.
Qed.

(** *** The receive loop *)

Definition nonempty_chunks (sock : socket) : Prop := Forall (fun c => c ≠ []) sock.

Lemma recv_spec (sock : socket) (n : nat) :
  nonempty_chunks sock → 0 < n →
  let '(chunk, sock') := recv sock n in
  nonempty_chunks sock'
  ∧ concat sock = chunk ++ concat sock'
  ∧ length chunk ≤ n
  ∧ (chunk = [] → sock = []).
Proof.
  intros Hne Hn. destruct sock as [|c rest]; cbn [recv].
  - repeat split; try done. cbn. lia.
  - apply Forall_cons in Hne as [Hc Hrest].
    destruct (Nat.leb_spec (length c) n).
    + repeat split; try done.
    + split; [|split; [|split]].
      * apply Forall_cons. split; [|done]. intros Hd.
        apply (f_equal length) in Hd. rewrite length_drop in Hd. cbn in Hd. lia.
      * cbn. by rewrite app_assoc, take_drop.
      * rewrite length_take. lia.
      * intros Ht. apply (f_equal length) in Ht. rewrite length_take in Ht.
        cbn in Ht. lia.
Qed.

(** With enough fuel the loop delivers exactly the missing bytes when the
    stream has them, and raises [ConnectionError] when it ends first. *)
Lemma recv_loop_spec (fuel need cap : nat) :
  0 < cap →
  ∀ (buf : list N) (sock : socket),
    nonempty_chunks sock →
    need - length buf ≤ fuel →
    let missing := need - length buf in
    if (missing <=? length (concat sock))%nat then
      ∃ sock', recv_loop fuel need cap buf sock
               = Some (Ok (buf ++ take missing (concat sock), sock'))
               ∧ nonempty_chunks sock'
               ∧ concat sock' = drop missing (concat sock)
    else recv_loop fuel need cap buf sock = Some (Raise ConnectionError).
Proof.
  intros Hcap. induction fuel as [|fuel IH]; intros buf sock Hne Hfuel missing.
  - assert (missing = 0) as -> by (unfold missing; lia).
    cbn [Nat.leb]. exists sock. cbn [recv_loop].
    destruct (Nat.ltb_spec (length buf) need); [lia|].
    rewrite take_0, app_nil_r, drop_0. done.
  - cbn [recv_loop]. destruct (Nat.ltb_spec (length buf) need) as [Hlt|Hge].
    2:{ assert (missing = 0) as -> by (unfold missing; lia).
        cbn [Nat.leb]. exists sock. by rewrite take_0, app_nil_r, drop_0. }
    pose proof (recv_spec sock (Nat.min (need - length buf) cap) Hne ltac:(lia)) as Hrecv.
    destruct (recv sock (Nat.min (need - length buf) cap)) as [chunk sock'].
    destruct Hrecv as (Hne' & Hcat & Hlen & Hempty).
    destruct chunk as [|b chunk].
    + rewrite (Hempty eq_refl). cbn [concat length].
      destruct (Nat.leb_spec missing 0); [unfold missing in *; lia|done].
    + specialize (IH (buf ++ b :: chunk) sock' Hne').
      rewrite length_app in IH. cbn [length] in *.
      specialize (IH ltac:(lia)). cbn zeta in IH.
      rewrite Hcat, length_app. cbn [length].
      replace (need - (length buf + S (length chunk))) with (missing - S (length chunk)) in IH
        by (unfold missing; lia).
      destruct (Nat.leb_spec (missing - S (length chunk)) (length (concat sock'))) as [Hle|Hgt].
      * destruct (Nat.leb_spec missing (S (length chunk) + length (concat sock'))); [|lia].
        destruct IH as (sock'' & -> & Hne'' & Hcat'').
        exists sock''. split; [|split; [done|]].
        -- do 3 f_equal. rewrite <- app_assoc. f_equal.
           rewrite take_app_ge by (unfold missing in *; cbn [length]; lia).
           cbn [length]. done.
        -- rewrite Hcat''. rewrite drop_app_ge by (unfold missing in *; cbn [length]; lia).
           cbn [length]. done.
      * destruct (Nat.leb_spec missing (S (length chunk) + length (concat sock'))); [lia|].
        exact IH.
Qed.

(** *** The frame body *)

(** The dictionary [serialize] encodes. *)
Definition msg_dict (tag : json) (payload : json) : json :=
  JObject [(str "type", tag); (str "data", payload)].

Lemma valid_msg_dict (tag payload : json) :
  valid tag = true → valid payload = true → valid (msg_dict tag payload) = true.
Proof. intros Ht Hp. cbn. by rewrite Ht, Hp. Qed.

Lemma getitem_type (tag payload : json) :
  getitem (msg_dict tag payload) (str "type") = Ok tag.
Proof. reflexivity. Qed.

Lemma getitem_data (tag payload : json) :
  getitem (msg_dict tag payload) (str "data") = Ok payload.
Proof. reflexivity. Qed.

Lemma MessageType_of_value (t : MessageType) : MessageType_of (JInt (value t)) = Ok t.
Proof. by destruct t. Qed.

Lemma MessageType_of_unknown (n : Z) :
  (n < 1 ∨ 8 < n)%Z → MessageType_of (JInt n) = Raise ValueError.
Proof.
  intros Hn. unfold MessageType_of, members. cbn [filter list_filter equals_int value].
  repeat (destruct (decide _) as [Heq|_]; [apply Z.eqb_eq in Heq; lia|]).
  done.
Qed.

(** What [deserialize] does on the encoding of a valid JSON value: the
    text is ASCII, and [loads] returns the value. *)
Lemma deserialize_dumps (v : json) :
  valid v = true →
  deserialize (dumps v)
  = let* tag := getitem v (str "type") in
    let* msg_type := MessageType_of tag in
    let* msg_data := getitem v (str "data") in
    Ok {| msg_type := msg_type; data := msg_data |}.
Proof.
  intros Hv. unfold deserialize.
  rewrite utf8_decode_ascii by (by apply ascii_encode).
  cbn [rbind]. by rewrite loads_dumps.
Qed.

Lemma deserialize_msg_dict (t : MessageType) (payload : json) :
  valid payload = true →
  deserialize (dumps (msg_dict (JInt (value t)) payload))
  = Ok {| msg_type := t; data := payload |}.
Proof.
  intros Hp. rewrite deserialize_dumps by (by apply valid_msg_dict).
  rewrite getitem_type, getitem_data. cbn [rbind]. by rewrite MessageType_of_value.
Qed.

Lemma serialize_unfold (m : Message) :
  serialize m
  = let* json_bytes := utf8_encode (dumps (msg_dict (JInt (value (msg_type m))) (data m))) in
    let* length_prefix := pack_u32 (N.of_nat (length json_bytes)) in
    Ok (length_prefix ++ json_bytes).
Proof. reflexivity. Qed.

Lemma serialize_body (m : Message) :
  valid (data m) = true →
  serialize m
  = let* length_prefix :=
      pack_u32 (N.of_nat (length (dumps (msg_dict (JInt (value (msg_type m))) (data m))))) in
    Ok (length_prefix ++ dumps (msg_dict (JInt (value (msg_type m))) (data m))).
Proof.
  intros Hv. rewrite serialize_unfold.
  rewrite utf8_encode_ascii; [reflexivity|].
  apply ascii_encode. apply valid_msg_dict; [reflexivity|exact Hv].
Qed.

Lemma serialize_frame (m : Message) (frame : list N) :
  valid (data m) = true →
  serialize m = Ok frame →
  ∃ prefix, frame = prefix ++ dumps (msg_dict (JInt (value (msg_type m))) (data m))
            ∧ pack_u32 (N.of_nat (length (dumps (msg_dict (JInt (value (msg_type m)))
                                                          (data m))))) = Ok prefix
            ∧ length prefix = 4.
Proof.
  intros Hv Hs. rewrite (serialize_body m Hv) in Hs.
  destruct (pack_u32 _) as [prefix|] eqn:Hp; cbn [rbind] in Hs; [|discriminate Hs].
  injection Hs as Hs. exists prefix. split; [symmetry; exact Hs|].
  split; [reflexivity|]. apply unpack_pack_u32 in Hp. tauto.
Qed.

(** C1.  Round trip: for every message whose payload is a valid JSON value
    (in particular a dictionary), whenever [serialize] produces a frame,
    [deserialize] on the frame without its four length bytes returns a
    message with the same kind and the same payload; and [serialize] does
    produce a frame whenever the body is shorter than 2^32 bytes. *)
Theorem serialize_deserialize_roundtrip (m : Message) :
  valid (data m) = true →
  (∀ frame, serialize m = Ok frame → deserialize (drop 4 frame) = Ok m)
  ∧ ((N.of_nat (length (dumps (msg_dict (JInt (value (msg_type m))) (data m))))
      < 4294967296)%N → ∃ frame, serialize m = Ok frame).
Proof.
  intros Hv. split.
  - intros frame Hs. destruct (serialize_frame m frame Hv Hs) as (prefix & -> & _ & Hlen).
    replace (drop 4) with (@drop N (length prefix)) by (rewrite Hlen; reflexivity).
    rewrite drop_app_length.
    rewrite (deserialize_msg_dict _ _ Hv). destruct m; reflexivity.
  - intros Hlen. rewrite (serialize_body m Hv). unfold pack_u32.
    apply N.ltb_lt in Hlen. rewrite Hlen. cbn [rbind]. eexists. reflexivity.
Qed.

Definition sample_payload : json :=
  JObject [(str "symbol", JString (str "AAPL"));
           (str "last_price",
            JFloat {| fr_neg := false; fr_int := 150; fr_frac := Some [0%N];
                      fr_exp := None |});
           (str "bids", JArray [JArray [JInt 100; JInt 10]])].

Definition sample_message : Message :=
  {| msg_type := MARKET_DATA; data := sample_payload |}.

Lemma serialize_deserialize_roundtrip_witness :
  ∃ frame, serialize sample_message = Ok frame
           ∧ deserialize (drop 4 frame) = Ok sample_message.
Proof.
  destruct (serialize_deserialize_roundtrip sample_message eq_refl) as [Hback Hframe].
  destruct Hframe as [frame Hs]; [vm_compute; reflexivity|].
  exists frame. split; [exact Hs|]. apply Hback. exact Hs.
Defined.

(** *** Reading a frame from a stream *)

(** A stream that holds a whole frame, followed by anything: the two loops
    deliver the body whatever the segmentation, [read_message] returns what
    [deserialize] makes of the body, and leaves the rest of the stream. *)
Lemma read_message_frame (prefix body rest : list N) (sock : socket) :
  pack_u32 (N.of_nat (length body)) = Ok prefix →
  nonempty_chunks sock →
  concat sock = prefix ++ body ++ rest →
  ∃ sock', read_message sock
           = Some (let* message := deserialize body in
                   Ok (message, (N.of_nat (length body) + 4)%N, sock'))
           ∧ nonempty_chunks sock'
           ∧ concat sock' = rest.
Proof.
  intros Hp Hne Hcat. apply unpack_pack_u32 in Hp as [Hun Hlen].
  pose proof (recv_loop_spec 4 4 4 ltac:(lia) [] sock Hne ltac:(cbn [length]; lia)) as Hhdr.
  cbn zeta in Hhdr. cbn [length app] in Hhdr. rewrite Nat.sub_0_r in Hhdr.
  rewrite Hcat in Hhdr. rewrite length_app, Hlen in Hhdr.
  destruct (Nat.leb_spec 4 (4 + length (body ++ rest))) as [_|Hbad]; [|lia].
  destruct Hhdr as (sock1 & Hloop1 & Hne1 & Hcat1).
  replace (take 4) with (@take N (length prefix)) in Hloop1 by (rewrite Hlen; reflexivity).
  replace (drop 4) with (@drop N (length prefix)) in Hcat1 by (rewrite Hlen; reflexivity).
  rewrite take_app_length in Hloop1. rewrite drop_app_length in Hcat1.
  unfold read_message. rewrite Hloop1, Hun. rewrite Nat2N.id.
  pose proof (recv_loop_spec (length body) (length body) 4096 ltac:(lia) [] sock1 Hne1
                ltac:(cbn [length]; lia)) as Hbody.
  cbn zeta in Hbody. cbn [length app] in Hbody. rewrite Nat.sub_0_r in Hbody.
  rewrite Hcat1 in Hbody. rewrite length_app in Hbody.
  destruct (Nat.leb_spec (length body) (length body + length rest)) as [_|Hbad]; [|lia].
  destruct Hbody as (sock2 & Hloop2 & Hne2 & Hcat2).
  rewrite take_app_length in Hloop2. rewrite drop_app_length in Hcat2.
  rewrite Hloop2. exists sock2. split; [reflexivity|]. split; assumption.
Qed.

(** A stream that ends inside a frame: [ConnectionError]. *)
Lemma read_message_truncated (prefix body : list N) (sock : socket) (n : nat) :
  pack_u32 (N.of_nat (length body)) = Ok prefix →
  nonempty_chunks sock →
  n < 4 + length body →
  concat sock = take n (prefix ++ body) →
  read_message sock = Some (Raise ConnectionError).
Proof.
  intros Hp Hne Hn Hcat. apply unpack_pack_u32 in Hp as [Hun Hlen].
  pose proof (recv_loop_spec 4 4 4 ltac:(lia) [] sock Hne ltac:(cbn [length]; lia)) as Hhdr.
  cbn zeta in Hhdr. cbn [length app] in Hhdr. rewrite Nat.sub_0_r in Hhdr.
  assert (length (concat sock) = n) as Hlc.
  { rewrite Hcat, length_take, length_app. lia. }
  rewrite Hlc in Hhdr. unfold read_message.
  destruct (Nat.leb_spec 4 n) as [Hge|Hlt].
  2:{ rewrite Hhdr. reflexivity. }
  destruct Hhdr as (sock1 & Hloop1 & Hne1 & Hcat1).
  rewrite Hcat in Hloop1, Hcat1.
  rewrite take_take in Hloop1. rewrite Nat.min_l in Hloop1 by exact Hge.
  replace (take 4) with (@take N (length prefix)) in Hloop1 by (rewrite Hlen; reflexivity).
  rewrite take_app_length in Hloop1.
  rewrite Hloop1, Hun. rewrite Nat2N.id.
  pose proof (recv_loop_spec (length body) (length body) 4096 ltac:(lia) [] sock1 Hne1
                ltac:(cbn [length]; lia)) as Hbody.
  cbn zeta in Hbody. cbn [length app] in Hbody. rewrite Nat.sub_0_r in Hbody.
  assert (length (concat sock1) = n - 4) as Hl1.
  { rewrite Hcat1, length_drop, length_take, length_app. lia. }
  rewrite Hl1 in Hbody.
  destruct (Nat.leb_spec (length body) (n - 4)) as [Hbad|_]; [lia|].
  rewrite Hbody. reflexivity.
Qed.

(** C2.  Fragmentation: let [frame] be the encoding of a message with a
    valid payload; its first four bytes are the big-endian length [L] of
    the rest.  Whatever way the stream cuts the frame into non-empty
    segments, [read_message] returns the message, [L + 4] as the number of
    bytes consumed, and a drained stream.  If the stream ends after only
    [n < L + 4] bytes of the frame, [read_message] raises
    [ConnectionError]. *)
Theorem read_message_fragmented (m : Message) (frame : list N) (sock : socket) :
  valid (data m) = true →
  serialize m = Ok frame →
  nonempty_chunks sock →
  let L := N.of_nat (length (drop 4 frame)) in
  unpack_u32 (take 4 frame) = Ok L
  ∧ (concat sock = frame → read_message sock = Some (Ok (m, (L + 4)%N, [])))
  ∧ (∀ n, n < length frame → concat sock = take n frame →
          read_message sock = Some (Raise ConnectionError)).
Proof.
  intros Hv Hs Hne L. destruct (serialize_frame m frame Hv Hs) as (prefix & Hf & Hp & Hlen).
  clear Hs. revert L Hf Hp.
  generalize (eq_refl (dumps (msg_dict (JInt (value (msg_type m))) (data m)))).
  generalize (dumps (msg_dict (JInt (value (msg_type m))) (data m))) at 1 3 4 as body.
  intros body Hbody L Hf Hp. subst frame.
  destruct (unpack_pack_u32 _ _ Hp) as [Hun _].
  assert (drop 4 (prefix ++ body) = body) as Hdrop.
  { replace (drop 4) with (@drop N (length prefix)) by (rewrite Hlen; reflexivity).
    apply drop_app_length. }
  assert (take 4 (prefix ++ body) = prefix) as Htake.
  { replace (take 4) with (@take N (length prefix)) by (rewrite Hlen; reflexivity).
    apply take_app_length. }
  unfold L. rewrite Hdrop, Htake. split; [exact Hun|]. split.
  - intros Hcat.
    destruct (read_message_frame prefix body [] sock Hp Hne) as (sock' & Hr & Hne' & Hcat').
    { rewrite app_nil_r. exact Hcat. }
    rewrite Hr, Hbody. rewrite (deserialize_msg_dict _ _ Hv). cbn [rbind].
    destruct sock' as [|c sock'].
    + destruct m; reflexivity.
    + apply Forall_cons in Hne' as [Hc _]. destruct c; [contradiction|discriminate Hcat'].
  - intros n Hn Hcat. rewrite length_app, Hlen in Hn.
    exact (read_message_truncated prefix body sock n Hp Hne Hn Hcat).
Qed.

(** One byte per segment. *)
Definition bytewise (bs : list N) : socket := map (fun b => [b]) bs.

Lemma nonempty_bytewise (bs : list N) : nonempty_chunks (bytewise bs).
Proof. induction bs; constructor; [discriminate|assumption]. Defined.

Lemma concat_bytewise (bs : list N) : concat (bytewise bs) = bs.
Proof. induction bs as [|b bs IH]; [reflexivity|]. cbn. f_equal. exact IH. Defined.

Definition sample_frame : list N :=
  Eval vm_compute in
    match serialize sample_message with Ok frame => frame | Raise _ => [] end.

Lemma read_message_fragmented_witness :
  read_message (bytewise sample_frame)
  = Some (Ok (sample_message, N.of_nat (length sample_frame), []))
  ∧ read_message (bytewise (take 40 sample_frame)) = Some (Raise ConnectionError).
Proof.
  split.
  - apply (read_message_fragmented sample_message sample_frame (bytewise sample_frame)
             eq_refl eq_refl (nonempty_bytewise _)).
    apply concat_bytewise.
  - apply (read_message_fragmented sample_message sample_frame
             (bytewise (take 40 sample_frame))
             eq_refl eq_refl (nonempty_bytewise _)) with (n := 40).
    + vm_compute. lia.
    + apply concat_bytewise.
Defined.

(** *** Payload shapes *)

(** Follows the spec's words, not the code (which has no such check): "the
    payload shape is determined solely by kind"; a MarketData or
    NewsSentiment payload carries a symbol, and every payload is a
    structured value with named fields.  This is the part of the expected
    shape that the text fixes: the payload is an object, and for the two
    kinds whose fields the text lists it has a [symbol] member that is a
    string. *)
Definition spec_expected_shape (t : MessageType) (payload : json) : bool :=
  match payload with
  | JObject ms =>
      match t with
      | MARKET_DATA | NEWS_SENTIMENT =>
          match getitem payload (str "symbol") with
          | Ok (JString _) => true
          | _ => false
          end
      | _ => true
      end
  | _ => false
  end.

(** C8, as stated, fails: the body [{"type": 1, "data": {}}] carries the
    MarketData tag and an empty payload, which has none of the fields of a
    MarketData payload, and [deserialize] returns it as a message. *)
Lemma deserialize_accepts_wrong_shape :
  ¬ (∀ (t : MessageType) (payload : json),
       valid payload = true →
       spec_expected_shape t payload = false →
       ∃ e, deserialize (dumps (msg_dict (JInt (value t)) payload)) = Raise e).
Proof.
  intros Hclaim.
  destruct (Hclaim MARKET_DATA (JObject []) eq_refl eq_refl) as [e He].
  vm_compute in He. discriminate He.
Qed.

(** C8, amended.  [deserialize] looks at the tag and at nothing inside the
    payload: for every kind and every JSON value as payload, the body
    [{"type": tag, "data": payload}] is returned as a message of that kind
    with that payload.  What it rejects is a tag that is no member of
    [MessageType] ([ValueError]) and a body without a ["data"] member
    ([KeyError]). *)
Theorem deserialize_checks_no_shape (t : MessageType) (payload : json) :
  valid payload = true →
  deserialize (dumps (msg_dict (JInt (value t)) payload))
  = Ok {| msg_type := t; data := payload |}
  ∧ (∀ n : Z, (n < 1 ∨ 8 < n)%Z →
       deserialize (dumps (msg_dict (JInt n) payload)) = Raise ValueError)
  ∧ deserialize (dumps (JObject [(str "type", JInt (value t))])) = Raise KeyError.
Proof.
  intros Hp. split; [exact (deserialize_msg_dict t payload Hp)|]. split.
  - intros n Hn. rewrite deserialize_dumps by (apply valid_msg_dict; [reflexivity|exact Hp]).
    rewrite getitem_type. cbn [rbind]. rewrite (MessageType_of_unknown n Hn). reflexivity.
  - rewrite deserialize_dumps by reflexivity.
    change (getitem (JObject [(str "type", JInt (value t))]) (str "type"))
      with (Ok (A := json) (JInt (value t))).
    cbn [rbind]. rewrite MessageType_of_value. reflexivity.
Qed.

Lemma deserialize_checks_no_shape_witness :
  deserialize (dumps (msg_dict (JInt 4) (JInt 5)))
  = Ok {| msg_type := ORDER; data := JInt 5 |}
  ∧ deserialize (dumps (msg_dict (JInt 9) (JInt 5))) = Raise ValueError.
Proof.
  destruct (deserialize_checks_no_shape ORDER (JInt 5) eq_refl) as (Hok & Hbad & _).
  split; [exact Hok|]. apply Hbad. right. lia.
Defined.

(** *** Frames one after another *)

(** The reader stops at the end of a frame. *)
Lemma read_message_serialized (m : Message) (frame rest : list N) (sock : socket) :
  valid (data m) = true →
  serialize m = Ok frame →
  nonempty_chunks sock →
  concat sock = frame ++ rest →
  ∃ sock', read_message sock = Some (Ok (m, N.of_nat (length frame), sock'))
           ∧ nonempty_chunks sock'
           ∧ concat sock' = rest.
Proof.
  intros Hv Hs Hne Hcat.
  destruct (serialize_frame m frame Hv Hs) as (prefix & Hf & Hp & Hlen). clear Hs.
  revert Hf Hp.
  generalize (eq_refl (dumps (msg_dict (JInt (value (msg_type m))) (data m)))).
  generalize (dumps (msg_dict (JInt (value (msg_type m))) (data m))) at 1 3 4 as body.
  intros body Hbody Hf Hp. subst frame. rewrite <- app_assoc in Hcat.
  destruct (read_message_frame prefix body rest sock Hp Hne Hcat) as (sock' & Hr & Hne' & Hc).
  exists sock'. split; [|split; assumption].
  rewrite Hr, Hbody, (deserialize_msg_dict _ _ Hv). cbn [rbind].
  rewrite length_app, Hlen. destruct m. do 4 f_equal. lia.
Qed.

(** Two messages written back to back are read one after the other,
    however the stream is cut: the first read takes the bytes of the first
    frame and no more, the second returns the second message and drains the
    stream. *)
Theorem read_message_back_to_back (m1 m2 : Message) (frame1 frame2 : list N)
    (sock : socket) :
  valid (data m1) = true → valid (data m2) = true →
  serialize m1 = Ok frame1 → serialize m2 = Ok frame2 →
  nonempty_chunks sock →
  concat sock = frame1 ++ frame2 →
  ∃ sock', read_message sock = Some (Ok (m1, N.of_nat (length frame1), sock'))
           ∧ read_message sock' = Some (Ok (m2, N.of_nat (length frame2), [])).
Proof.
  intros Hv1 Hv2 Hs1 Hs2 Hne Hcat.
  destruct (read_message_serialized m1 frame1 frame2 sock Hv1 Hs1 Hne Hcat)
    as (sock' & Hr1 & Hne' & Hcat').
  exists sock'. split; [exact Hr1|].
  destruct (read_message_serialized m2 frame2 [] sock' Hv2 Hs2 Hne')
    as (sock'' & Hr2 & Hne'' & Hcat'').
  { rewrite app_nil_r. exact Hcat'. }
  rewrite Hr2. destruct sock'' as [|c sock'']; [reflexivity|].
  apply Forall_cons in Hne'' as [Hc _]. destruct c; [contradiction|discriminate Hcat''].
Qed.

Definition heartbeat : Message := {| msg_type := HEARTBEAT; data := JObject [] |}.

Definition heartbeat_frame : list N :=
  Eval vm_compute in
    match serialize heartbeat with Ok frame => frame | Raise _ => [] end.

Lemma read_message_back_to_back_witness :
  ∃ sock', read_message (bytewise (sample_frame ++ heartbeat_frame))
           = Some (Ok (sample_message, N.of_nat (length sample_frame), sock'))
           ∧ read_message sock'
             = Some (Ok (heartbeat, N.of_nat (length heartbeat_frame), [])).
Proof.
  apply (read_message_back_to_back sample_message heartbeat sample_frame heartbeat_frame
           (bytewise (sample_frame ++ heartbeat_frame)) eq_refl eq_refl eq_refl eq_refl
           (nonempty_bytewise _) (concat_bytewise _)).
Defined.

(** *** The fuel of the receive loops is enough *)

(** On a stream whose segments are non-empty, [read_message] returns or
    raises: neither loop runs out of fuel. *)
Lemma read_message_fuel (sock : socket) :
  nonempty_chunks sock → ∃ r, read_message sock = Some r.
Proof.
  intros Hne. unfold read_message.
  pose proof (recv_loop_spec 4 4 4 ltac:(lia) [] sock Hne ltac:(cbn [length]; lia)) as Hhdr.
  cbn zeta in Hhdr.
  destruct (4 - length (@nil N) <=? length (concat sock))%nat.
  2:{ rewrite Hhdr. eauto. }
  destruct Hhdr as (sock1 & -> & Hne1 & _).
  destruct (unpack_u32 _) as [len|e]; [|eauto].
  pose proof (recv_loop_spec (N.to_nat len) (N.to_nat len) 4096 ltac:(lia) [] sock1 Hne1
                ltac:(cbn [length]; lia)) as Hbody.
  cbn zeta in Hbody.
  destruct (N.to_nat len - length (@nil N) <=? length (concat sock1))%nat.
  2:{ rewrite Hbody. eauto. }
  destruct Hbody as (sock2 & -> & _). eauto.
Qed.

End ProtocolFacts.

(** * Facts about the shared order book *)

Module SharedMemoryFacts.
Import Json Wire SharedMemory JsonFacts ProtocolFacts.

(** The dictionary [write_orderbook] encodes. *)
Definition book (bids asks : list (json * json)) : json :=
  JObject [(str "bids", level_list bids); (str "asks", level_list asks)].

Lemma capacity_value : Z.of_nat (MEMORY_SIZE - HEADER_SIZE) = 65520%Z.
Proof. vm_compute. reflexivity. Qed.

Lemma memory_size_value : Z.of_nat MEMORY_SIZE = 65536%Z.
Proof. vm_compute. reflexivity. Qed.

Lemma header_size_value : HEADER_SIZE = 16.
Proof. reflexivity. Qed.

(** *** Slice assignment *)

Lemma slice_assign_inside (buf : list N) (a : nat) (bytes : list N) :
  a + length bytes ≤ length buf →
  slice_assign buf a (a + length bytes) bytes
  = Ok (take a buf ++ bytes ++ drop (a + length bytes) buf).
Proof.
  intros Hfit. unfold slice_assign.
  rewrite (Nat.min_l (a + length bytes) (length buf)) by exact Hfit.
  rewrite (Nat.min_l a (a + length bytes)) by lia.
  replace (a + length bytes - a) with (length bytes) by lia.
  rewrite Nat.eqb_refl. reflexivity.
Qed.

(** *** The header *)

Lemma length_pack_u64 (n : N) : length (pack_u64 n) = 8.
Proof. reflexivity. Qed.

Lemma pack_header_ok (ts : N) (nb na : nat) :
  (N.of_nat nb < 4294967296)%N → (N.of_nat na < 4294967296)%N →
  ∃ b a, pack_u32 (N.of_nat nb) = Ok b ∧ pack_u32 (N.of_nat na) = Ok a
         ∧ pack_header ts nb na = Ok (pack_u64 ts ++ b ++ a)
         ∧ length (pack_u64 ts ++ b ++ a) = 16.
Proof.
  intros Hb Ha. unfold pack_header.
  destruct (pack_u32 (N.of_nat nb)) as [b|] eqn:Eb.
  2:{ unfold pack_u32 in Eb. apply N.ltb_lt in Hb. rewrite Hb in Eb. discriminate Eb. }
  destruct (pack_u32 (N.of_nat na)) as [a|] eqn:Ea.
  2:{ unfold pack_u32 in Ea. apply N.ltb_lt in Ha. rewrite Ha in Ea. discriminate Ea. }
  exists b, a. split; [reflexivity|]. split; [reflexivity|]. split; [reflexivity|].
  apply unpack_pack_u32 in Eb as [_ Hlb]. apply unpack_pack_u32 in Ea as [_ Hla].
  rewrite !length_app, length_pack_u64, Hlb, Hla. reflexivity.
Qed.

(** *** The number of levels is bounded by the length of the text *)

Lemma list_sum_succ_length {A} (f : A → nat) (l : list A) :
  length l ≤ list_sum (map (fun x => S (f x)) l).
Proof.
  induction l as [|x l IH]; [reflexivity|].
  change (S (length l) ≤ S (f x) + list_sum (map (fun x => S (f x)) l)). lia.
Qed.

Lemma levels_le_size (levels : list (json * json)) :
  length levels < size (level_list levels).
Proof.
  unfold level_list. cbn [size].
  pose proof (list_sum_succ_length size (map (fun l => JArray [fst l; snd l]) levels)) as H.
  rewrite length_map in H. lia.
Qed.

Lemma levels_le_text (bids asks : list (json * json)) :
  length bids < 2 * length (dumps (book bids asks))
  ∧ length asks < 2 * length (dumps (book bids asks)).
Proof.
  pose proof (size_le_length (book bids asks)) as H.
  pose proof (levels_le_size bids). pose proof (levels_le_size asks).
  unfold book in H at 1. cbn [size map snd list_sum fold_right] in H.
  unfold dumps. lia.
Qed.

(** *** Writing *)

Lemma write_orderbook_unfold (buf : list N) (bids asks : list (json * json)) (ts : N) :
  write_orderbook buf bids asks ts
  = match utf8_encode (dumps (book bids asks)) with
    | Raise e => (buf, Raise e)
    | Ok json_bytes =>
        if (MEMORY_SIZE - HEADER_SIZE <? length json_bytes)%nat then (buf, Raise ValueError)
        else
          match pack_header ts (length bids) (length asks) with
          | Raise e => (buf, Raise e)
          | Ok header =>
              match slice_assign buf 0 HEADER_SIZE header with
              | Raise e => (buf, Raise e)
              | Ok buf1 =>
                  match slice_assign buf1 HEADER_SIZE (HEADER_SIZE + length json_bytes)
                          json_bytes with
                  | Raise e => (buf1, Raise e)
                  | Ok buf2 => (buf2, Ok tt)
                  end
              end
          end
    end.
Proof. reflexivity. Qed.

(** A payload over the capacity: [ValueError], nothing written. *)
Lemma write_orderbook_too_large (buf : list N) (bids asks : list (json * json)) (ts : N) :
  valid (book bids asks) = true →
  MEMORY_SIZE - HEADER_SIZE < length (dumps (book bids asks)) →
  write_orderbook buf bids asks ts = (buf, Raise ValueError).
Proof.
  intros Hv Hbig. rewrite write_orderbook_unfold.
  rewrite utf8_encode_ascii by (apply ascii_encode; exact Hv).
  apply Nat.ltb_lt in Hbig. rewrite Hbig. reflexivity.
Qed.

(** A payload within the capacity: the header and the payload replace the
    first bytes of the segment, the rest stays. *)
Lemma write_orderbook_fits (buf : list N) (bids asks : list (json * json)) (ts : N) :
  length buf = MEMORY_SIZE →
  valid (book bids asks) = true →
  length (dumps (book bids asks)) ≤ MEMORY_SIZE - HEADER_SIZE →
  ∃ header,
    pack_header ts (length bids) (length asks) = Ok header
    ∧ length header = HEADER_SIZE
    ∧ write_orderbook buf bids asks ts
      = (header ++ dumps (book bids asks)
           ++ drop (HEADER_SIZE + length (dumps (book bids asks))) buf, Ok tt).
Proof.
  intros Hbuf Hv Hfit. rewrite write_orderbook_unfold.
  rewrite utf8_encode_ascii by (apply ascii_encode; exact Hv).
  pose proof (levels_le_text bids asks) as [Hnb Hna].
  pose proof capacity_value as Hcap. pose proof memory_size_value as Hms.
  pose proof header_size_value as Hhs.
  revert Hfit Hnb Hna. generalize (dumps (book bids asks)) as payload.
  intros payload Hfit Hnb Hna.
  destruct (Nat.ltb_spec (MEMORY_SIZE - HEADER_SIZE) (length payload)) as [Hbad|_]; [lia|].
  destruct (pack_header_ok ts (length bids) (length asks)) as (b & a & _ & _ & Hh & Hlen);
    [lia|lia|].
  rewrite Hh. exists (pack_u64 ts ++ b ++ a).
  split; [reflexivity|]. split; [exact Hlen|].
  set (header := pack_u64 ts ++ b ++ a) in *.
  replace HEADER_SIZE with (0 + length header) at 1 by (rewrite Hlen; reflexivity).
  rewrite slice_assign_inside by lia.
  rewrite take_0. cbn [app]. rewrite Nat.add_0_l, Hlen.
  rewrite slice_assign_inside by (rewrite length_app, length_drop; lia).
  replace HEADER_SIZE with (length header) at 1 by (rewrite Hlen; reflexivity).
  rewrite take_app_length.
  rewrite Hhs. rewrite drop_app_ge by lia. rewrite drop_drop, Hlen.
  replace (16 + (16 + length payload - 16)) with (16 + length payload) by lia.
  reflexivity.
Qed.

(** C4.  The capacity of the payload region is 65536 - 16 bytes.  On a
    segment of 65536 bytes, a write whose encoded payload has at most that
    many bytes (in particular exactly that many) succeeds and stores the
    payload behind the header; a write whose payload is longer (in
    particular by one byte) raises [ValueError] and leaves every byte of
    the segment as it was. *)
Theorem write_orderbook_capacity (buf : list N) (bids asks : list (json * json)) (ts : N) :
  length buf = MEMORY_SIZE →
  valid (book bids asks) = true →
  let payload := dumps (book bids asks) in
  Z.of_nat (MEMORY_SIZE - HEADER_SIZE) = 65520%Z
  ∧ (length payload ≤ MEMORY_SIZE - HEADER_SIZE →
     ∃ buf', write_orderbook buf bids asks ts = (buf', Ok tt)
             ∧ length buf' = MEMORY_SIZE
             ∧ take (length payload) (drop HEADER_SIZE buf') = payload)
  ∧ (MEMORY_SIZE - HEADER_SIZE < length payload →
     write_orderbook buf bids asks ts = (buf, Raise ValueError)).
Proof.
  intros Hbuf Hv payload. split; [exact capacity_value|]. split.
  - intros Hfit.
    destruct (write_orderbook_fits buf bids asks ts Hbuf Hv Hfit) as (header & _ & Hlen & Hw).
    fold payload in Hw. rewrite Hw. eexists. split; [reflexivity|].
    pose proof capacity_value as Hcap. pose proof memory_size_value as Hms.
    pose proof header_size_value as Hhs. split.
    + rewrite !length_app, length_drop. lia.
    + rewrite <- Hlen at 1. rewrite drop_app_length. apply take_app_length.
  - intros Hbig. exact (write_orderbook_too_large buf bids asks ts Hv Hbig).
Qed.

(** Price levels [(1.0, 1.0)] and one level [(p, 1.0)] in front. *)
Definition one_point_zero (n : N) : json :=
  JFloat {| fr_neg := false; fr_int := n; fr_frac := Some [0%N]; fr_exp := None |}.

Definition levels_with (p n : N) : list (json * json) :=
  (one_point_zero p, one_point_zero 1)
  :: repeat (one_point_zero 1, one_point_zero 1) (N.to_nat n).

Lemma write_orderbook_capacity_witness :
  N.of_nat (length (dumps (book (levels_with 100 5457) []))) = 65520%N
  ∧ snd (write_orderbook create (levels_with 100 5457) [] 1) = Ok tt
  ∧ N.of_nat (length (dumps (book (levels_with 1000 5457) []))) = 65521%N
  ∧ write_orderbook create (levels_with 1000 5457) [] 1 = (create, Raise ValueError).
Proof.
  split; [vm_compute; reflexivity|]. split; [|split; [vm_compute; reflexivity|]].
  - destruct (write_orderbook_capacity create (levels_with 100 5457) [] 1) as (_ & Hok & _).
    + apply List.repeat_length.
    + vm_compute. reflexivity.
    + destruct Hok as (buf' & Hw & _).
      * apply Nat.leb_le. vm_compute. reflexivity.
      * rewrite Hw. reflexivity.
  - destruct (write_orderbook_capacity create (levels_with 1000 5457) [] 1) as (_ & _ & Hbad).
    + apply List.repeat_length.
    + vm_compute. reflexivity.
    + apply Hbad. apply Nat.ltb_lt. vm_compute. reflexivity.
Defined.

(** *** Reading *)

Lemma unpack_pack_u64 (n : N) :
  (n < 18446744073709551616)%N → unpack_u64 (pack_u64 n) = Ok n.
Proof. intros Hn. unfold pack_u64, unpack_u64. f_equal. lia. Qed.

Lemma unpack_pack_header (ts : N) (nb na : nat) (header : list N) :
  (ts < 18446744073709551616)%N →
  pack_header ts nb na = Ok header →
  unpack_header header = Ok (ts, N.of_nat nb, N.of_nat na).
Proof.
  intros Hts. unfold pack_header.
  pose proof (unpack_pack_u64 ts Hts) as Ht. pose proof (length_pack_u64 ts) as Hlt.
  revert Ht Hlt. generalize (pack_u64 ts) as t. intros t Ht Hlt.
  destruct (pack_u32 (N.of_nat nb)) as [b|] eqn:Eb; [|discriminate].
  destruct (pack_u32 (N.of_nat na)) as [a|] eqn:Ea; [|discriminate].
  cbn [rbind]. intros Hh. injection Hh as Hh. subst header.
  apply unpack_pack_u32 in Eb as [Hb Hlb]. apply unpack_pack_u32 in Ea as [Ha Hla].
  unfold unpack_header.
  rewrite !length_app, Hlt, Hlb, Hla. cbn [Nat.add Nat.eqb].
  replace (take 8) with (@take N (length t)) by (rewrite Hlt; reflexivity).
  rewrite take_app_length, Ht. cbn [rbind].
  replace (drop 8) with (@drop N (length t)) by (rewrite Hlt; reflexivity).
  rewrite drop_app_length.
  replace (take 4) with (@take N (length b)) by (rewrite Hlb; reflexivity).
  rewrite take_app_length, Hb. cbn [rbind].
  replace (drop 12 (t ++ b ++ a)) with a; [rewrite Ha; reflexivity|].
  rewrite app_assoc.
  replace 12 with (length (t ++ b)) by (rewrite length_app, Hlt, Hlb; reflexivity).
  rewrite drop_app_length. reflexivity.
Qed.

(** The scan for the first zero byte stops at the end of a text without
    zero bytes. *)
Lemma until_null_plain (s rest : list N) :
  plain s → (rest = [] ∨ ∃ r, rest = 0%N :: r) → until_null (s ++ rest) = s.
Proof.
  intros Hs Hrest. induction Hs as [|c s Hc _ IH].
  - destruct Hrest as [->|[r ->]]; reflexivity.
  - cbn [app until_null]. destruct (N.eqb_spec c 0) as [->|_]; [lia|]. f_equal. exact IH.
Qed.

Lemma unpack_levels_level_list (levels : list (json * json)) :
  unpack_levels (map (fun l => JArray [fst l; snd l]) levels) = Ok levels.
Proof.
  induction levels as [|[p s] levels IH]; [reflexivity|].
  cbn [map unpack_levels unpack2 py_iter rbind fst snd]. rewrite IH. reflexivity.
Qed.

(** What [read_orderbook] returns on a segment that holds a header, the
    text of a book, and then a zero byte or the end of the segment. *)
Lemma read_orderbook_written (header rest : list N) (bids asks : list (json * json))
    (ts nb na : N) :
  length header = HEADER_SIZE →
  unpack_header header = Ok (ts, nb, na) →
  is_zero_double ts = false →
  valid (book bids asks) = true →
  length (dumps (book bids asks)) ≤ MEMORY_SIZE - HEADER_SIZE →
  (length (dumps (book bids asks)) = MEMORY_SIZE - HEADER_SIZE ∨ ∃ r, rest = 0%N :: r) →
  read_orderbook (header ++ dumps (book bids asks) ++ rest)
  = Ok (Some {| timestamp := ts; bids := bids; asks := asks |}).
Proof.
  intros Hlen Hun Hts Hv Hfit Hrest. unfold read_orderbook.
  replace (take HEADER_SIZE (header ++ dumps (book bids asks) ++ rest)) with header
    by (rewrite <- Hlen; symmetry; apply take_app_length).
  replace (drop HEADER_SIZE (header ++ dumps (book bids asks) ++ rest))
    with (dumps (book bids asks) ++ rest)
    by (rewrite <- Hlen; symmetry; apply drop_app_length).
  rewrite Hun. cbn [rbind fst]. rewrite Hts.
  pose proof (plain_encode _ Hv) as Hplain. fold (dumps (book bids asks)) in Hplain.
  pose proof (loads_dumps _ Hv) as Hloads.
  revert Hfit Hrest Hplain Hloads. generalize (dumps (book bids asks)) as payload.
  intros payload Hfit Hrest Hplain Hloads.
  assert (until_null (take (MEMORY_SIZE - HEADER_SIZE) (payload ++ rest)) = payload) as ->.
  { destruct Hrest as [Hfull|[r ->]].
    - rewrite <- Hfull, take_app_length.
      rewrite <- (app_nil_r payload) at 1. apply until_null_plain; [exact Hplain|by left].
    - destruct (decide (length payload = MEMORY_SIZE - HEADER_SIZE)) as [Hfull|Hless].
      + rewrite <- Hfull, take_app_length.
        rewrite <- (app_nil_r payload) at 1. apply until_null_plain; [exact Hplain|by left].
      + rewrite take_app_ge by lia.
        replace (MEMORY_SIZE - HEADER_SIZE - length payload)
          with (S (MEMORY_SIZE - HEADER_SIZE - length payload - 1)) by lia.
        cbn [take]. apply until_null_plain; [exact Hplain|]. right. eauto. }
  rewrite (utf8_decode_ascii payload (plain_ascii _ Hplain)), Hloads.
  change (Protocol.getitem (book bids asks) (str "bids")) with (Ok (level_list bids)).
  change (Protocol.getitem (book bids asks) (str "asks")) with (Ok (level_list asks)).
  cbn [rbind level_list py_iter]. rewrite !unpack_levels_level_list. reflexivity.
Qed.

(** *** Writing, then reading *)

(** A non-zero time stamp is returned by the next read together with the
    levels that were written, provided the byte that follows the payload in
    the segment is zero (or the payload fills the segment).  On a fresh
    segment that byte is zero. *)
Theorem read_after_write (buf : list N) (bids asks : list (json * json)) (ts : N) :
  length buf = MEMORY_SIZE →
  valid (book bids asks) = true →
  length (dumps (book bids asks)) ≤ MEMORY_SIZE - HEADER_SIZE →
  (ts < 18446744073709551616)%N →
  is_zero_double ts = false →
  (length (dumps (book bids asks)) = MEMORY_SIZE - HEADER_SIZE
   ∨ buf !! (HEADER_SIZE + length (dumps (book bids asks))) = Some 0%N) →
  read_orderbook (fst (write_orderbook buf bids asks ts))
  = Ok (Some {| timestamp := ts; bids := bids; asks := asks |}).
Proof.
  intros Hbuf Hv Hfit Hts Hnz Hnext.
  destruct (write_orderbook_fits buf bids asks ts Hbuf Hv Hfit) as (header & Hh & Hlen & Hw).
  rewrite Hw. cbn [fst].
  apply (read_orderbook_written header _ bids asks ts _ _ Hlen
           (unpack_pack_header ts _ _ header Hts Hh) Hnz Hv Hfit).
  destruct Hnext as [Hfull|Hzero]; [by left|right].
  eexists. apply drop_S. exact Hzero.
Qed.

Definition sample_bids : list (json * json) :=
  [(one_point_zero 100, one_point_zero 10); (one_point_zero 99, one_point_zero 20)].

Definition sample_asks : list (json * json) := [(one_point_zero 101, one_point_zero 10)].

(** The bit pattern of the double [1700000000.0]. *)
Definition sample_time : N := 4744917124793761792.

Lemma read_after_write_witness :
  read_orderbook (fst (write_orderbook create sample_bids sample_asks sample_time))
  = Ok (Some {| timestamp := sample_time; bids := sample_bids; asks := sample_asks |}).
Proof.
  apply read_after_write.
  - apply List.repeat_length.
  - reflexivity.
  - apply Nat.leb_le. vm_compute. reflexivity.
  - reflexivity.
  - reflexivity.
  - right. vm_compute. reflexivity.
Defined.

(** A segment whose time stamp field is still zero holds no snapshot. *)
Theorem read_orderbook_unwritten (buf : list N) :
  16 ≤ length buf →
  take 8 buf = repeat 0%N 8 →
  read_orderbook buf = Ok None.
Proof.
  intros Hlen Hzero. unfold read_orderbook, unpack_header.
  change HEADER_SIZE with 16. rewrite length_take, (Nat.min_l 16) by exact Hlen.
  cbn [Nat.eqb]. rewrite take_take. cbn [Nat.min]. rewrite Hzero.
  cbn [repeat unpack_u64 rbind].
  destruct (drop 8 buf) as [|b0 [|b1 [|b2 [|b3 [|b4 [|b5 [|b6 [|b7 r]]]]]]]] eqn:Hd;
    try (apply (f_equal length) in Hd; rewrite length_drop in Hd; cbn [length] in Hd; lia).
  assert (drop 8 (take 16 buf) = [b0; b1; b2; b3; b4; b5; b6; b7]) as Hd'.
  { replace (drop 8 (take 16 buf)) with (take 8 (drop 8 buf))
      by (rewrite take_drop_commute; reflexivity).
    rewrite Hd. reflexivity. }
  replace (drop 12 (take 16 buf)) with (drop 4 (drop 8 (take 16 buf)))
    by (rewrite drop_drop; reflexivity).
  rewrite Hd'. reflexivity.
Qed.

Lemma read_orderbook_unwritten_witness : read_orderbook create = Ok None.
Proof.
  apply read_orderbook_unwritten.
  - apply Nat.leb_le. vm_compute. reflexivity.
  - reflexivity.
Defined.

(** *** A shorter write after a longer one *)

(** The text of a book ends with a closing brace. *)
Lemma book_text_last (bids asks : list (json * json)) :
  ∃ body, dumps (book bids asks) = body ++ [125%N].
Proof. eexists (123%N :: _). reflexivity. Qed.

(** What [read_orderbook] returns on a segment that holds a header, the
    text of a book, leftover text that ends with a closing brace, and then a
    zero byte or the end of the segment. *)
Lemma read_orderbook_stale (header stale rest : list N) (bids asks : list (json * json))
    (ts nb na : N) :
  length header = HEADER_SIZE →
  unpack_header header = Ok (ts, nb, na) →
  is_zero_double ts = false →
  valid (book bids asks) = true →
  plain stale →
  length (dumps (book bids asks)) + S (length stale) ≤ MEMORY_SIZE - HEADER_SIZE →
  (length (dumps (book bids asks)) + S (length stale) = MEMORY_SIZE - HEADER_SIZE
   ∨ ∃ r, rest = 0%N :: r) →
  read_orderbook (header ++ dumps (book bids asks) ++ (stale ++ [125%N]) ++ rest) = Ok None.
Proof.
  intros Hlen Hun Hts Hv Hstale Hfit Hrest. unfold read_orderbook.
  replace (take HEADER_SIZE (header ++ dumps (book bids asks) ++ (stale ++ [125%N]) ++ rest))
    with header by (rewrite <- Hlen; symmetry; apply take_app_length).
  replace (drop HEADER_SIZE (header ++ dumps (book bids asks) ++ (stale ++ [125%N]) ++ rest))
    with ((dumps (book bids asks) ++ stale ++ [125%N]) ++ rest)
    by (rewrite <- Hlen, drop_app_length, <- !app_assoc; reflexivity).
  rewrite Hun. cbn [rbind fst]. rewrite Hts.
  assert (plain (dumps (book bids asks) ++ stale ++ [125%N])) as Hplain.
  { apply plain_app; [exact (plain_encode _ Hv)|]. apply plain_app; [exact Hstale|].
    apply Forall_cons. split; [lia|]. apply Forall_nil. done. }
  assert (length (dumps (book bids asks) ++ stale ++ [125%N])
          = length (dumps (book bids asks)) + S (length stale)) as Hl.
  { rewrite !length_app. cbn [length]. lia. }
  assert (until_null (take (MEMORY_SIZE - HEADER_SIZE)
                        ((dumps (book bids asks) ++ stale ++ [125%N]) ++ rest))
          = dumps (book bids asks) ++ stale ++ [125%N]) as ->.
  { revert Hplain Hl. generalize (dumps (book bids asks) ++ stale ++ [125%N]) as text.
    intros text Hplain Hl. rewrite <- Hl in Hfit, Hrest.
    destruct (decide (length text = MEMORY_SIZE - HEADER_SIZE)) as [Hfull|Hless].
    - rewrite <- Hfull, take_app_length.
      rewrite <- (app_nil_r text) at 1. apply until_null_plain; [exact Hplain|by left].
    - destruct Hrest as [Hfull|[r ->]]; [contradiction|].
      rewrite take_app_ge by lia.
      replace (MEMORY_SIZE - HEADER_SIZE - length text)
        with (S (MEMORY_SIZE - HEADER_SIZE - length text - 1)) by lia.
      cbn [take]. apply until_null_plain; [exact Hplain|]. right. eauto. }
  rewrite (utf8_decode_ascii _ (plain_ascii _ Hplain)).
  unfold book at 1. rewrite loads_extra_data; [reflexivity|exact Hv|discriminate|].
  apply skip_ws_last. reflexivity.
Qed.

Lemma length_write_orderbook (buf : list N) (bids asks : list (json * json)) (ts : N) :
  length buf = MEMORY_SIZE →
  valid (book bids asks) = true →
  length (dumps (book bids asks)) ≤ MEMORY_SIZE - HEADER_SIZE →
  length (fst (write_orderbook buf bids asks ts)) = MEMORY_SIZE.
Proof.
  intros Hbuf Hv Hfit.
  destruct (write_orderbook_fits buf bids asks ts Hbuf Hv Hfit) as (header & _ & Hlen & Hw).
  rewrite Hw. cbn [fst]. pose proof capacity_value. pose proof memory_size_value.
  pose proof header_size_value. rewrite !length_app, length_drop. lia.
Qed.

(** C3 fails on the code.  The reader takes the first zero byte for the end
    of the payload, and the writer writes none: when a payload is written over a longer one,
    the tail of the longer one stays behind it, the text in the segment is
    no JSON value any more, and [read_orderbook] returns [None]. *)
Theorem shorter_write_reads_none (buf : list N) (bids1 asks1 bids2 asks2 : list (json * json))
    (ts1 ts2 : N) :
  length buf = MEMORY_SIZE →
  valid (book bids1 asks1) = true →
  valid (book bids2 asks2) = true →
  length (dumps (book bids1 asks1)) ≤ MEMORY_SIZE - HEADER_SIZE →
  length (dumps (book bids2 asks2)) < length (dumps (book bids1 asks1)) →
  (ts2 < 18446744073709551616)%N →
  is_zero_double ts2 = false →
  (length (dumps (book bids1 asks1)) = MEMORY_SIZE - HEADER_SIZE
   ∨ buf !! (HEADER_SIZE + length (dumps (book bids1 asks1))) = Some 0%N) →
  read_orderbook
    (fst (write_orderbook (fst (write_orderbook buf bids1 asks1 ts1)) bids2 asks2 ts2))
  = Ok None.
Proof.
  intros Hbuf Hv1 Hv2 Hfit1 Hshort Hts Hnz Hnext.
  pose proof (length_write_orderbook buf bids1 asks1 ts1 Hbuf Hv1 Hfit1) as Hseg1.
  destruct (write_orderbook_fits buf bids1 asks1 ts1 Hbuf Hv1 Hfit1)
    as (header1 & _ & Hlen1 & Hw1).
  rewrite Hw1 in Hseg1 |- *. cbn [fst] in Hseg1 |- *.
  destruct (write_orderbook_fits _ bids2 asks2 ts2 Hseg1 Hv2 ltac:(lia))
    as (header2 & Hh2 & Hlen2 & Hw2).
  rewrite Hw2. cbn [fst].
  destruct (book_text_last bids1 asks1) as [body Hbody].
  pose proof (plain_encode _ Hv1) as Hplain1. fold (dumps (book bids1 asks1)) in Hplain1.
  rewrite Hbody in Hshort, Hfit1, Hnext, Hplain1 |- *.
  rewrite length_app in Hshort, Hfit1, Hnext. cbn [length] in Hshort, Hfit1, Hnext.
  rewrite length_app. cbn [length].
  remember (length (dumps (book bids2 asks2))) as n eqn:Hn.
  assert (drop (HEADER_SIZE + n)
            (header1 ++ (body ++ [125%N]) ++ drop (HEADER_SIZE + (length body + 1)) buf)
          = (drop n body ++ [125%N]) ++ drop (HEADER_SIZE + (length body + 1)) buf) as Hdrop.
  { rewrite <- drop_drop. rewrite <- Hlen1 at 1. rewrite drop_app_length.
    rewrite drop_app_le by (rewrite length_app; cbn [length]; lia).
    rewrite drop_app_le by lia. reflexivity. }
  rewrite Hdrop.
  assert (length (drop n body) = length body - n) as Hstale by apply length_drop.
  apply (read_orderbook_stale header2 (drop n body) _ bids2 asks2 ts2 _ _ Hlen2
           (unpack_pack_header ts2 _ _ header2 Hts Hh2) Hnz Hv2).
  - apply Forall_drop. apply Forall_app in Hplain1 as [Hb _]. exact Hb.
  - rewrite <- Hn, Hstale. lia.
  - rewrite <- Hn, Hstale. destruct Hnext as [Hfull|Hzero]; [left; lia|right].
    eexists. apply drop_S. exact Hzero.
Qed.

(** The bit pattern of the double [1700000001.0]. *)
Definition later_time : N := 4744917124797956096.

Lemma shorter_write_reads_none_witness :
  read_orderbook
    (fst (write_orderbook (fst (write_orderbook create sample_bids sample_asks sample_time))
            [(one_point_zero 100, one_point_zero 10)] sample_asks later_time))
  = Ok None.
Proof.
  apply shorter_write_reads_none.
  - apply List.repeat_length.
  - reflexivity.
  - reflexivity.
  - apply Nat.leb_le. vm_compute. reflexivity.
  - apply Nat.ltb_lt. vm_compute. reflexivity.
  - reflexivity.
  - reflexivity.
  - right. vm_compute. reflexivity.
Defined.

(** *** Best bid and ask *)

(** After a write that the next read sees, [get_best_bid_ask] returns the
    prices of the first bid and the first ask that were written, and [None]
    when a side was written empty. *)
Theorem get_best_bid_ask_after_write (buf : list N) (bids asks : list (json * json))
    (ts : N) :
  length buf = MEMORY_SIZE →
  valid (book bids asks) = true →
  length (dumps (book bids asks)) ≤ MEMORY_SIZE - HEADER_SIZE →
  (ts < 18446744073709551616)%N →
  is_zero_double ts = false →
  (length (dumps (book bids asks)) = MEMORY_SIZE - HEADER_SIZE
   ∨ buf !! (HEADER_SIZE + length (dumps (book bids asks))) = Some 0%N) →
  get_best_bid_ask (fst (write_orderbook buf bids asks ts))
  = Ok (match bids, asks with
        | best_bid :: _, best_ask :: _ => Some (fst best_bid, fst best_ask)
        | _, _ => None
        end).
Proof.
  intros Hbuf Hv Hfit Hts Hnz Hnext. unfold get_best_bid_ask.
  destruct (write_orderbook_fits buf bids asks ts Hbuf Hv Hfit) as (header & Hh & Hlen & Hw).
  rewrite Hw. cbn [fst].
  rewrite (read_orderbook_written header _ bids asks ts _ _ Hlen
             (unpack_pack_header ts _ _ header Hts Hh) Hnz Hv Hfit).
  2:{ destruct Hnext as [Hfull|Hzero]; [by left|right]. eexists. apply drop_S. exact Hzero. }
  cbn [rbind SharedMemory.bids SharedMemory.asks].
  destruct bids as [|[bp bs] bids]; [reflexivity|].
  destruct asks as [|[ap az] asks]; reflexivity.
Qed.

Lemma get_best_bid_ask_after_write_witness :
  get_best_bid_ask (fst (write_orderbook create sample_bids sample_asks sample_time))
  = Ok (Some (one_point_zero 100, one_point_zero 101))
  ∧ get_best_bid_ask (fst (write_orderbook create sample_bids [] sample_time)) = Ok None.
Proof.
  split.
  - apply (get_best_bid_ask_after_write create sample_bids sample_asks sample_time).
    + apply List.repeat_length.
    + reflexivity.
    + apply Nat.leb_le. vm_compute. reflexivity.
    + reflexivity.
    + reflexivity.
    + right. vm_compute. reflexivity.
  - apply (get_best_bid_ask_after_write create sample_bids [] sample_time).
    + apply List.repeat_length.
    + reflexivity.
    + apply Nat.leb_le. vm_compute. reflexivity.
    + reflexivity.
    + reflexivity.
    + right. vm_compute. reflexivity.
Defined.

End SharedMemoryFacts.

